(** * eBPF loader: object names, program submission, codec, linker, map specs

    A shallow embedding of the Go package [ebpf] (files [syscalls.go] and
    [prog.go]) together with the parts of the instruction codec, the editor
    and the ELF loader that the package's tests exercise.

    Conventions.
    - A Go [string] is a [string] (a sequence of 8-bit characters); a Go
      [[]byte] or byte array is a [list byte].
    - Go integers are [Z]; conversions to a fixed width are written out
      ([uint32], [int64], ...).
    - A Go [error] value is an [option error]; [None] is [nil]. *)

From Stdlib Require Import ZArith String Ascii Lia.
From Stdlib.Strings Require Import Byte.
From stdpp Require Import base list strings gmap pretty.

Open Scope Z_scope.

(** ** Fixed-width integers *)

Definition uint32 (z : Z) : Z := z mod 2 ^ 32.
Definition uint64 (z : Z) : Z := z mod 2 ^ 64.

(** Reinterpret the low [w] bits of [z] as a two's complement number. *)
Definition signed (w : Z) (z : Z) : Z :=
  let u := z mod 2 ^ w in
  if u <? 2 ^ (w - 1) then u else u - 2 ^ w.

Definition int16 (z : Z) : Z := signed 16 z.
Definition int32 (z : Z) : Z := signed 32 z.
Definition int64 (z : Z) : Z := signed 64 z.

(** ** Bytes and strings *)

Definition byte_val (b : byte) : Z := Z.of_N (Byte.to_N b).

Definition byte_of_Z (z : Z) : byte :=
  match Byte.of_N (Z.to_N (z mod 256)) with
  | Some b => b
  | None => x00
  end.

Definition char_val (c : ascii) : Z := Z.of_N (N_of_ascii c).

(** [[]byte(s)] and [string(b)]. *)
Definition bytes_of_string (s : string) : list byte := list_byte_of_string s.
Definition string_of_bytes (b : list byte) : string := string_of_list_byte b.

(** [make([]byte, n)]: [n] zero bytes. *)
Definition make_bytes (n : Z) : list byte := replicate (Z.to_nat n) x00.

(** The builtin [copy(dst, src)]: the new contents of [dst].  It copies
    [min (len dst) (len src)] elements and leaves the rest of [dst] alone. *)
Definition copy {A} (dst src : list A) : list A :=
  take (length dst) src ++ drop (length src) dst.

Fixpoint string_drop (n : nat) (s : string) : string :=
  match n, s with
  | O, _ => s
  | S _, EmptyString => EmptyString
  | S n', String _ t => string_drop n' t
  end.

(** ** The Go library functions the package calls *)

Module Utf8.

Definition rune := Z.
Definition RuneError : rune := 0xFFFD.

(** The table [first] of package [unicode/utf8], read as: for a lead byte
    of a multi-byte sequence, the length of the sequence and the range
    accepted for the second byte; [None] for a byte that cannot start
    one. *)
Definition lead (s0 : Z) : option (nat * Z * Z) :=
  if (0xC2 <=? s0) && (s0 <=? 0xDF) then Some (2%nat, 0x80, 0xBF)
  else if s0 =? 0xE0 then Some (3%nat, 0xA0, 0xBF)
  else if (0xE1 <=? s0) && (s0 <=? 0xEC) then Some (3%nat, 0x80, 0xBF)
  else if s0 =? 0xED then Some (3%nat, 0x80, 0x9F)
  else if (0xEE <=? s0) && (s0 <=? 0xEF) then Some (3%nat, 0x80, 0xBF)
  else if s0 =? 0xF0 then Some (4%nat, 0x90, 0xBF)
  else if (0xF1 <=? s0) && (s0 <=? 0xF3) then Some (4%nat, 0x80, 0xBF)
  else if s0 =? 0xF4 then Some (4%nat, 0x80, 0x8F)
  else None.

Definition cont (b : Z) : bool := (0x80 <=? b) && (b <=? 0xBF).

(** [utf8.DecodeRuneInString]: the first rune of [s] and its width in
    bytes; an invalid encoding gives [(RuneError, 1)], the empty string
    [(RuneError, 0)]. *)
Definition DecodeRuneInString (s : string) : rune * nat :=
  match s with
  | EmptyString => (RuneError, 0%nat)
  | String c0 t0 =>
    let s0 := char_val c0 in
    if s0 <? 0x80 then (s0, 1%nat)
    else
      match lead s0 with
      | None => (RuneError, 1%nat)
      | Some (sz, lo, hi) =>
        if (String.length s <? sz)%nat then (RuneError, 1%nat)
        else
          match t0 with
          | EmptyString => (RuneError, 1%nat)
          | String c1 t1 =>
            let s1 := char_val c1 in
            if (s1 <? lo) || (hi <? s1) then (RuneError, 1%nat)
            else if (sz <=? 2)%nat then
              (Z.lor (Z.shiftl (Z.land s0 0x1F) 6) (Z.land s1 0x3F), 2%nat)
            else
              match t1 with
              | EmptyString => (RuneError, 1%nat)
              | String c2 t2 =>
                let s2 := char_val c2 in
                if negb (cont s2) then (RuneError, 1%nat)
                else if (sz <=? 3)%nat then
                  (Z.lor (Z.lor (Z.shiftl (Z.land s0 0x0F) 12)
                                (Z.shiftl (Z.land s1 0x3F) 6))
                         (Z.land s2 0x3F), 3%nat)
                else
                  match t2 with
                  | EmptyString => (RuneError, 1%nat)
                  | String c3 _ =>
                    let s3 := char_val c3 in
                    if negb (cont s3) then (RuneError, 1%nat)
                    else
                      (Z.lor (Z.lor (Z.lor (Z.shiftl (Z.land s0 0x07) 18)
                                           (Z.shiftl (Z.land s1 0x3F) 12))
                                    (Z.shiftl (Z.land s2 0x3F) 6))
                             (Z.land s3 0x3F), 4%nat)
                  end
              end
          end
      end
  end.

(** The pairs [(i, r)] that [for i, r := range s] goes through: byte
    offset and rune.  Every step consumes at least one byte, so [length s]
    steps are enough for the whole string. *)
Fixpoint range_from (steps i : nat) (s : string) : list (nat * rune) :=
  match steps, s with
  | S steps', String _ _ =>
    let '(r, size) := DecodeRuneInString s in
    (i, r) :: range_from steps' (i + size) (string_drop size s)
  | _, _ => []
  end.

Definition range (s : string) : list (nat * rune) :=
  range_from (String.length s) 0 s.

(** [[]rune(s)]. *)
Definition runes (s : string) : list rune := (range s).*2.

End Utf8.

Module GoStrings.

(** [strings.IndexFunc]: the byte offset of the first rune satisfying
    [f], or [-1]. *)
Definition IndexFunc (s : string) (f : Utf8.rune -> bool) : Z :=
  match List.find (fun ir => f ir.2) (Utf8.range s) with
  | Some ir => Z.of_nat ir.1
  | None => -1
  end.

End GoStrings.

Module GoBytes.

Fixpoint index_from (i : Z) (b : list byte) (c : byte) : Z :=
  match b with
  | [] => -1
  | x :: t => if Byte.eqb x c then i else index_from (i + 1) t c
  end.

(** [bytes.IndexByte]. *)
Definition IndexByte (b : list byte) (c : byte) : Z := index_from 0 b c.

End GoBytes.

(** ** Errors *)

Definition Errno := Z.
Definition EAGAIN : Errno := 11.
Definition EINVAL : Errno := 22.
Definition ENOSPC : Errno := 28.

#[warnings="-register-all"]
Inductive error : Type :=
| ErrErrno (e : Errno)
    (** a [syscall.Errno] used as an error *)
| ErrMsg (msg : string)
    (** [errors.New] and [errors.Errorf] without arguments *)
| ErrInvalidNameChar (c : ascii) (name : string)
    (** [errors.Errorf("invalid character '%c' in name '%s'", c, name)] *)
| ErrWrap (cause : error) (msg : string)
    (** [errors.Wrap(cause, msg)] with a non-nil cause *)
| ErrLoad (cause : option error) (verifierLog : string)
    (** [&loadError{cause, verifierLog}] *)
| ErrUndefinedSymbol (symbol : string)
    (** the encoder's refusal of an unresolved call *).

(** [errors.Wrap]: wrapping [nil] gives [nil]. *)
Definition Wrap (err : option error) (msg : string) : option error :=
  match err with
  | None => None
  | Some e => Some (ErrWrap e msg)
  end.

(** [errors.Cause]: follow the [Cause()] methods down to the first error
    that has none. *)
Fixpoint Cause_of (e : error) : option error :=
  match e with
  | ErrWrap c _ => Cause_of c
  | ErrLoad (Some c) _ => Cause_of c
  | ErrLoad None _ => None
  | _ => Some e
  end.

Definition Cause (err : option error) : option error :=
  match err with
  | None => None
  | Some e => Cause_of e
  end.

(** The code point that the verb [%c] prints for the byte argument of
    [ErrInvalidNameChar]. *)
Definition reported_char (e : error) : option Utf8.rune :=
  match e with
  | ErrInvalidNameChar c _ => Some (char_val c)
  | _ => None
  end.

(** ** syscalls.go: object names *)

Definition bpfObjNameLen : Z := 16.
Definition bpfTagSize : Z := 8.

(** [type bpfObjName [bpfObjNameLen]byte]. *)
Abbreviation bpfObjName := (list byte).

(** The zero value [bpfObjName{}]. *)
Definition bpfObjName_zero : bpfObjName := make_bytes bpfObjNameLen.

(** A rune literal such as ['A']. *)
Definition rune_lit (c : ascii) : Utf8.rune := char_val c.

(** The [switch] falls through its first three cases into the fourth, so
    all four return [false]. *)
Definition invalidBPFObjNameChar (char : Utf8.rune) : bool :=
  if (rune_lit "A" <=? char) && (char <=? rune_lit "Z") then false
  else if (rune_lit "a" <=? char) && (char <=? rune_lit "z") then false
  else if (rune_lit "0" <=? char) && (char <=? rune_lit "9") then false
  else if char =? rune_lit "_" then false
  else true.

(** [name[idx]].  An index outside the string is a run-time panic in Go;
    [newBPFObjName] only indexes at an offset that [IndexFunc] returned,
    which is inside the string ([IndexFunc_in_range] below), so the
    fallback is never taken there. *)
Definition string_index (s : string) (idx : Z) : ascii :=
  match String.get (Z.to_nat idx) s with
  | Some c => c
  | None => Ascii.zero
  end.

(** [newBPFObjName] truncates the result if it is too long. *)
Definition newBPFObjName (name : string) : bpfObjName * option error :=
  let idx := GoStrings.IndexFunc name invalidBPFObjNameChar in
  if negb (idx =? -1) then
    (bpfObjName_zero, Some (ErrInvalidNameChar (string_index name idx) name))
  else
    let result := bpfObjName_zero in
    (* copy(result[:bpfObjNameLen-1], name) *)
    let n := Z.to_nat (bpfObjNameLen - 1) in
    let result := copy (take n result) (bytes_of_string name) ++ drop n result in
    (result, None).

(** The offset of the first byte of [s] that is not in [A-Za-z0-9_],
    counted from [i]; [-1] when there is none. *)
Fixpoint first_invalid_byte (i : Z) (s : string) : Z :=
  match s with
  | EmptyString => -1
  | String c t =>
    if invalidBPFObjNameChar (char_val c) then i
    else first_invalid_byte (i + 1) t
  end.

(** Every character of the name is in [A-Za-z0-9_]. *)
Definition valid_name (name : string) : Prop :=
  Forall (fun r => invalidBPFObjNameChar r = false) (Utf8.runes name).

(** [r] at byte offset [idx] is the first character of the name outside
    [A-Za-z0-9_]. *)
Definition first_offending (name : string) (idx : nat) (r : Utf8.rune) : Prop :=
  exists before after,
    Utf8.range name = before ++ (idx, r) :: after /\
    Forall (fun ir => invalidBPFObjNameChar ir.2 = false) before /\
    invalidBPFObjNameChar r = true.

(** Example names. *)
Definition name16 : string := "abcdefghijklmnop".
Definition e_acute : string := String "195" (String "169" EmptyString).


(** ** Package asm: the instruction model and its codec *)

Module asm.

(** Modelled from the spec: the instruction model of package [asm], which
    [prog.go] imports and whose source is missing.
    A logical instruction has an 8-bit opcode, two 4-bit registers, a
    signed 16-bit offset, a signed 64-bit constant and two labels (the
    empty string stands for no label). *)
Record Instruction : Type := {
  OpCode : Z;
  Dst : Z;
  Src : Z;
  Offset : Z;
  Constant : Z;
  Reference : string;
  Symbol : string
}.

Abbreviation Instructions := (list Instruction).

(** Bytes of one wire slot. *)
Definition InstructionSize : Z := 8.

(** Opcodes of the instruction set that the codec and the editor tell
    apart: the 64-bit immediate load, call and exit. *)
Definition LdImmDW : Z := 0x18.
Definition Call : Z := 0x85.
Definition Exit : Z := 0x95.

(** The source-register value that marks a call as a call to a
    sub-program. *)
Definition PseudoCall : Z := 1.

Definition isLdImmDW (ins : Instruction) : bool := OpCode ins =? LdImmDW.
Definition isCall (ins : Instruction) : bool := OpCode ins =? Call.
Definition isExit (ins : Instruction) : bool := OpCode ins =? Exit.

Definition R0 : Z := 0.
Definition R1 : Z := 1.

(** Constructors used by the package and its tests. *)
Definition LoadImm64 (dst : Z) (value : Z) : Instruction :=
  {| OpCode := LdImmDW; Dst := dst; Src := 0; Offset := 0;
     Constant := value; Reference := ""; Symbol := "" |}.
Definition CallImm (dst src : Z) (imm : Z) : Instruction :=
  {| OpCode := Call; Dst := dst; Src := src; Offset := 0;
     Constant := imm; Reference := ""; Symbol := "" |}.
Definition Return : Instruction :=
  {| OpCode := Exit; Dst := 0; Src := 0; Offset := 0;
     Constant := 0; Reference := ""; Symbol := "" |}.

Definition Ref (ins : Instruction) (label : string) : Instruction :=
  {| OpCode := OpCode ins; Dst := Dst ins; Src := Src ins;
     Offset := Offset ins; Constant := Constant ins;
     Reference := label; Symbol := Symbol ins |}.
Definition Sym (ins : Instruction) (label : string) : Instruction :=
  {| OpCode := OpCode ins; Dst := Dst ins; Src := Src ins;
     Offset := Offset ins; Constant := Constant ins;
     Reference := Reference ins; Symbol := label |}.
Definition withConstant (ins : Instruction) (c : Z) : Instruction :=
  {| OpCode := OpCode ins; Dst := Dst ins; Src := Src ins;
     Offset := Offset ins; Constant := c;
     Reference := Reference ins; Symbol := Symbol ins |}.

(** Modelled from the spec: the wire count of an instruction is 2 for a
    64-bit immediate load and 1 otherwise; the length of a sequence, for
    offset arithmetic, is the sum of the slot counts of its elements. *)
Definition slots (ins : Instruction) : Z := if isLdImmDW ins then 2 else 1.

Fixpoint wire_length (insns : Instructions) : Z :=
  match insns with
  | [] => 0
  | ins :: rest => slots ins + wire_length rest
  end.


Inductive ByteOrder : Type := LittleEndian | BigEndian.

Definition order (bo : ByteOrder) (bs : list byte) : list byte :=
  match bo with
  | LittleEndian => bs
  | BigEndian => reverse bs
  end.

(** Little-endian value of a byte sequence and its inverse. *)
Fixpoint le_val (bs : list byte) : Z :=
  match bs with
  | [] => 0
  | b :: rest => byte_val b + 256 * le_val rest
  end.

Fixpoint le_bytes (n : nat) (z : Z) : list byte :=
  match n with
  | O => []
  | S n' => byte_of_Z z :: le_bytes n' (z / 256)
  end.

Definition get_uint (bo : ByteOrder) (bs : list byte) : Z :=
  le_val (order bo bs).
Definition put_uint (bo : ByteOrder) (n : nat) (z : Z) : list byte :=
  order bo (le_bytes n z).

(** The fields of one wire slot. *)
Record slot : Type := {
  s_op : Z;
  s_dst : Z;
  s_src : Z;
  s_off : Z;
  s_imm : Z
}.

(** Modelled from the spec: one slot is eight bytes: opcode, the two
    registers in one byte (destination in the low four bits), the 16-bit
    offset and the 32-bit immediate, the last two in the given byte
    order; both are read here as unsigned numbers. *)
Definition read_slot (bo : ByteOrder)
           (b0 b1 b2 b3 b4 b5 b6 b7 : byte) : slot :=
  {| s_op := byte_val b0;
     s_dst := Z.land (byte_val b1) 0x0F;
     s_src := Z.shiftr (byte_val b1) 4;
     s_off := get_uint bo [b2; b3];
     s_imm := get_uint bo [b4; b5; b6; b7] |}.

Definition write_slot (bo : ByteOrder) (s : slot) : list byte :=
  [byte_of_Z (s_op s);
   byte_of_Z (Z.lor (Z.land (s_dst s) 0x0F) (Z.shiftl (Z.land (s_src s) 0x0F) 4))]
    ++ put_uint bo 2 (s_off s) ++ put_uint bo 4 (s_imm s).

Inductive decode_error : Type :=
| ShortSlot          (** bytes remain that are shorter than one slot *)
| TruncatedLoad      (** a 64-bit load without its second slot *)
| BadSecondSlot      (** a 64-bit load whose second slot has an opcode *).

(** Modelled from the spec: the decoder [loadInstructions], which the
    test [Test64bitImmediate] calls and whose source is missing.  It reads eight bytes per slot; for a 64-bit immediate
    load it also consumes the next slot, requires its opcode to be zero
    and combines the two immediates, both as unsigned 32-bit values (low
    half from the first slot, high half from the second), into a 64-bit
    word that is then read as signed.  Other immediates are signed 32-bit
    values. *)
Fixpoint decode (bo : ByteOrder) (bs : list byte)
  : decode_error + Instructions :=
  match bs with
  | [] => inr []
  | b0 :: b1 :: b2 :: b3 :: b4 :: b5 :: b6 :: b7 :: rest =>
    let s := read_slot bo b0 b1 b2 b3 b4 b5 b6 b7 in
    if s_op s =? LdImmDW then
      match rest with
      | c0 :: c1 :: c2 :: c3 :: c4 :: c5 :: c6 :: c7 :: rest' =>
        let s' := read_slot bo c0 c1 c2 c3 c4 c5 c6 c7 in
        if negb (s_op s' =? 0) then inl BadSecondSlot
        else
          let ins :=
            {| OpCode := s_op s; Dst := s_dst s; Src := s_src s;
               Offset := int16 (s_off s);
               Constant :=
                 int64 (Z.lor (uint32 (s_imm s))
                              (Z.shiftl (uint32 (s_imm s')) 32));
               Reference := ""; Symbol := "" |} in
          match decode bo rest' with
          | inl e => inl e
          | inr insns => inr (ins :: insns)
          end
      | _ => inl TruncatedLoad
      end
    else
      let ins :=
        {| OpCode := s_op s; Dst := s_dst s; Src := s_src s;
           Offset := int16 (s_off s); Constant := int32 (s_imm s);
           Reference := ""; Symbol := "" |} in
      match decode bo rest with
      | inl e => inl e
      | inr insns => inr (ins :: insns)
      end
  | _ => inl ShortSlot
  end.

(** [loadInstructions]: the instructions, the number of bytes consumed and
    the error. *)
Definition loadInstructions (bo : ByteOrder) (bs : list byte)
  : option Instructions * Z * option decode_error :=
  match decode bo bs with
  | inl e => (None, 0, Some e)
  | inr insns => (Some insns, Z.of_nat (length bs), None)
  end.

(** Modelled from the spec: a call that carries the sub-program marker
    and still has a reference label is unresolved; submitting it is a
    fatal error. *)
Definition unresolved (ins : Instruction) : bool :=
  isCall ins && (Src ins =? PseudoCall) && negb (String.eqb (Reference ins) "").

(** Modelled from the spec: the encoder [Instructions.Marshal] of package
    [asm].  Every logical instruction gives one slot, except the 64-bit
    immediate load, which gives two: the first with the low 32 bits of
    the constant, the second with opcode zero and the high 32 bits. *)
Definition marshal_ins (bo : ByteOrder) (ins : Instruction)
  : error + list byte :=
  if unresolved ins then inl (ErrUndefinedSymbol (Reference ins))
  else
    let c := uint64 (Constant ins) in
    let first :=
      {| s_op := OpCode ins; s_dst := Dst ins; s_src := Src ins;
         s_off := Offset ins; s_imm := uint32 c |} in
    if isLdImmDW ins then
      inr (write_slot bo first
             ++ write_slot bo {| s_op := 0; s_dst := 0; s_src := 0;
                                 s_off := 0; s_imm := Z.shiftr c 32 |})
    else inr (write_slot bo first).

Fixpoint Marshal (bo : ByteOrder) (insns : Instructions)
  : error + list byte :=
  match insns with
  | [] => inr []
  | ins :: rest =>
    match marshal_ins bo ins with
    | inl e => inl e
    | inr bs =>
      match Marshal bo rest with
      | inl e => inl e
      | inr bs' => inr (bs ++ bs')
      end
    end
  end.

End asm.

(** The stream of [Test64bitImmediate]: [r1 = math.MinInt32 - 1]. *)
Definition prog_64bit_immediate : list byte :=
  [x18; x01; x00; x00; xff; xff; xff; x7f;
   x00; x00; x00; x00; xff; xff; xff; xff].

(** ** Results of Go code: return, panic, or wait for the kernel *)

Inductive outcome (A : Type) : Type :=
| Returns (a : A)
| Panics (msg : string)
| Blocks.
Arguments Returns {A} a.
Arguments Panics {A} msg.
Arguments Blocks {A}.

(** ** syscalls.go: attributes of the bpf system call *)

(** Modelled from the spec: the enumerations [ProgType] and [MapType] are
    declared in a file that is missing; the map types are the numbers
    the kernel uses, which is what the map records of an object file
    hold. *)
Inductive ProgType : Type :=
| Unrecognized | SocketFilter | Kprobe | SchedCLS | SchedACT | TracePoint | XDP.

Definition MapType := Z.
Definition Array : MapType := 2.
Definition PerfEventArray : MapType := 4.

(** A [syscallPtr]: [None] is the nil pointer, [Some b] points to the
    first byte of an array whose contents are [b]. *)
Abbreviation syscallPtr := (option (list byte)).

(** [newPtr(unsafe.Pointer(&b[0]))]: indexing an empty slice panics. *)
Definition ptr_to_first (b : list byte) : outcome syscallPtr :=
  match b with
  | [] => Panics "index out of range"
  | _ => Returns (Some b)
  end.

Record bpfMapCreateAttr : Type := {
  mapType : MapType;
  keySize : Z;
  valueSize : Z;
  maxEntries : Z;
  flags : Z;
  innerMapFd : Z;
  numaNode : Z;
  mapName : bpfObjName
}.

Record bpfProgLoadAttr : Type := {
  progType : ProgType;
  insCount : Z;
  instructions : syscallPtr;
  license : syscallPtr;
  logLevel : Z;
  logSize : Z;
  logBuf : syscallPtr;
  kernelVersion : Z;
  progFlags : Z;
  progName : bpfObjName;
  progIfIndex : Z;
  expectedAttachType : Z
}.

(** [attr.logLevel = level; attr.logSize = size; attr.logBuf = buf]. *)
Definition with_log (attr : bpfProgLoadAttr) (level size : Z) (buf : syscallPtr)
  : bpfProgLoadAttr :=
  {| progType := progType attr; insCount := insCount attr;
     instructions := instructions attr; license := license attr;
     logLevel := level; logSize := size; logBuf := buf;
     kernelVersion := kernelVersion attr; progFlags := progFlags attr;
     progName := progName attr; progIfIndex := progIfIndex attr;
     expectedAttachType := expectedAttachType attr |}.

Definition with_progName (attr : bpfProgLoadAttr) (name : bpfObjName)
  : bpfProgLoadAttr :=
  {| progType := progType attr; insCount := insCount attr;
     instructions := instructions attr; license := license attr;
     logLevel := logLevel attr; logSize := logSize attr; logBuf := logBuf attr;
     kernelVersion := kernelVersion attr; progFlags := progFlags attr;
     progName := name; progIfIndex := progIfIndex attr;
     expectedAttachType := expectedAttachType attr |}.

(** ** The kernel and the process state *)

(** A system call as the kernel sees it. *)
Inductive syscall : Type :=
| SysProgLoad (attr : bpfProgLoadAttr)
| SysMapCreate (attr : bpfMapCreateAttr)
| SysClose (fd : Z).

(** What the kernel answers to one [bpf] call: the result register, the
    error number (zero for success) and the bytes it stores into the
    verifier log buffer, when the call supplies one. *)
Record sysret : Type := {
  r1 : Z;
  errNo : Errno;
  klog : list byte
}.

(** The kernel is any sequence of answers, consumed one per [bpf] call; when
    the answers are used up the next call does not return.  [calls] records
    the system calls made so far, the most recent last.  [haveObjName_memo]
    is the one process-wide variable: the memoized result of the feature
    test [haveObjName]. *)
Record World : Type := {
  kernel : list sysret;
  calls : list syscall;
  haveObjName_memo : option bool
}.

(** Code that runs against the kernel. *)
Definition M (A : Type) : Type := World -> outcome (A * World).

Definition ret {A} (a : A) : M A := fun w => Returns (a, w).

Definition bind {A B} (c : M A) (k : A -> M B) : M B :=
  fun w =>
    match c w with
    | Returns (a, w') => k a w'
    | Panics msg => Panics msg
    | Blocks => Blocks
    end.

(** A computation that does not touch the kernel. *)
Definition lift {A} (o : outcome A) : M A :=
  fun w =>
    match o with
    | Returns a => Returns (a, w)
    | Panics msg => Panics msg
    | Blocks => Blocks
    end.

Notation "x <- c ;; k" := (bind c (fun x => k))
  (at level 20, c at level 99, k at level 200, only parsing).
Notation "' p <- c ;; k" := (bind c (fun p => k))
  (at level 20, p pattern, c at level 99, k at level 200, only parsing).

(** The error of a system call: [nil] when the error number is zero. *)
Definition errno_error (e : Errno) : option error :=
  if e =? 0 then None else Some (ErrErrno e).

(** [err == e] for an error number [e]. *)
Definition is_errno (err : option error) (e : Errno) : bool :=
  match err with
  | Some (ErrErrno x) => x =? e
  | _ => false
  end.

(** [bpfCall]: one [bpf] system call, [cmd attr], on the attribute that
    [attr] points to.  The kernel may store into the memory behind the
    attribute: [stores] says what the attribute is after the answer [r].
    The call returns the result register and, when the error number is not
    zero, the error number as the error. *)
Definition bpfCall {A} (cmd : A -> syscall) (stores : sysret -> A -> A)
           (attr : A) : M (A * (Z * option error)) :=
  fun w =>
    match kernel w with
    | [] => Blocks
    | r :: rest =>
      Returns ((stores r attr, (r1 r, errno_error (errNo r))),
               {| kernel := rest;
                  calls := calls w ++ [cmd attr];
                  haveObjName_memo := haveObjName_memo w |})
    end.

(** [syscall.Close]: recorded, its result is ignored by the callers here. *)
Definition syscall_Close (fd : Z) : M unit :=
  fun w =>
    Returns (tt, {| kernel := kernel w;
                    calls := calls w ++ [SysClose fd];
                    haveObjName_memo := haveObjName_memo w |}).

(** The memory behind [attr] after the kernel answered [r]: the kernel
    stores its log into the buffer [logBuf], at most [logSize] bytes and
    never past the end of the buffer. *)
Definition kernel_writes (r : sysret) (attr : bpfProgLoadAttr) : bpfProgLoadAttr :=
  match logBuf attr with
  | None => attr
  | Some buf =>
    let n := Z.to_nat (logSize attr) in
    with_log attr (logLevel attr) (logSize attr)
             (Some (copy (take n buf) (klog r) ++ drop n buf))
  end.

(** The loop of [bpfProgLoad], for at most [n] rounds. *)
Fixpoint bpfProgLoad_rounds (n : nat) (attr : bpfProgLoadAttr)
  : M (bpfProgLoadAttr * (Z * option error)) :=
  match n with
  | O => fun _ => Blocks
  | S n' =>
    '(attr, (fd, err)) <- bpfCall SysProgLoad kernel_writes attr ;;
    (* As of ~4.20 the verifier can be interrupted by a signal,
       and returns EAGAIN in that case. *)
    if negb (is_errno err EAGAIN) then ret (attr, (fd, err))
    else bpfProgLoad_rounds n' attr
  end.

(** [bpfProgLoad]: the loop [for { ... }].  Every round consumes one answer
    of the kernel, so one round more than there are answers left covers
    every run; the last of them waits for the kernel.  The attribute is
    returned as well, for the memory behind it may have changed. *)
Definition bpfProgLoad (attr : bpfProgLoadAttr)
  : M (bpfProgLoadAttr * (Z * option error)) :=
  fun w => bpfProgLoad_rounds (S (length (kernel w))) attr w.

(** The kernel stores nothing behind the attribute of a map creation. *)
Definition bpfMapCreate (attr : bpfMapCreateAttr) : M (Z * option error) :=
  '(_, result) <- bpfCall SysMapCreate (fun _ a => a) attr ;;
  ret result.

(** The function of the feature test [haveObjName]. *)
Definition haveObjName_Fn : M bool :=
  let '(name, err) := newBPFObjName "feature_test" in
  match err with
  | Some _ =>
    (* This really is a fatal error, but it should be caught
       by the unit tests not working. *)
    ret false
  | None =>
    let attr :=
      {| mapType := Array; keySize := 4; valueSize := 4; maxEntries := 1;
         flags := 0; innerMapFd := 0; numaNode := 0; mapName := name |} in
    '(fd, err) <- bpfMapCreate attr ;;
    match err with
    | Some _ => ret false
    | None => _ <- syscall_Close fd ;; ret true
    end
  end.

(** Modelled from the spec: [featureTest.Result], whose source is
    missing: feature tests are memoized per process, a lazily
    initialized value behind a one-shot initializer. *)
Definition haveObjName_Result : M bool :=
  fun w =>
    match haveObjName_memo w with
    | Some b => Returns (b, w)
    | None =>
      match haveObjName_Fn w with
      | Returns (b, w') =>
        Returns (b, {| kernel := kernel w'; calls := calls w';
                       haveObjName_memo := Some b |})
      | Panics msg => Panics msg
      | Blocks => Blocks
      end
    end.

(** [convertCString]: the bytes before the first NUL; the empty string when
    there is no NUL. *)
Definition convertCString (b : list byte) : string :=
  let inLen := GoBytes.IndexByte b x00 in
  if inLen =? -1 then ""
  else string_of_bytes (take (Z.to_nat inLen) b).

(** The system calls of a run of [bpfProgLoad] that gets the answers [rs],
    and the attribute at its end. *)
Fixpoint submissions (attr : bpfProgLoadAttr) (rs : list sysret) : list syscall :=
  match rs with
  | [] => []
  | r :: rs' => SysProgLoad attr :: submissions (kernel_writes r attr) rs'
  end.

Definition after_writes (attr : bpfProgLoadAttr) (rs : list sysret)
  : bpfProgLoadAttr :=
  foldl (fun a r => kernel_writes r a) attr rs.

(** The kernel reports a verifier interrupted by a signal. *)
Definition interrupted (r : sysret) : Prop := errNo r = EAGAIN.

(** ** prog.go *)

(** [DefaultVerifierLogSize] is the default number of bytes allocated for
    the verifier log. *)
Definition DefaultVerifierLogSize : Z := 64 * 1024.

(** [ProgramSpec] defines a Program. *)
Record ProgramSpec : Type := {
  Name : string;
  Type_ : ProgType;
  Instructions : asm.Instructions;
  License : string;
  KernelVersion : Z
}.

Record ProgramABI : Type := { abi_Type : ProgType }.

(** [Program] represents a Program file descriptor. *)
Record Program : Type := {
  fd : Z;
  name : string;
  abi : ProgramABI
}.

Section Host.

(** The byte order of the host. *)
Variable nativeEndian : asm.ByteOrder.

Definition convertProgramSpec (spec : ProgramSpec) (includeName : bool)
  : outcome (option bpfProgLoadAttr * option error) :=
  match asm.Marshal nativeEndian (Instructions spec) with
  | inl err => Returns (None, Some err)
  | inr bytecode =>
    let insCount := uint32 (Z.of_nat (length bytecode) / asm.InstructionSize) in
    let lic := bytes_of_string (License spec) in
    match ptr_to_first bytecode with
    | Panics msg => Panics msg
    | Blocks => Blocks
    | Returns instructions_ptr =>
      match ptr_to_first lic with
      | Panics msg => Panics msg
      | Blocks => Blocks
      | Returns license_ptr =>
        let attr :=
          {| progType := Type_ spec;
             insCount := insCount;
             instructions := instructions_ptr;
             license := license_ptr;
             logLevel := 0; logSize := 0; logBuf := None;
             kernelVersion := 0; progFlags := 0;
             progName := bpfObjName_zero;
             progIfIndex := 0; expectedAttachType := 0 |} in
        let '(name, err) := newBPFObjName (Name spec) in
        match err with
        | Some e => Returns (None, Some e)
        | None =>
          let attr := if includeName then with_progName attr name else attr in
          Returns (Some attr, None)
        end
      end
    end
  end.

(** [NewProgram] creates a new Program.  (The finalizer that closes the
    descriptor of an unreachable program is not part of the model.) *)
Definition NewProgram (spec : ProgramSpec) : M (option Program * option error) :=
  if (length (Instructions spec) =? 0)%nat then
    ret (None, Some (ErrMsg "instructions cannot be empty"))
  else
    includeName <- haveObjName_Result ;;
    '(attr, err) <- lift (convertProgramSpec spec includeName) ;;
    match attr, err with
    | _, Some e => ret (None, Some e)
    | None, None => lift (Panics "nil pointer dereference")
    | Some attr, None =>
      '(attr, (fd, err)) <- bpfProgLoad attr ;;
      match err with
      | None =>
        ret (Some {| fd := uint32 fd; name := Name spec;
                     abi := {| abi_Type := Type_ spec |} |}, None)
      | Some _ =>
        (* Something went wrong, re-run with the verifier enabled. *)
        let logs := make_bytes DefaultVerifierLogSize in
        logs_ptr <- lift (ptr_to_first logs) ;;
        let attr := with_log attr 1 (uint32 (Z.of_nat (length logs))) logs_ptr in
        '(attr, (_, nerr)) <- bpfProgLoad attr ;;
        (* the slice [logs] and [attr.logBuf] are the same memory *)
        let logs := default [] (logBuf attr) in
        if is_errno (Cause nerr) ENOSPC then
          ret (None, Wrap err "no debug since LogSize too small")
        else
          ret (None, Some (ErrLoad nerr (convertCString logs)))
      end
    end.

End Host.

(** The verifier log that an error carries, if it carries one. *)
Definition verifier_log (e : error) : option string :=
  match e with
  | ErrLoad _ log => Some log
  | _ => None
  end.

(** The attribute of the second load: log level 1 and a fresh buffer of
    [DefaultVerifierLogSize] bytes. *)
Definition logging_attr (attr : bpfProgLoadAttr) : bpfProgLoadAttr :=
  with_log attr 1 DefaultVerifierLogSize (Some (make_bytes DefaultVerifierLogSize)).

(** A small program: [r0 = 0; exit]. *)
Definition spec_return0 : ProgramSpec :=
  {| Name := "";
     Type_ := SocketFilter;
     Instructions := [asm.LoadImm64 asm.R0 0; asm.Return];
     License := "MIT";
     KernelVersion := 0 |}.

(** Answers of the kernel used in the examples below. *)
Definition answer_interrupted : sysret :=
  {| r1 := 2 ^ 64 - 1; errNo := EAGAIN; klog := [] |}.
Definition answer_loaded : sysret :=
  {| r1 := 7; errNo := 0; klog := [] |}.
Definition answer_rejected : sysret :=
  {| r1 := 2 ^ 64 - 1; errNo := EINVAL; klog := [] |}.
Definition answer_rejected_with_log : sysret :=
  {| r1 := 2 ^ 64 - 1; errNo := EINVAL;
     klog := bytes_of_string "R0 !read_ok" ++ [x00] |}.
Definition answer_log_too_small : sysret :=
  {| r1 := 2 ^ 64 - 1; errNo := ENOSPC; klog := bytes_of_string "R0" |}.

(** The attribute that [convertProgramSpec] builds for [spec_return0] on a
    little-endian host, without a name. *)
Definition attr_return0 : bpfProgLoadAttr :=
  {| progType := SocketFilter;
     insCount := 3;
     instructions :=
       Some [x18; x00; x00; x00; x00; x00; x00; x00;
             x00; x00; x00; x00; x00; x00; x00; x00;
             x95; x00; x00; x00; x00; x00; x00; x00];
     license := Some (bytes_of_string "MIT");
     logLevel := 0; logSize := 0; logBuf := None;
     kernelVersion := 0; progFlags := 0;
     progName := bpfObjName_zero;
     progIfIndex := 0; expectedAttachType := 0 |}.

(** A process that has run the feature test before and whose kernel gives
    the answers [script]. *)
Definition world_of (script : list sysret) : World :=
  {| kernel := script; calls := []; haveObjName_memo := Some false |}.


(** A specification without instructions. *)
Definition spec_empty : ProgramSpec :=
  {| Name := "empty";
     Type_ := XDP;
     Instructions := [];
     License := "MIT";
     KernelVersion := 0 |}.

(** The log buffer at the end of the second load. *)
Definition final_logs (attr : bpfProgLoadAttr) (answers : list sysret) : list byte :=
  default [] (logBuf (after_writes (logging_attr attr) answers)).

(** ** The editor: linking sub-programs *)

Module editor.
Import asm.

(** Modelled from the spec: a sub-program of the library runs from the
    instruction that bears the symbol through the first exit after it. *)
Fixpoint through_exit (insns : Instructions) : Instructions :=
  match insns with
  | [] => []
  | ins :: rest => if isExit ins then [ins] else ins :: through_exit rest
  end.

Fixpoint subprogram (library : Instructions) (symbol : string)
  : option Instructions :=
  match library with
  | [] => None
  | ins :: rest =>
    if String.eqb (Symbol ins) symbol then Some (through_exit library)
    else subprogram rest symbol
  end.

(** A call site: a call instruction with a reference label. *)
Definition call_site (ins : Instruction) : bool :=
  isCall ins && negb (String.eqb (Reference ins) "").

(** The call at wire slot [k], resolved to the sub-program whose first
    slot is wire slot [m]: its immediate becomes the signed distance from
    the slot after the call to [m].  A resolved call no longer carries
    its reference label (a call either is resolved or carries an
    unresolved label). *)
Definition resolve (ins : Instruction) (k m : Z) : Instruction :=
  {| OpCode := OpCode ins; Dst := Dst ins; Src := Src ins;
     Offset := Offset ins; Constant := m - (k + 1);
     Reference := ""; Symbol := Symbol ins |}.

(** What the scan has appended so far: the wire slot at which the copy of
    each symbol starts, and the copies, in the order of first
    reference. *)
Record linked : Type := {
  offsets : gmap string Z;
  appended : Instructions
}.

(** One left-to-right scan of the primary sequence.  [base] is the wire
    length of the primary sequence, where the appended copies start;
    [k] is the wire slot of the head of [insns]. *)
Fixpoint scan (library : Instructions) (base : Z) (k : Z)
         (insns : Instructions) (st : linked) : Instructions * linked :=
  match insns with
  | [] => ([], st)
  | ins :: rest =>
    let next := k + slots ins in
    if call_site ins then
      match offsets st !! Reference ins with
      | Some m =>
        (* the symbol has a copy already: share it *)
        let '(out, st') := scan library base next rest st in
        (resolve ins k m :: out, st')
      | None =>
        match subprogram library (Reference ins) with
        | None =>
          (* not a symbol of the library: left untouched *)
          let '(out, st') := scan library base next rest st in
          (ins :: out, st')
        | Some sub =>
          let m := base + wire_length (appended st) in
          let st1 := {| offsets := <[Reference ins := m]> (offsets st);
                        appended := appended st ++ sub |} in
          let '(out, st') := scan library base next rest st1 in
          (resolve ins k m :: out, st')
        end
      end
    else
      let '(out, st') := scan library base next rest st in
      (ins :: out, st')
  end.

Definition nothing_linked : linked := {| offsets := ∅; appended := [] |}.

(** Modelled from the spec: the editor's link operation, whose source is
    missing.  For each call of the primary sequence
    whose reference label is the symbol of an instruction of the library,
    a copy of that sub-program is appended to the primary sequence (one
    copy per symbol, in the order of first reference) and the call's
    immediate is patched; other references are left untouched.  The
    failures of the operation (the cycle check, strict linking) are
    outside this model. *)
Definition Link (primary library : Instructions) : Instructions :=
  let '(out, st) := scan library (wire_length primary) 0 primary nothing_linked in
  out ++ appended st.

(** The wire slot recorded for each symbol that [Link] appended. *)
Definition Link_offsets (primary library : Instructions) : gmap string Z :=
  offsets (scan library (wire_length primary) 0 primary nothing_linked).2.



End editor.

(** The sequences of [TestEditorLink]. *)
Definition link_primary : asm.Instructions :=
  [asm.Ref (asm.CallImm asm.R0 asm.R1 (-1)) "my_func"; asm.Return].
Definition link_library : asm.Instructions :=
  [asm.Sym (asm.LoadImm64 asm.R0 1337) "my_func"; asm.Return].

(** ** The loader: map specifications *)

(** [MapSpec]: type, key size, value size, maximum entries, flags and, for
    a map of maps, the specification of the inner map. *)
#[warnings="-register-all"]
Inductive MapSpec : Type :=
  mkMapSpec (spec_Type : MapType)
            (KeySize ValueSize MaxEntries Flags : Z)
            (InnerMap : option MapSpec).

Definition InnerMap (spec : MapSpec) : option MapSpec :=
  match spec with mkMapSpec _ _ _ _ _ inner => inner end.
Definition spec_Type (spec : MapSpec) : MapType :=
  match spec with mkMapSpec t _ _ _ _ _ => t end.

Module loader.






(** A symbol of the symbol table that points into the section [maps]:
    its name and its value, the offset of its record. *)
Definition symbol : Type := string * Z.








End loader.





(** ** Results that may panic, in sequence *)

#[global] Instance outcome_ret : MRet outcome := fun A a => Returns a.
#[global] Instance outcome_bind : MBind outcome :=
  fun A B f o =>
    match o with
    | Returns a => f a
    | Panics msg => Panics msg
    | Blocks => Blocks
    end.

(** [len(b)] *)
Definition len {A} (b : list A) : Z := Z.of_nat (length b).

(** The slice expression [b[lo:hi]] of a slice whose capacity is its
    length: a panic unless [0 <= lo <= hi <= len(b)]. *)
Definition slice {A} (b : list A) (lo hi : Z) : option (list A) :=
  if (0 <=? lo) && (lo <=? hi) && (hi <=? len b)
  then Some (take (Z.to_nat (hi - lo)) (drop (Z.to_nat lo) b))
  else None.

(** ** Package io, as far as the perf reader uses it *)

Module io.

Definition EOF : error := ErrMsg "EOF".
Definition ErrUnexpectedEOF : error := ErrMsg "unexpected EOF".
Definition ErrShortBuffer : error := ErrMsg "short buffer".

(** [err == io.EOF] *)
Definition is_EOF (err : option error) : bool :=
  match err with
  | Some (ErrMsg msg) => String.eqb msg "EOF"
  | _ => false
  end.

(** The interface [io.Reader]: [Read r p] gives the number of bytes read,
    the error, the contents of [p] after the call and the reader after the
    call. *)
Class Reader (R : Type) : Type :=
  Read : R -> list byte -> outcome (Z * option error * list byte * R).

(** The loop [for n < min && err == nil] of [io.ReadAtLeast], for at most
    [rounds] rounds. *)
Fixpoint ReadAtLeast_loop {R} `{Reader R} (rounds : nat) (r : R)
         (buf : list byte) (min n : Z) (err : option error)
  : outcome (Z * option error * list byte * R) :=
  match err with
  | Some _ => Returns (n, err, buf, r)
  | None =>
    if n <? min then
      match rounds with
      | O => Blocks
      | S rounds' =>
        (* buf[n:] *)
        if (n <? 0) || (len buf <? n) then Panics "slice bounds out of range"
        else
          '(nn, err, p, r) ← Read r (drop (Z.to_nat n) buf);
          ReadAtLeast_loop rounds' r (take (Z.to_nat n) buf ++ p) min (n + nn) err
      end
    else Returns (n, None, buf, r)
  end.

Definition ReadAtLeast {R} `{Reader R} (rounds : nat) (r : R)
           (buf : list byte) (min : Z)
  : outcome (Z * option error * list byte * R) :=
  if len buf <? min then Returns (0, Some ErrShortBuffer, buf, r)
  else
    '(n, err, buf, r) ← ReadAtLeast_loop rounds r buf min 0 None;
    let err :=
      if n >=? min then None
      else if (n >? 0) && is_EOF err then Some ErrUnexpectedEOF
      else err in
    Returns (n, err, buf, r).

(** [io.ReadFull] *)
Definition ReadFull {R} `{Reader R} (rounds : nat) (r : R) (buf : list byte)
  : outcome (Z * option error * list byte * R) :=
  ReadAtLeast rounds r buf (len buf).

End io.

Module binary.

(** [binary.Read] of a value of [size] bytes: the error and the bytes read,
    which the caller decodes in its byte order (nothing is decoded when
    there is an error). *)
Definition Read {R} `{io.Reader R} (rounds : nat) (r : R) (size : nat)
  : outcome (option error * list byte * R) :=
  '(_, err, bs, r) ← io.ReadFull rounds r (replicate size x00);
  Returns (err, bs, r).

End binary.

(** ** The perf event ring *)

(** The fields of [perfEventMeta] after its padding. *)
Record perfEventMeta : Type := {
  dataHead : Z;    (* head in the data section *)
  dataTail : Z;    (* user-space written tail *)
  dataOffset : Z;  (* where the buffer starts *)
  dataSize : Z     (* data buffer size *)
}.

(** [ringReader].  [ring] holds the bytes of the slice up to its capacity:
    [Read] uses nothing else of it. *)
Record ringReader : Type := {
  rr_meta : perfEventMeta;
  head : Z;
  tail : Z;
  mask : Z;
  ring : list byte
}.

Definition newRingReader (meta : perfEventMeta) (ring : list byte) : ringReader :=
  {| rr_meta := meta;
     head := dataHead meta;
     tail := dataTail meta;
     (* cap is always a power of two *)
     mask := uint64 (len ring - 1);
     ring := ring |}.

(** [Close]: commit the new tail.  The result is the metadata page after
    the store. *)
Definition ringReader_Close (rb : ringReader) : perfEventMeta :=
  {| dataHead := dataHead (rr_meta rb);
     dataTail := tail rb;
     dataOffset := dataOffset (rr_meta rb);
     dataSize := dataSize (rr_meta rb) |}.

Definition ringReader_Read (rb : ringReader) (p : list byte)
  : outcome (Z * option error * list byte * ringReader) :=
  let start := int64 (Z.land (tail rb) (mask rb)) in
  let n := len p in
  (* Truncate if the read wraps in the ring buffer *)
  let remainder := int64 (len (ring rb) - start) in
  let n := if n >? remainder then remainder else n in
  (* Truncate if there isn't enough data *)
  let remainder := int64 (uint64 (head rb - tail rb)) in
  let n := if n >? remainder then remainder else n in
  match slice (ring rb) start (int64 (start + n)) with
  | None => Panics "slice bounds out of range"
  | Some s =>
    let p := copy p s in
    let rb := {| rr_meta := rr_meta rb; head := head rb;
                 tail := uint64 (tail rb + uint64 n);
                 mask := mask rb; ring := ring rb |} in
    if tail rb =? head rb then Returns (n, Some io.EOF, p, rb)
    else Returns (n, None, p, rb)
  end.

#[global] Instance ringReader_Reader : io.Reader ringReader := ringReader_Read.

(** The byte of the ring at position [pos] of the stream. *)
Definition ring_at (ring : list byte) (pos : Z) : byte :=
  default x00 (ring !! Z.to_nat (pos mod len ring)).

(** The bytes between tail and head, in the order of the stream. *)
Definition unread (rb : ringReader) : list byte :=
  (fun i => ring_at (ring rb) (tail rb + Z.of_nat i))
    <$> seq 0 (Z.to_nat (head rb - tail rb)).

(** A reader as [newRingReader] makes it over a ring whose capacity is a
    power of two (and an [int]), with the tail not past the head and less
    than [2^63] unread bytes. *)
Record ring_ok (rb : ringReader) : Prop := {
  ring_cap : exists k, 0 <= k /\ len (ring rb) = 2 ^ k;
  ring_cap_int : len (ring rb) < 2 ^ 63;
  ring_mask : mask rb = len (ring rb) - 1;
  ring_tail : 0 <= tail rb <= head rb;
  ring_head : head rb < 2 ^ 64;
  ring_unread : head rb - tail rb < 2 ^ 63
}.

(** The reader holds the unread bytes [s]. *)
Definition holds (rb : ringReader) (s : list byte) : Prop :=
  ring_ok rb /\ unread rb = s.

(** Where the tail stands in the ring. *)
Definition ring_start (rb : ringReader) : Z := tail rb mod len (ring rb).

(** The number of bytes that one [Read] into [p] takes: what fits into
    [p], into the rest of the ring before its end, and into the unread
    data. *)
Definition taken (rb : ringReader) (p : list byte) : Z :=
  Z.min (len p) (Z.min (len (ring rb) - ring_start rb) (head rb - tail rb)).

(** The reader with its tail [n] bytes further. *)
Definition advanced (rb : ringReader) (n : Z) : ringReader :=
  {| rr_meta := rr_meta rb; head := head rb; tail := tail rb + n;
     mask := mask rb; ring := ring rb |}.

(** ** Reading records from the perf event ring *)

(** [PerfSample] is read from the kernel by PerfReader. *)
Record PerfSample : Type := { Data : list byte }.

Record perfEventHeader : Type := {
  hdr_Type : Z;
  hdr_Misc : Z;
  hdr_Size : Z
}.

Definition perfRecordLost : Z := 2.
Definition perfRecordSample : Z := 9.

Section PerfRecords.

(** The byte order of the host. *)
Variable nativeEndian : asm.ByteOrder.

(** The reader [rd io.Reader]. *)
Context {R : Type} `{io.Reader R}.

(** A bound on the rounds of each loop. *)
Variable rounds : nat.

Definition decode_header (bs : list byte) : perfEventHeader :=
  {| hdr_Type := asm.get_uint nativeEndian (take 4 bs);
     hdr_Misc := asm.get_uint nativeEndian (take 2 (drop 4 bs));
     hdr_Size := asm.get_uint nativeEndian (take 2 (drop 6 bs)) |}.

Definition readLostRecords (rd : R) : outcome (Z * option error * R) :=
  (* var lostHeader struct { ID uint64; Lost uint64 } *)
  '(err, bs, rd) ← binary.Read rounds rd 16;
  match err with
  | Some _ => Returns (0, Wrap err "can't read lost records header", rd)
  | None => Returns (asm.get_uint nativeEndian (take 8 (drop 8 bs)), None, rd)
  end.

Definition readSample (rd : R) : outcome (option PerfSample * option error * R) :=
  '(err, bs, rd) ← binary.Read rounds rd 4;
  match err with
  | Some _ => Returns (None, Wrap err "can't read sample size", rd)
  | None =>
    let size := asm.get_uint nativeEndian bs in
    let data := make_bytes size in
    '(_, err, data, rd) ← io.ReadFull rounds rd data;
    Returns (Some {| Data := data |}, Wrap err "can't read sample", rd)
  end.

Definition readRecord (rd : R)
  : outcome (option PerfSample * Z * option error * R) :=
  '(err, bs, rd) ← binary.Read rounds rd 8;
  if io.is_EOF err then Returns (None, 0, None, rd)
  else
    match err with
    | Some _ => Returns (None, 0, Wrap err "can't read event header", rd)
    | None =>
      let header := decode_header bs in
      if hdr_Type header =? perfRecordLost then
        '(lost, err, rd) ← readLostRecords rd;
        match err with
        | Some _ => Returns (None, 0, err, rd)
        | None => Returns (None, lost, None, rd)
        end
      else if hdr_Type header =? perfRecordSample then
        '(sample, err, rd) ← readSample rd;
        match err with
        | Some _ => Returns (None, 0, err, rd)
        | None => Returns (sample, 0, None, rd)
        end
      else
        Returns (None, 0,
                 Some (ErrMsg ("unknown event type " ++ pretty (hdr_Type header))),
                 rd)
    end.

End PerfRecords.

Section FlushRing.

Variable nativeEndian : asm.ByteOrder.
Variable rounds : nat.

(** The loop of [flushRing].  [ready] stands for the two channels: for each
    [select] that the loop runs, in order, it tells which case ran, [true]
    for the send on [samples] and [false] for the receive on [stopWriter];
    when it is used up no case is ready and the loop waits.  [sent] are
    the samples sent so far. *)
Fixpoint flushRing_loop (n : nat) (rd : ringReader) (totalLost : Z)
         (ready : list bool) (sent : list PerfSample)
  : outcome (option error * ringReader * Z * list bool * list PerfSample) :=
  match n with
  | O => Blocks
  | S n' =>
    '(sample, lost, err, rd) ← readRecord nativeEndian rounds rd;
    match err with
    | Some _ => Returns (err, rd, totalLost, ready, sent)
    | None =>
      if lost >? 0 then
        flushRing_loop n' rd (uint64 (totalLost + lost)) ready sent
      else
        match sample with
        | None => Returns (None, rd, totalLost, ready, sent)
        | Some sample =>
          match ready with
          | [] => Blocks
          | true :: ready => flushRing_loop n' rd totalLost ready (sent ++ [sample])
          | false :: ready =>
            (* this [break] leaves the [select], not the loop *)
            flushRing_loop n' rd totalLost ready sent
          end
        end
    end
  end.

(** What [flushRing] leaves behind: its error, the metadata page of the
    ring, the counter [pr.lostSamples], the cases still to come and the
    samples sent. *)
Record flushed : Type := {
  fl_err : option error;
  fl_meta : perfEventMeta;
  fl_lostSamples : Z;
  fl_ready : list bool;
  fl_sent : list PerfSample
}.

(** [flushRing] on the ring with metadata [meta] and bytes [ring], for a
    reader whose counter is [lostSamples]. *)
Definition flushRing (lostSamples : Z) (meta : perfEventMeta) (ring : list byte)
           (ready : list bool) : outcome flushed :=
  let rd := newRingReader meta ring in
  '(err, rd, totalLost, ready, sent) ← flushRing_loop rounds rd 0 ready [];
  (* defer rd.Close() *)
  let meta := ringReader_Close rd in
  match err with
  | Some _ =>
    Returns {| fl_err := err; fl_meta := meta; fl_lostSamples := lostSamples;
               fl_ready := ready; fl_sent := sent |}
  | None =>
    let lostSamples :=
      if totalLost >? 0 then uint64 (lostSamples + totalLost) else lostSamples in
    Returns {| fl_err := None; fl_meta := meta; fl_lostSamples := lostSamples;
               fl_ready := ready; fl_sent := sent |}
  end.

End FlushRing.

(** *** Records as the kernel writes them *)

Definition header_bytes (bo : asm.ByteOrder) (type misc size : Z) : list byte :=
  asm.put_uint bo 4 type ++ asm.put_uint bo 2 misc ++ asm.put_uint bo 2 size.

Inductive perf_record : Type :=
| LostRecord (misc size id lost : Z)
| SampleRecord (misc size : Z) (data : list byte).

Definition record_bytes (bo : asm.ByteOrder) (r : perf_record) : list byte :=
  match r with
  | LostRecord misc size id lost =>
    header_bytes bo perfRecordLost misc size
      ++ asm.put_uint bo 8 id ++ asm.put_uint bo 8 lost
  | SampleRecord misc size data =>
    header_bytes bo perfRecordSample misc size
      ++ asm.put_uint bo 4 (len data) ++ data
  end.

(** A record that [readRecord] reads whole: a lost record with a count
    from 1 to [2^64 - 1], or a sample of less than [2^32] bytes. *)
Definition record_ok (r : perf_record) : Prop :=
  match r with
  | LostRecord _ _ _ lost => 0 < lost < 2 ^ 64
  | SampleRecord _ _ data => len data < 2 ^ 32
  end.

Definition lost_of (r : perf_record) : Z :=
  match r with
  | LostRecord _ _ _ lost => lost
  | SampleRecord _ _ _ => 0
  end.

(** The samples of the records that are sent, when the cases of the
    [select]s are [ready]. *)
Fixpoint samples_sent (rs : list perf_record) (ready : list bool) : list PerfSample :=
  match rs with
  | [] => []
  | LostRecord _ _ _ _ :: rs' => samples_sent rs' ready
  | SampleRecord _ _ data :: rs' =>
    match ready with
    | true :: ready' => {| Data := data |} :: samples_sent rs' ready'
    | false :: ready' => samples_sent rs' ready'
    | [] => []
    end
  end.

Fixpoint sample_count (rs : list perf_record) : nat :=
  match rs with
  | [] => 0
  | LostRecord _ _ _ _ :: rs' => sample_count rs'
  | SampleRecord _ _ _ :: rs' => S (sample_count rs')
  end.

(** The bytes of a sequence of records, and the sum of their lost counts. *)
Fixpoint stream (bo : asm.ByteOrder) (rs : list perf_record) : list byte :=
  match rs with
  | [] => []
  | r :: rs' => record_bytes bo r ++ stream bo rs'
  end.

Fixpoint total_lost (rs : list perf_record) : Z :=
  match rs with
  | [] => 0
  | r :: rs' => lost_of r + total_lost rs'
  end.

(** The samples of the records, in order. *)
Fixpoint samples_of (rs : list perf_record) : list PerfSample :=
  match rs with
  | [] => []
  | LostRecord _ _ _ _ :: rs' => samples_of rs'
  | SampleRecord _ _ data :: rs' => {| Data := data |} :: samples_of rs'
  end.

(** The metadata page with the tail [t] stored into it. *)
Definition with_dataTail (meta : perfEventMeta) (t : Z) : perfEventMeta :=
  {| dataHead := dataHead meta; dataTail := t;
     dataOffset := dataOffset meta; dataSize := dataSize meta |}.

(** *** A ring of 64 bytes that holds two records across its end *)

Definition example_records : list perf_record :=
  [LostRecord 0 24 1 3; SampleRecord 0 16 [x01; x02; x03; x04]].

Definition example_stream : list byte := stream asm.LittleEndian example_records.

(** The stream starts at position 48 of the ring: its first 16 bytes stand
    at the end of the ring and the other 24 at its start. *)
Definition example_ring : list byte :=
  drop 16 example_stream ++ replicate 24 x00 ++ take 16 example_stream.

Definition example_meta : perfEventMeta :=
  {| dataHead := 88; dataTail := 48; dataOffset := 4096; dataSize := 64 |}.

(** The ring with other data between tail and head. *)
Definition ring_with (s : list byte) : list byte :=
  drop 16 (s ++ replicate (64 - length s) x00) ++ take 16 (s ++ replicate (64 - length s) x00).

Definition meta_with (s : list byte) : perfEventMeta :=
  {| dataHead := 48 + len s; dataTail := 48; dataOffset := 4096; dataSize := 64 |}.

(** What [readRecord] gives for a record: its sample, if it is one. *)
Definition sample_of (r : perf_record) : option PerfSample :=
  match r with
  | LostRecord _ _ _ _ => None
  | SampleRecord _ _ data => Some {| Data := data |}
  end.

(** A record whose fields fit their widths: a lost count below [2^64], a
    sample of less than [2^32] bytes. *)
Definition record_fits (r : perf_record) : Prop :=
  match r with
  | LostRecord _ _ _ lost => 0 <= lost < 2 ^ 64
  | SampleRecord _ _ data => len data < 2 ^ 32
  end.

(** More streams for the ring of 64 bytes: a lost record with the count
    zero between two records, and a header of type 7 after a lost
    record. *)
Definition stream_zero_lost : list byte :=
  stream asm.LittleEndian [LostRecord 0 24 1 3]
    ++ record_bytes asm.LittleEndian (LostRecord 0 24 1 0)
    ++ record_bytes asm.LittleEndian (SampleRecord 0 16 [x01; x02; x03; x04]).

Definition stream_unknown : list byte :=
  stream asm.LittleEndian [LostRecord 0 24 1 3]
    ++ header_bytes asm.LittleEndian 7 0 8
    ++ record_bytes asm.LittleEndian (SampleRecord 0 16 [x01; x02; x03; x04]).

(** A sample record that announces 8 bytes and has 2. *)
Definition stream_short_sample : list byte :=
  header_bytes asm.LittleEndian perfRecordSample 0 20
    ++ asm.put_uint asm.LittleEndian 4 8 ++ [x01; x02].

(** ** Values for the examples of the further properties *)

(** [spec] with another kernel version. *)
Definition with_KernelVersion (spec : ProgramSpec) (v : Z) : ProgramSpec :=
  {| Name := Name spec; Type_ := Type_ spec; Instructions := Instructions spec;
     License := License spec; KernelVersion := v |}.

(** [r0 = 0; exit] under a name with a dash, and without a license. *)
Definition spec_bad_name : ProgramSpec :=
  {| Name := "my-prog";
     Type_ := SocketFilter;
     Instructions := [asm.LoadImm64 asm.R0 0; asm.Return];
     License := "MIT";
     KernelVersion := 0 |}.

Definition spec_no_license : ProgramSpec :=
  {| Name := "my-prog";
     Type_ := SocketFilter;
     Instructions := [asm.LoadImm64 asm.R0 0; asm.Return];
     License := "";
     KernelVersion := 0 |}.

(** The map that the feature test [haveObjName] creates. *)
Definition haveObjName_attr : bpfMapCreateAttr :=
  {| mapType := Array; keySize := 4; valueSize := 4; maxEntries := 1;
     flags := 0; innerMapFd := 0; numaNode := 0;
     mapName := bytes_of_string "feature_test" ++ [x00; x00; x00; x00] |}.

(** ** prog.go: running a program in the kernel *)

(** Number of bytes to pad the output buffer for BPF_PROG_TEST_RUN. *)
Definition outputPad : Z := 256 + 2.

Definition MaxUint32 : Z := 2 ^ 32 - 1.

Definition ErrNotSupported : error := ErrMsg "ebpf: not supported by kernel".

Record bpfProgTestRunAttr : Type := {
  tr_fd : Z;
  tr_retval : Z;
  tr_dataSizeIn : Z;
  tr_dataSizeOut : Z;
  tr_dataIn : syscallPtr;
  tr_dataOut : syscallPtr;
  tr_repeat : Z;
  tr_duration : Z
}.

(** What the kernel answers to one test run: the result register, the
    error number, and what it stores into the attribute (return value,
    size of the output, duration) and into the output buffer. *)
Record testret : Type := {
  t_r1 : Z;
  t_errNo : Errno;
  t_retval : Z;
  t_dataSizeOut : Z;
  t_duration : Z;
  t_data : list byte
}.

(** The process and the kernel, with the test runs: [base] is the state
    that loading programs works on, [test_kernel] the answers of the
    kernel to test runs, one per call, [test_calls] the test runs made so
    far, and [noProgTestRun_memo] the memoized result of the feature test
    [noProgTestRun]. *)
Record TestWorld : Type := {
  base : World;
  test_kernel : list testret;
  test_calls : list bpfProgTestRunAttr;
  noProgTestRun_memo : option bool
}.

Definition TM (A : Type) : Type := TestWorld -> outcome (A * TestWorld).

#[global] Instance TM_ret : MRet TM := fun A a w => Returns (a, w).
#[global] Instance TM_bind : MBind TM :=
  fun A B k c w =>
    match c w with
    | Returns (a, w') => k a w'
    | Panics msg => Panics msg
    | Blocks => Blocks
    end.

(** A computation that does not touch the kernel. *)
Definition tlift {A} (o : outcome A) : TM A :=
  fun w =>
    match o with
    | Returns a => Returns (a, w)
    | Panics msg => Panics msg
    | Blocks => Blocks
    end.

(** Code that works on the state of loading. *)
Definition on_base {A} (c : M A) : TM A :=
  fun w =>
    match c (base w) with
    | Returns (a, b) =>
      Returns (a, {| base := b; test_kernel := test_kernel w;
                     test_calls := test_calls w;
                     noProgTestRun_memo := noProgTestRun_memo w |})
    | Panics msg => Panics msg
    | Blocks => Blocks
    end.

(** The memory behind the attribute of a test run after the kernel
    answered [r].  The kernel stores 32-bit fields; what it stores into
    the output buffer is kept as far as the buffer goes. *)
Definition test_writes (r : testret) (attr : bpfProgTestRunAttr)
  : bpfProgTestRunAttr :=
  {| tr_fd := tr_fd attr;
     tr_retval := uint32 (t_retval r);
     tr_dataSizeIn := tr_dataSizeIn attr;
     tr_dataSizeOut := uint32 (t_dataSizeOut r);
     tr_dataIn := tr_dataIn attr;
     tr_dataOut :=
       match tr_dataOut attr with
       | Some buf => Some (copy buf (t_data r))
       | None => None
       end;
     tr_repeat := tr_repeat attr;
     tr_duration := uint32 (t_duration r) |}.

(** [bpfCall(_ProgTestRun, unsafe.Pointer(&attr), unsafe.Sizeof(attr))] *)
Definition bpfCall_ProgTestRun (attr : bpfProgTestRunAttr)
  : TM (bpfProgTestRunAttr * (Z * option error)) :=
  fun w =>
    match test_kernel w with
    | [] => Blocks
    | r :: rest =>
      Returns ((test_writes r attr, (t_r1 r, errno_error (t_errNo r))),
               {| base := base w; test_kernel := rest;
                  test_calls := test_calls w ++ [attr];
                  noProgTestRun_memo := noProgTestRun_memo w |})
    end.

(** [Close] unloads the program from the kernel.  (The finalizer is not
    part of the model.) *)
Definition Program_Close (bpf : Program) : M unit := syscall_Close (fd bpf).

Section TestRun.

(** The byte order of the host. *)
Variable nativeEndian : asm.ByteOrder.

(** The function of the feature test [noProgTestRun]. *)
Definition noProgTestRun_Fn : TM bool :=
  '(prog, err) ← on_base (NewProgram nativeEndian
                            {| Name := "";
                               Type_ := SocketFilter;
                               Instructions := [asm.LoadImm64 asm.R0 0; asm.Return];
                               License := "MIT";
                               KernelVersion := 0 |});
  match prog, err with
  | _, Some _ =>
    (* This may be because we lack sufficient permissions, etc. *)
    mret false
  | None, None => tlift (Panics "nil pointer dereference")
  | Some prog, None =>
    (* defer prog.Close() *)
    (* Programs require at least 14 bytes input *)
    let in_ := make_bytes 14 in
    in_ptr ← tlift (ptr_to_first in_);
    let attr :=
      {| tr_fd := fd prog; tr_retval := 0;
         tr_dataSizeIn := uint32 (len in_); tr_dataSizeOut := 0;
         tr_dataIn := in_ptr; tr_dataOut := None;
         tr_repeat := 0; tr_duration := 0 |} in
    '(_, (_, err)) ← bpfCall_ProgTestRun attr;
    let result := is_errno (Cause err) EINVAL in
    _ ← on_base (Program_Close prog);
    mret result
  end.

(** Modelled from the spec: [featureTest.Result], whose source is
    missing: feature tests are memoized per process, a lazily
    initialized value behind a one-shot initializer. *)
Definition noProgTestRun_Result : TM bool :=
  fun w =>
    match noProgTestRun_memo w with
    | Some b => Returns (b, w)
    | None =>
      match noProgTestRun_Fn w with
      | Returns (b, w') =>
        Returns (b, {| base := base w'; test_kernel := test_kernel w';
                       test_calls := test_calls w';
                       noProgTestRun_memo := Some b |})
      | Panics msg => Panics msg
      | Blocks => Blocks
      end
    end.

(** [testRun]: the return value of the program, its output, the time
    taken, and the error. *)
Definition testRun (bpf : Program) (in_ : list byte) (repeat : Z)
  : TM (Z * option (list byte) * Z * option error) :=
  if uint64 repeat >? MaxUint32 then
    mret (0, None, 0, Some (ErrMsg "repeat is too high"))
  else if len in_ =? 0 then
    mret (0, None, 0, Some (ErrMsg "missing input"))
  else if uint64 (len in_) >? MaxUint32 then
    mret (0, None, 0, Some (ErrMsg "input is too long"))
  else
    notSupported ← noProgTestRun_Result;
    if notSupported : bool then
      mret (0, None, 0, Some ErrNotSupported)
    else
      (* Older kernels ignore the dataSizeOut argument when copying to
         user space: allocate an output buffer which we hope will always
         be large enough, and panic if the kernel wrote past the end of
         the allocation. *)
      let out := make_bytes (len in_ + outputPad) in
      in_ptr ← tlift (ptr_to_first in_);
      out_ptr ← tlift (ptr_to_first out);
      let attr :=
        {| tr_fd := fd bpf; tr_retval := 0;
           tr_dataSizeIn := uint32 (len in_);
           tr_dataSizeOut := uint32 (len out);
           tr_dataIn := in_ptr; tr_dataOut := out_ptr;
           tr_repeat := uint32 repeat; tr_duration := 0 |} in
      '(attr, (_, err)) ← bpfCall_ProgTestRun attr;
      match err with
      | Some _ => mret (0, None, 0, Wrap err "can't run test")
      | None =>
        (* the slice [out] and [attr.dataOut] are the same memory *)
        let out := default [] (tr_dataOut attr) in
        if tr_dataSizeOut attr >? len out then
          tlift (Panics "kernel wrote past end of output buffer")
        else
          match slice out 0 (tr_dataSizeOut attr) with
          | None => tlift (Panics "slice bounds out of range")
          | Some out =>
            let total := int64 (tr_duration attr) in
            mret (tr_retval attr, Some out, total, None)
          end
      end.

(** [Test] runs the Program in the kernel with the given input and returns
    the value returned by the eBPF program. *)
Definition Program_Test (bpf : Program) (in_ : list byte)
  : TM (Z * option (list byte) * option error) :=
  '(ret, out, _, err) ← testRun bpf in_ 1;
  mret (ret, out, err).

(** [Benchmark] runs the Program with the given input for a number of
    times; the returned value is the return value of the last execution
    of the program. *)
Definition Program_Benchmark (bpf : Program) (in_ : list byte) (repeat : Z)
  : TM (Z * Z * option error) :=
  '(ret, _, total, err) ← testRun bpf in_ repeat;
  mret (ret, total, err).

End TestRun.

(** A process that knows that the kernel runs tests and whose kernel
    answers the test runs with [script]. *)
Definition test_world (script : list testret) : TestWorld :=
  {| base := world_of []; test_kernel := script; test_calls := [];
     noProgTestRun_memo := Some false |}.

Definition prog7 : Program :=
  {| fd := 7; name := ""; abi := {| abi_Type := SocketFilter |} |}.

(** The program returned 2 after 150 ns and left four bytes. *)
Definition answer_ran : testret :=
  {| t_r1 := 0; t_errNo := 0; t_retval := 2; t_dataSizeOut := 4;
     t_duration := 150; t_data := [x0a; x0b; x0c; x0d; x0e] |}.

(** ** syscalls.go: perf events, event descriptors and epoll *)

(** Error numbers of Linux that [perfEventOpen] tells apart. *)
Definition EPERM : Errno := 1.
Definition ENOENT : Errno := 2.
Definition ESRCH : Errno := 3.
Definition E2BIG : Errno := 7.
Definition EACCES : Errno := 13.
Definition EFAULT : Errno := 14.
Definition EBUSY : Errno := 16.
Definition ENODEV : Errno := 19.
Definition EMFILE : Errno := 24.
Definition ENOSYS : Errno := 38.
Definition EOVERFLOW : Errno := 75.
Definition EBADFD : Errno := 77.
Definition EOPNOTSUPP : Errno := 95.

(** Flags of Linux. *)
Definition O_NONBLOCK : Z := 0x800.
Definition O_CLOEXEC : Z := 0x80000.
Definition EPOLL_CLOEXEC : Z := 0x80000.
Definition EPOLLIN : Z := 0x1.
Definition EPOLL_CTL_ADD : Z := 0x1.

Record perfEventAttr : Type := {
  perfType : Z;
  pe_size : Z;
  config : Z;
  samplePeriod : Z;
  sampleType : Z;
  readFormat : Z;
  pe_flags : Z;
  wakeupEventsOrWatermark : Z;
  bpType : Z;
  bpAddr : Z;
  bpLen : Z;
  sampleRegsUser : Z;
  sampleStackUser : Z;
  clockID : Z;
  sampleRegsIntr : Z;
  auxWatermark : Z;
  sampleMaxStack : Z;
  pe_padding : Z
}.

(** [unsafe.Sizeof] of the attribute: two 32-bit fields, five 64-bit fields, two
    32-bit, three 64-bit, two 32-bit, one 64-bit, one 32-bit and two
    16-bit fields, each at a multiple of its size. *)
Definition perfEventAttr_Sizeof : Z := 104.

(** The double quote character. *)
Definition dquote : string :=
  String (Ascii.Ascii false true false false false true false false) EmptyString.

(** [attr.size = size] *)
Definition with_size (attr : perfEventAttr) (size : Z) : perfEventAttr :=
  {| perfType := perfType attr; pe_size := size; config := config attr;
     samplePeriod := samplePeriod attr; sampleType := sampleType attr;
     readFormat := readFormat attr; pe_flags := pe_flags attr;
     wakeupEventsOrWatermark := wakeupEventsOrWatermark attr;
     bpType := bpType attr; bpAddr := bpAddr attr; bpLen := bpLen attr;
     sampleRegsUser := sampleRegsUser attr;
     sampleStackUser := sampleStackUser attr; clockID := clockID attr;
     sampleRegsIntr := sampleRegsIntr attr; auxWatermark := auxWatermark attr;
     sampleMaxStack := sampleMaxStack attr; pe_padding := pe_padding attr |}.

(** The error of [perfEventOpen]: a [*wrappedErrno] or the plain error
    number. *)
Inductive open_error : Type :=
| wrappedErrno (errNo : Errno) (message : string)
| plainErrno (errNo : Errno).

(** [errors.Cause] of such an error: [wrappedErrno] has the method
    [Cause], an error number has not. *)
Definition open_Cause (e : open_error) : Errno :=
  match e with
  | wrappedErrno errNo _ => errNo
  | plainErrno errNo => errNo
  end.

(** [Error()] *)
Definition open_message (e : open_error) : option string :=
  match e with
  | wrappedErrno _ message => Some message
  | plainErrno _ => None
  end.

(** The system calls of this part, with their arguments as the kernel
    gets them.  [unix.SetNonblock] counts as one call: it stands for the
    [fcntl] calls that the library makes of it. *)
Inductive perf_call : Type :=
| SysPerfEventOpen (attr : perfEventAttr) (pid cpu groupFd flags : Z)
| SysEventfd2 (initval flags : Z)
| SysEpollCreate1 (flag : Z)
| SysEpollCtl (epfd op fd : Z) (events evfd : Z)
| SysClosePerf (fd : Z)
| SysSetNonblock (fd : Z) (nonblocking : bool)
| SysMmap (fd offset length prot flags : Z).

(** The kernel answers each call with a result register and an error
    number; [perf_memory] tells what the memory holds that the kernel maps
    at an address. *)
Record PerfWorld : Type := {
  perf_kernel : list (Z * Errno);
  perf_calls : list perf_call;
  perf_memory : Z -> list byte
}.

Definition PM (A : Type) : Type := PerfWorld -> outcome (A * PerfWorld).

#[global] Instance PM_ret : MRet PM := fun A a w => Returns (a, w).
#[global] Instance PM_bind : MBind PM :=
  fun A B k c w =>
    match c w with
    | Returns (a, w') => k a w'
    | Panics msg => Panics msg
    | Blocks => Blocks
    end.

(** One system call: the result register and the error number. *)
Definition perf_syscall (c : perf_call) : PM (Z * Errno) :=
  fun w =>
    match perf_kernel w with
    | [] => Blocks
    | r :: rest =>
      Returns (r, {| perf_kernel := rest; perf_calls := perf_calls w ++ [c];
                     perf_memory := perf_memory w |})
    end.

(** [perfEventOpen]: the descriptor, the error, and the attribute, into
    which the size is stored. *)
Definition perfEventOpen (attr : perfEventAttr) (pid cpu groupFd flags : Z)
  : PM (Z * option open_error * perfEventAttr) :=
  let flagCloexec := Z.shiftl 1 3 in
  (* Always overwrite size *)
  let attr := with_size attr (uint32 perfEventAttr_Sizeof) in
  (* Force CLOEXEC *)
  let flags := Z.lor flags flagCloexec in
  '(efd, errNo) ← perf_syscall (SysPerfEventOpen attr (uint64 pid) (uint64 cpu)
                                  (uint64 groupFd) (uint64 flags));
  let err :=
    if errNo =? 0 then None
    else if errNo =? E2BIG then
      Some (wrappedErrno E2BIG "perf_event_attr size is incorrect, check size field for what the correct size should be")
    else if errNo =? EACCES then
      Some (wrappedErrno EACCES "insufficient capabilities to create this event")
    else if errNo =? EBADFD then
      Some (wrappedErrno EBADFD "group_fd is invalid")
    else if errNo =? EBUSY then
      Some (wrappedErrno EBUSY "another event already has exclusive access to the PMU")
    else if errNo =? EFAULT then
      Some (wrappedErrno EFAULT "attr points to an invalid address")
    else if errNo =? EINVAL then
      Some (wrappedErrno EINVAL "the specified event is invalid, most likely because a configuration parameter is invalid (i.e. too high, too low, etc)")
    else if errNo =? EMFILE then
      Some (wrappedErrno EMFILE "this process has reached its limits for number of open events that it may have")
    else if errNo =? ENODEV then
      Some (wrappedErrno ENODEV "this processor architecture does not support this event type")
    else if errNo =? ENOENT then
      Some (wrappedErrno ENOENT "the type setting is not valid")
    else if errNo =? ENOSPC then
      Some (wrappedErrno ENOSPC "the hardware limit for breakpoints capacity has been reached")
    else if errNo =? ENOSYS then
      Some (wrappedErrno ENOSYS "sample type not supported by the hardware")
    else if errNo =? EOPNOTSUPP then
      Some (wrappedErrno EOPNOTSUPP "this event is not supported by the hardware or requires a feature not supported by the hardware")
    else if errNo =? EOVERFLOW then
      Some (wrappedErrno EOVERFLOW ("sample_max_stack is larger than the kernel support; check "
                              ++ dquote ++ "/proc/sys/kernel/perf_event_max_stack"
                              ++ dquote ++ " for maximum supported size"))
    else if errNo =? EPERM then
      Some (wrappedErrno EPERM "insufficient capability to request exclusive access")
    else if errNo =? ESRCH then
      Some (wrappedErrno ESRCH "pid does not exist")
    else Some (plainErrno errNo) in
  mret (int64 efd, err, attr).

(** [newEventFd] *)
Definition newEventFd : PM (Z * option error) :=
  let flags := Z.lor O_CLOEXEC O_NONBLOCK in
  '(ret, errno) ← perf_syscall (SysEventfd2 0 (uint64 flags));
  if errno =? 0 then mret (int64 ret, None)
  else mret (-1, Wrap (Some (ErrErrno errno)) "can't create event fd").

(** [unix.EpollCreate1], [unix.EpollCtl] and [syscall.Close]: the
    wrappers of the system calls. *)
Definition EpollCreate1 (flag : Z) : PM (Z * option error) :=
  '(r0, e1) ← perf_syscall (SysEpollCreate1 flag);
  mret (int64 r0, errno_error e1).

Definition EpollCtl (epfd op fd : Z) (events evfd : Z) : PM (option error) :=
  '(_, e1) ← perf_syscall (SysEpollCtl epfd op fd events evfd);
  mret (errno_error e1).

Definition Close_fd (fd : Z) : PM (option error) :=
  '(_, e1) ← perf_syscall (SysClosePerf fd);
  mret (errno_error e1).

(** The loop [for _, fd := range fds] of [newEpollFd]. *)
Fixpoint newEpollFd_loop (epollfd : Z) (fds : list Z) : PM (Z * option error) :=
  match fds with
  | [] => mret (epollfd, None)
  | fd :: fds' =>
    (* event := unix.EpollEvent{Events: unix.EPOLLIN, Fd: int32(fd)} *)
    err ← EpollCtl epollfd EPOLL_CTL_ADD fd EPOLLIN (int32 fd);
    match err with
    | Some _ =>
      _ ← Close_fd epollfd;
      mret (-1, Wrap err "can't add fd to epoll")
    | None => newEpollFd_loop epollfd fds'
    end
  end.

(** [newEpollFd] *)
Definition newEpollFd (fds : list Z) : PM (Z * option error) :=
  '(epollfd, err) ← EpollCreate1 EPOLL_CLOEXEC;
  match err with
  | Some _ => mret (-1, Wrap err "can't create epoll fd")
  | None => newEpollFd_loop epollfd fds
  end.

(** A process that maps no memory. *)
Definition no_memory : Z -> list byte := fun _ => [].

(** The calls that add [fds] to the epoll descriptor. *)
Definition epoll_adds (epollfd : Z) (fds : list Z) : list perf_call :=
  (fun fd => SysEpollCtl epollfd EPOLL_CTL_ADD fd EPOLLIN (int32 fd)) <$> fds.

(** An attribute as [newPerfEventRing] builds it, with a watermark of one
    page. *)
Definition attr_bpf_output : perfEventAttr :=
  {| perfType := 1; pe_size := 0; config := 10; samplePeriod := 0;
     sampleType := Z.shiftl 1 10; readFormat := 0;
     pe_flags := Z.shiftl 1 14; wakeupEventsOrWatermark := 4096;
     bpType := 0; bpAddr := 0; bpLen := 0; sampleRegsUser := 0;
     sampleStackUser := 0; clockID := 0; sampleRegsIntr := 0;
     auxWatermark := 0; sampleMaxStack := 0; pe_padding := 0 |}.

(** *** The ring of one CPU *)

Definition perfTypeSoftware : Z := 1.
Definition perfCountSWBPFOutput : Z := 10.
Definition perfSampleRaw : Z := Z.shiftl 1 10.

Definition PROT_READ : Z := 0x1.
Definition PROT_WRITE : Z := 0x2.
Definition MAP_SHARED : Z := 0x1.

(** [PerfReaderOptions], without the map, which [newPerfEventRing] does
    not look at. *)
Record PerfReaderOptions : Type := {
  PerCPUBuffer : Z;
  Watermark : Z
}.

(** [perfEventRing] is a page of metadata followed by a variable number of
    pages which form a ring buffer.  [er_meta] and [er_ring] are views of
    the mapped memory [er_mmap]: the record holds what they show when the
    ring is made. *)
Record perfEventRing : Type := {
  er_fd : Z;
  er_meta : perfEventMeta;
  er_mmap : list byte;
  er_ring : list byte
}.

(** The errors of [newPerfEventRing]: its own, that of [perfEventOpen], or
    the error number of a library call. *)
Inductive ring_error : Type :=
| RingMsg (msg : string)
| RingOpen (e : open_error)
| RingErrno (e : Errno).

(** [unix.SetNonblock] *)
Definition SetNonblock (fd : Z) (nonblocking : bool) : PM (option Errno) :=
  '(_, e1) ← perf_syscall (SysSetNonblock fd nonblocking);
  mret (if e1 =? 0 then None else Some e1).

(** [unix.Mmap]: a length that is not positive is refused by the library
    itself; the slice that comes back has the length asked for, and holds
    what the memory at the address holds. *)
Definition mapped (addr length : Z) : PM (list byte) :=
  fun w =>
    Returns (take (Z.to_nat length)
                  (perf_memory w addr ++ replicate (Z.to_nat length) x00), w).

Definition Mmap (fd offset length prot flags : Z)
  : PM (list byte * option Errno) :=
  if length <=? 0 then mret ([], Some EINVAL)
  else
    '(addr, e1) ← perf_syscall (SysMmap fd offset (uint64 length) prot flags);
    if e1 =? 0 then
      data ← mapped addr length;
      mret (data, None)
    else mret ([], Some e1).

(** A panic in code that runs against the kernel. *)
Definition perf_panic {A} (msg : string) : PM A := fun _ => Panics msg.

Section PerfEventRing.

(** The byte order of the host. *)
Variable nativeEndian : asm.ByteOrder.

(** [os.Getpagesize()], which is not zero. *)
Variable pageSize : Z.

(** The metadata page seen as a [perfEventMeta], through the pointer to
    the first byte of the mapping: the four fields that follow the padding
    of 128 words of eight bytes. *)
Definition meta_of (mmap : list byte) : perfEventMeta :=
  {| dataHead := asm.get_uint nativeEndian (take 8 (drop 1024 mmap));
     dataTail := asm.get_uint nativeEndian (take 8 (drop 1032 mmap));
     dataOffset := asm.get_uint nativeEndian (take 8 (drop 1040 mmap));
     dataSize := asm.get_uint nativeEndian (take 8 (drop 1048 mmap)) |}.

(** The size of the mapping for a buffer of [perCPUBuffer] bytes: round to
    the nearest page boundary and allocate an extra page for meta data. *)
Definition ring_pages (perCPUBuffer : Z) : Z :=
  int64 (Z.quot (int64 (int64 (perCPUBuffer + pageSize) - 1)) pageSize).

Definition mapping_size (perCPUBuffer : Z) : Z :=
  int64 (int64 (1 + ring_pages perCPUBuffer) * pageSize).

(** The attribute of the event of a ring. *)
Definition ring_attr (watermark : Z) : perfEventAttr :=
  let flagWakeupWatermark := Z.shiftl 1 14 in
  {| perfType := perfTypeSoftware; pe_size := 0;
     config := perfCountSWBPFOutput; samplePeriod := 0;
     sampleType := perfSampleRaw; readFormat := 0;
     pe_flags := flagWakeupWatermark;
     wakeupEventsOrWatermark := uint32 watermark;
     bpType := 0; bpAddr := 0; bpLen := 0; sampleRegsUser := 0;
     sampleStackUser := 0; clockID := 0; sampleRegsIntr := 0;
     auxWatermark := 0; sampleMaxStack := 0; pe_padding := 0 |}.

(** [newPerfEventRing].  (The finalizer that closes an unreachable ring is
    not part of the model.) *)
Definition newPerfEventRing (cpu : Z) (opts : PerfReaderOptions)
  : PM (option perfEventRing * option ring_error) :=
  if Watermark opts >=? PerCPUBuffer opts then
    mret (None, Some (RingMsg "Watermark must be smaller than PerCPUBuffer"))
  else
    (* Round to nearest page boundary and allocate
       an extra page for meta data *)
    let size := mapping_size (PerCPUBuffer opts) in
    let attr := ring_attr (Watermark opts) in
    '(fd, err, attr) ← perfEventOpen attr (-1) cpu (-1) 0;
    match err with
    | Some e => mret (None, Some (RingOpen e))
    | None =>
      err ← SetNonblock fd true;
      match err with
      | Some e => _ ← Close_fd fd; mret (None, Some (RingErrno e))
      | None =>
        '(mmap, err) ← Mmap fd 0 size (Z.lor PROT_READ PROT_WRITE) MAP_SHARED;
        match err with
        | Some e => _ ← Close_fd fd; mret (None, Some (RingErrno e))
        | None =>
          match mmap with
          | [] => perf_panic "index out of range"
          | _ =>
            let meta := meta_of mmap in
            match slice mmap (dataOffset meta)
                        (uint64 (dataOffset meta + dataSize meta)) with
            | None => perf_panic "slice bounds out of range"
            | Some ring =>
              mret (Some {| er_fd := fd; er_meta := meta;
                            er_mmap := mmap; er_ring := ring |}, None)
            end
          end
        end
      end
    end.

End PerfEventRing.

(** A mapping of two pages of 4096 bytes whose metadata page says: head
    40, tail 0, the data start at 4096 and are 4096 bytes. *)
Definition example_mapping : list byte :=
  replicate 1024 x00
    ++ asm.put_uint asm.LittleEndian 8 40
    ++ asm.put_uint asm.LittleEndian 8 0
    ++ asm.put_uint asm.LittleEndian 8 4096
    ++ asm.put_uint asm.LittleEndian 8 4096
    ++ replicate (4096 - 1056) x00
    ++ example_stream ++ replicate (4096 - 40) x00.

Definition example_memory : Z -> list byte :=
  fun addr => if addr =? 0x7f0000000000 then example_mapping else [].
(* ================================================================== *)
(** * Properties *)

(** ** Strings and runes *)

Lemma char_val_range c : 0 <= char_val c < 256.
Proof.
  unfold char_val. pose proof (N_ascii_bounded c). lia.
Qed.

Lemma string_drop_length n s :
  String.length (string_drop n s) = (String.length s - n)%nat.
Proof.
  revert s. induction n as [|n IH]; intros [|c t]; simpl; auto with lia.
Qed.

Lemma lor_ge_128 a b : 128 <= a -> 0 <= b -> 128 <= Z.lor a b.
Proof.
  intros Ha Hb.
  assert (H0 : 0 <= Z.lor a b) by (apply Z.lor_nonneg; lia).
  destruct (Z.lt_ge_cases (Z.lor a b) 128) as [Hlt|]; [|lia].
  exfalso.
  assert (Hl : Z.log2 (Z.lor a b) < 7).
  { destruct (Z.eq_dec (Z.lor a b) 0) as [->|]; [reflexivity|].
    apply Z.log2_lt_pow2; lia. }
  rewrite Z.log2_lor in Hl by lia.
  assert (7 <= Z.log2 a) by (apply Z.log2_le_pow2; lia).
  lia.
Qed.

Lemma land_mask_nonneg a n : 0 <= n -> 0 <= Z.land a (Z.ones n).
Proof. intros. rewrite Z.land_ones by lia. apply Z.mod_pos_bound. lia. Qed.

Module Utf8Facts.
Import Utf8.

Lemma lead_cases s0 sz lo hi :
  lead s0 = Some (sz, lo, hi) ->
  0xC2 <= s0 <= 0xF4 /\ 0x80 <= lo /\ hi <= 0xBF /\
  ((sz = 2%nat /\ 0xC2 <= s0 <= 0xDF)
   \/ (sz = 3%nat /\ 0xE0 <= s0 <= 0xEF /\ (s0 = 0xE0 -> 0xA0 <= lo))
   \/ (sz = 4%nat /\ 0xF0 <= s0 <= 0xF4 /\ (s0 = 0xF0 -> 0x90 <= lo))).
Proof.
  unfold lead.
  repeat case_match; intros [= <- <- <-];
    repeat match goal with
           | H : _ && _ = true |- _ => apply andb_prop in H as [? ?]
           | H : _ && _ = false |- _ => apply andb_false_iff in H
           end; lia.
Qed.

(** A rune decoded from a sequence that starts with a byte of [0x80] or
    more is never below [0x80].  *)
Lemma decode_high c t :
  0x80 <= char_val c ->
  0x80 <= (DecodeRuneInString (String c t)).1.
Proof.
  intros Hc. unfold DecodeRuneInString.
  destruct (Z.ltb_spec (char_val c) 0x80) as [|_]; [lia|].
  destruct (lead (char_val c)) as [[[sz lo] hi]|] eqn:Hlead;
    [|simpl; unfold RuneError; lia].
  apply lead_cases in Hlead as (Hs0 & Hlo & Hhi & Hsz).
  case_match; [simpl; unfold RuneError; lia|].
  destruct t as [|c1 t1]; [simpl; unfold RuneError; lia|].
  pose proof (char_val_range c1) as R1.
  destruct (_ || _) eqn:Hacc; [simpl; unfold RuneError; lia|].
  apply orb_false_elim in Hacc as [Hl Hh].
  apply Z.ltb_ge in Hl, Hh.
  change 0x1F with (Z.ones 5). change 0x0F with (Z.ones 4).
  change 0x07 with (Z.ones 3). change 0x3F with (Z.ones 6).
  assert (M1 : Z.land (char_val c1) (Z.ones 6) = char_val c1 - 128).
  { rewrite Z.land_ones by lia. change (2 ^ 6) with 64.
    symmetry; apply Z.mod_unique_pos with (q := 2); lia. }
  case_match.
  { (* two bytes *)
    simpl. apply lor_ge_128; [|apply land_mask_nonneg; lia].
    rewrite Z.shiftl_mul_pow2, Z.land_ones by lia.
    change (2 ^ 5) with 32. change (2 ^ 6) with 64.
    assert (sz = 2%nat) as -> by (apply Nat.leb_le in H0; lia).
    assert (char_val c mod 32 = char_val c - 192)
      by (symmetry; apply Z.mod_unique_pos with (q := 6); lia).
    lia. }
  destruct t1 as [|c2 t2]; [simpl; unfold RuneError; lia|].
  case_match; [simpl; unfold RuneError; lia|].
  case_match.
  { (* three bytes *)
    simpl. apply lor_ge_128; [|apply land_mask_nonneg; lia].
    assert (sz = 3%nat) as ->
        by (apply Nat.leb_le in H2; apply Nat.leb_gt in H0; lia).
    rewrite !Z.shiftl_mul_pow2, M1 by lia. rewrite Z.land_ones by lia.
    change (2 ^ 4) with 16. change (2 ^ 6) with 64. change (2 ^ 12) with 4096.
    assert (char_val c mod 16 = char_val c - 224)
      by (symmetry; apply Z.mod_unique_pos with (q := 14); lia).
    destruct (Z.eq_dec (char_val c) 0xE0) as [E|E].
    - rewrite Z.lor_comm. apply lor_ge_128; lia.
    - apply lor_ge_128; lia. }
  destruct t2 as [|c3 t3]; [simpl; unfold RuneError; lia|].
  case_match; [simpl; unfold RuneError; lia|].
  (* four bytes *)
  simpl. apply lor_ge_128; [|apply land_mask_nonneg; lia].
  apply lor_ge_128; [|rewrite Z.shiftl_mul_pow2 by lia;
                       pose proof (land_mask_nonneg (char_val c2) 6); lia].
  assert (sz = 4%nat) as -> by (apply Nat.leb_gt in H0, H2; lia).
  rewrite !Z.shiftl_mul_pow2, M1 by lia. rewrite Z.land_ones by lia.
  change (2 ^ 3) with 8. change (2 ^ 18) with 262144. change (2 ^ 12) with 4096.
  assert (char_val c mod 8 = char_val c - 240)
    by (symmetry; apply Z.mod_unique_pos with (q := 30); lia).
  destruct (Z.eq_dec (char_val c) 0xF0) as [E|E].
  - rewrite Z.lor_comm. apply lor_ge_128; lia.
  - apply lor_ge_128; lia.
Qed.

Lemma decode_ascii c t :
  char_val c < 0x80 -> DecodeRuneInString (String c t) = (char_val c, 1%nat).
Proof.
  intros H. unfold DecodeRuneInString.
  destruct (Z.ltb_spec (char_val c) 0x80); [reflexivity|lia].
Qed.

End Utf8Facts.

(** ** Object names *)

Lemma invalid_high r : 0x80 <= r -> invalidBPFObjNameChar r = true.
Proof.
  intros H. unfold invalidBPFObjNameChar, rune_lit.
  repeat case_match; try reflexivity;
    repeat match goal with
           | H : _ && _ = true |- _ => apply andb_prop in H as [? ?]
           | H : (_ <=? _) = true |- _ => apply Z.leb_le in H
           | H : (_ =? _) = true |- _ => apply Z.eqb_eq in H
           end;
    vm_compute char_val in *; lia.
Qed.

Lemma find_split {A} (p : A -> bool) l x :
  List.find p l = Some x ->
  exists l1 l2, l = l1 ++ x :: l2 /\ Forall (fun y => p y = false) l1 /\ p x = true.
Proof.
  induction l as [|a l IH]; simpl; [discriminate|].
  destruct (p a) eqn:Hp.
  - intros [= ->]. exists [], l. auto.
  - intros H. destruct (IH H) as (l1 & l2 & -> & F & Hx).
    exists (a :: l1), l2. auto.
Qed.

Lemma find_none_Forall {A} (p : A -> bool) l :
  List.find p l = None <-> Forall (fun y => p y = false) l.
Proof.
  induction l as [|a l IH]; simpl.
  - split; auto.
  - destruct (p a) eqn:Hp.
    + split; [discriminate|]. intros F. inversion F; congruence.
    + rewrite IH. split; [auto|]. intros F. inversion F; auto.
Qed.

(** The rune loop of [IndexFunc] stops exactly at the first byte outside
    the accepted set: bytes below [0x80] are runes of their own, and a
    sequence that starts with a higher byte decodes to a rune that is
    rejected as well. *)
Lemma find_range_from s : forall steps i,
  (String.length s <= steps)%nat ->
  match List.find (fun ir => invalidBPFObjNameChar ir.2)
                  (Utf8.range_from steps i s) with
  | Some ir => Z.of_nat ir.1
  | None => -1
  end = first_invalid_byte (Z.of_nat i) s.
Proof.
  induction s as [|c t IH]; intros steps i Hlen.
  - destruct steps; reflexivity.
  - destruct steps as [|steps]; [simpl in Hlen; lia|].
    cbn [Utf8.range_from first_invalid_byte].
    destruct (Z.lt_ge_cases (char_val c) 0x80) as [Hlo|Hhi].
    + rewrite Utf8Facts.decode_ascii by assumption.
      cbn [List.find snd fst string_drop].
      destruct (invalidBPFObjNameChar (char_val c)); [reflexivity|].
      rewrite IH by (simpl in Hlen; lia). f_equal. lia.
    + pose proof (Utf8Facts.decode_high c t Hhi) as Hr.
      destruct (Utf8.DecodeRuneInString (String c t)) as [r size].
      cbn [List.find snd fst] in *.
      rewrite (invalid_high r), (invalid_high (char_val c)) by lia.
      reflexivity.
Qed.

Lemma IndexFunc_first_invalid_byte name :
  GoStrings.IndexFunc name invalidBPFObjNameChar = first_invalid_byte 0 name.
Proof.
  unfold GoStrings.IndexFunc, Utf8.range.
  apply (find_range_from name (String.length name) 0%nat). lia.
Qed.

Lemma first_invalid_byte_spec s : forall i, 0 <= i ->
  let idx := first_invalid_byte i s in
  (idx = -1 /\
   forall n c, String.get n s = Some c -> invalidBPFObjNameChar (char_val c) = false)
  \/ (i <= idx < i + Z.of_nat (String.length s) /\
      (exists c, String.get (Z.to_nat (idx - i)) s = Some c /\
                 invalidBPFObjNameChar (char_val c) = true) /\
      forall n c, (n < Z.to_nat (idx - i))%nat -> String.get n s = Some c ->
                  invalidBPFObjNameChar (char_val c) = false).
Proof.
  induction s as [|c t IH]; intros i Hi; cbn [first_invalid_byte].
  - left. split; [reflexivity|]. intros n c; simpl. discriminate.
  - destruct (invalidBPFObjNameChar (char_val c)) eqn:Hc.
    + right. cbn [String.length]. split; [lia|]. split.
      * exists c. replace (i - i) with 0 by lia. auto.
      * intros n c'. lia.
    + destruct (IH (i + 1) ltac:(lia)) as [[E A]|(R & (c' & G & I) & B)].
      * left. split; [exact E|]. intros [|n] c'; simpl; [congruence|apply A].
      * right. cbn [String.length]. split; [lia|].
        replace (Z.to_nat (first_invalid_byte (i + 1) t - i))
          with (S (Z.to_nat (first_invalid_byte (i + 1) t - (i + 1)))) by lia.
        split; [exists c'; auto|].
        intros [|n] c''; simpl; [congruence|]. intros Hn. apply B. lia.
Qed.

(** [name[idx]] in [newBPFObjName] never indexes outside the string. *)
Lemma IndexFunc_in_range name :
  let idx := GoStrings.IndexFunc name invalidBPFObjNameChar in
  idx <> -1 -> 0 <= idx < Z.of_nat (String.length name).
Proof.
  intros idx. unfold idx. rewrite IndexFunc_first_invalid_byte.
  destruct (first_invalid_byte_spec name 0 ltac:(lia)) as [[E _]|(R & _)]; lia.
Qed.

Lemma bpfObjName_zero_eq : bpfObjName_zero = replicate 16 x00.
Proof. reflexivity. Qed.

(** What [copy(result[:15], name)] leaves in [result]. *)
Lemma copied_name (b : list byte) :
  copy (take 15 (replicate 16 x00)) b ++ drop 15 (replicate 16 x00)
  = take 15 b ++ replicate (16 - length (take 15 b)) x00.
Proof.
  unfold copy. rewrite length_take, length_replicate.
  change (15 `min` 16)%nat with 15%nat.
  rewrite take_replicate, !drop_replicate, <- app_assoc.
  f_equal. rewrite <- replicate_add. f_equal.
  rewrite length_take. lia.
Qed.

(** The two outcomes of [newBPFObjName], by the first byte outside the set. *)
Lemma newBPFObjName_cases name :
  let idx := first_invalid_byte 0 name in
  newBPFObjName name =
  if idx =? -1 then
    (take 15 (bytes_of_string name)
       ++ replicate (16 - length (take 15 (bytes_of_string name))) x00, None)
  else (bpfObjName_zero, Some (ErrInvalidNameChar (string_index name idx) name)).
Proof.
  intros idx. unfold newBPFObjName. rewrite IndexFunc_first_invalid_byte.
  fold idx. destruct (idx =? -1); cbn [negb]; [|reflexivity].
  rewrite bpfObjName_zero_eq.
  change (Z.to_nat (bpfObjNameLen - 1)) with 15%nat.
  now rewrite copied_name.
Qed.

Lemma bytes_of_string_length s :
  length (bytes_of_string s) = String.length s.
Proof.
  unfold bytes_of_string, list_byte_of_string.
  rewrite length_map. induction s; simpl; congruence.
Qed.

Lemma string_drop_drop a b s :
  string_drop a (string_drop b s) = string_drop (b + a) s.
Proof.
  revert s. induction b as [|b IH]; intros s; [reflexivity|].
  destruct s as [|c t]; simpl; [destruct a; reflexivity|apply IH].
Qed.

(** Every pair of the rune loop holds the rune decoded at its offset. *)
Lemma range_from_decodes steps : forall i s j r,
  (j, r) ∈ Utf8.range_from steps i s ->
  (i <= j)%nat /\ r = (Utf8.DecodeRuneInString (string_drop (j - i) s)).1.
Proof.
  induction steps as [|steps IH]; intros i s j r; [simpl; inversion 1|].
  destruct s as [|c t]; [simpl; inversion 1|].
  cbn [Utf8.range_from].
  destruct (Utf8.DecodeRuneInString (String c t)) as [r0 size] eqn:D.
  intros [E|H]%elem_of_cons.
  - injection E as -> ->. split; [lia|].
    replace (i - i)%nat with 0%nat by lia. cbn [string_drop]. now rewrite D.
  - apply IH in H as [Hle ->]. split; [lia|].
    rewrite string_drop_drop.
    now replace (size + (j - (i + size)))%nat with (j - i)%nat by lia.
Qed.

Lemma valid_name_iff name :
  valid_name name <-> GoStrings.IndexFunc name invalidBPFObjNameChar = -1.
Proof.
  unfold valid_name, Utf8.runes, GoStrings.IndexFunc.
  rewrite Forall_fmap.
  pose proof (find_none_Forall (fun ir : nat * Utf8.rune =>
                                  invalidBPFObjNameChar ir.2)
                               (Utf8.range name)) as F.
  destruct (List.find _ _); split; intros H; try lia.
  - apply F in H. discriminate.
  - now apply F.
Qed.

Lemma valid_name_bytes name :
  valid_name name <->
  forall n c, String.get n name = Some c ->
              invalidBPFObjNameChar (char_val c) = false.
Proof.
  rewrite valid_name_iff, IndexFunc_first_invalid_byte.
  destruct (first_invalid_byte_spec name 0 ltac:(lia))
    as [[E A]|(R & (c & G & I) & B)].
  - split; auto.
  - split; [lia|]. intros A. rewrite (A _ _ G) in I. discriminate.
Qed.

(** A name is accepted exactly when all its characters are in the set. *)
Lemma newBPFObjName_accepts_iff name :
  (newBPFObjName name).2 = None <-> valid_name name.
Proof.
  rewrite valid_name_iff. unfold newBPFObjName.
  destruct (Z.eqb_spec (GoStrings.IndexFunc name invalidBPFObjNameChar) (-1));
    cbn [negb snd]; split; intros; done.
Qed.

(** A rejected name comes back with the zero name and with an error that
    holds the byte found where the first offending character starts. *)
Lemma newBPFObjName_rejects name :
  ~ valid_name name ->
  exists idx r,
    first_offending name idx r /\
    newBPFObjName name =
      (bpfObjName_zero,
       Some (ErrInvalidNameChar (string_index name (Z.of_nat idx)) name)).
Proof.
  rewrite valid_name_iff. unfold newBPFObjName, GoStrings.IndexFunc.
  destruct (List.find _ _) as [[idx r]|] eqn:F; [|done]. intros _.
  apply find_split in F as (l1 & l2 & E & A & I).
  exists idx, r. split; [exists l1, l2; auto|].
  cbn [fst]. destruct (Z.eqb_spec (Z.of_nat idx) (-1)); [lia|reflexivity].
Qed.

(** When the first offending character is a single byte (below [0x80]),
    the byte in the error is that character. *)
Lemma reported_char_ascii name idx r :
  first_offending name idx r -> r < 0x80 ->
  char_val (string_index name (Z.of_nat idx)) = r.
Proof.
  intros (l1 & l2 & E & _ & _) Hr.
  assert (H : (idx, r) ∈ Utf8.range name)
    by (rewrite E; apply elem_of_app; right; left).
  clear E. apply range_from_decodes in H as [_ ->].
  replace (idx - 0)%nat with idx in * by lia.
  unfold string_index. rewrite Nat2Z.id.
  revert idx Hr. induction name as [|c t IH]; intros idx Hr.
  - destruct idx; simpl in Hr; unfold Utf8.RuneError in Hr; lia.
  - destruct idx as [|idx]; [|apply IH, Hr].
    cbn [string_drop] in *. cbn [String.get].
    destruct (Z.lt_ge_cases (char_val c) 0x80) as [Hlo|Hhi].
    + now rewrite Utf8Facts.decode_ascii.
    + pose proof (Utf8Facts.decode_high c t Hhi). lia.
Qed.

(** C1, as stated, fails: a 16-character name made of accepted characters
    is longer than 15 characters and yet [newBPFObjName] returns it without
    an error. *)
Lemma newBPFObjName_overlong_not_rejected :
  (15 < String.length name16)%nat /\ valid_name name16 /\
  (newBPFObjName name16).2 = None.
Proof.
  split; [vm_compute; lia|].
  split; [|reflexivity].
  unfold valid_name. vm_compute. repeat constructor.
Qed.

(** C1 (amended): a name longer than 15 characters, all of them in
    [A-Za-z0-9_], is not rejected: [newBPFObjName] returns no error and the
    16-byte name made of the first 15 bytes of the input followed by a NUL
    byte. *)
Theorem newBPFObjName_overlong_truncated name :
  (15 < String.length name)%nat ->
  valid_name name ->
  newBPFObjName name = (take 15 (bytes_of_string name) ++ [x00], None).
Proof.
  intros Hlen Hvalid.
  rewrite newBPFObjName_cases.
  apply valid_name_iff in Hvalid. rewrite IndexFunc_first_invalid_byte in Hvalid.
  rewrite Hvalid. cbn [Z.eqb Pos.eqb].
  rewrite length_take, bytes_of_string_length.
  now replace (16 - 15 `min` String.length name)%nat with 1%nat by lia.
Qed.

Lemma newBPFObjName_overlong_truncated_witness :
  newBPFObjName name16 = (take 15 (bytes_of_string name16) ++ [x00], None).
Proof.
  apply newBPFObjName_overlong_truncated.
  - vm_compute; lia.
  - unfold valid_name. vm_compute. repeat constructor.
Defined.

(** C2, at the name made of the two bytes [0xC3 0xA9] (the UTF-8 encoding
    of U+00E9): the name is rejected with the zero name, its first
    offending character is U+00E9 at offset 0, and the character held in
    the error is the byte [0xC3], which [%c] prints as U+00C3. *)
Theorem newBPFObjName_reports_lead_byte :
  newBPFObjName e_acute =
    (bpfObjName_zero, Some (ErrInvalidNameChar "195" e_acute)) /\
  first_offending e_acute 0 0xE9 /\
  reported_char (ErrInvalidNameChar "195" e_acute) = Some 0xC3.
Proof.
  split; [reflexivity|]. split; [|reflexivity].
  exists [], []. repeat split. constructor.
Qed.

(** C9: an accepted name comes back as 16 bytes whose byte 15 is zero: the
    bytes are the first 15 bytes of the input (all of it when it is
    shorter) followed by zeros, so an input of more than 15 bytes is cut
    down to its first 15 bytes and not rejected. *)
Theorem newBPFObjName_nul_terminated name :
  (newBPFObjName name).2 = None ->
  let result := (newBPFObjName name).1 in
  length result = 16%nat /\
  result !! 15%nat = Some x00 /\
  take 15 result = take 15 (bytes_of_string name ++ replicate 15 x00) /\
  ((15 < String.length name)%nat ->
   result = take 15 (bytes_of_string name) ++ [x00]).
Proof.
  intros Hok result.
  apply newBPFObjName_accepts_iff, valid_name_iff in Hok.
  rewrite IndexFunc_first_invalid_byte in Hok.
  assert (E : result = take 15 (bytes_of_string name)
                  ++ replicate (16 - length (take 15 (bytes_of_string name))) x00).
  { unfold result. rewrite newBPFObjName_cases, Hok. reflexivity. }
  pose proof (bytes_of_string_length name) as L.
  set (b := bytes_of_string name) in *.
  assert (Lt : length (take 15 b) = (15 `min` length b)%nat)
    by apply length_take.
  rewrite E. repeat split.
  - rewrite length_app, length_replicate. lia.
  - rewrite lookup_app_r by lia.
    apply lookup_replicate_2. lia.
  - rewrite take_app. rewrite take_take, Nat.min_id.
    rewrite (take_app b (replicate 15 x00)).
    rewrite !take_replicate. f_equal. f_equal. lia.
  - intros Hlen.
    now replace (16 - length (take 15 b))%nat with 1%nat by lia.
Qed.

Lemma newBPFObjName_nul_terminated_witness :
  let result := (newBPFObjName name16).1 in
  length result = 16%nat /\
  result !! 15%nat = Some x00 /\
  take 15 result = take 15 (bytes_of_string name16 ++ replicate 15 x00) /\
  ((15 < String.length name16)%nat ->
   result = take 15 (bytes_of_string name16) ++ [x00]).
Proof.
  apply newBPFObjName_nul_terminated. reflexivity.
Defined.

(** ** The codec *)

Module asmFacts.
Import asm.




Lemma le_bytes_length n z : length (le_bytes n z) = n.
Proof. revert z. induction n; intros; simpl; auto. Qed.

Lemma put_uint_length bo n z : length (put_uint bo n z) = n.
Proof.
  unfold put_uint, order. destruct bo;
    rewrite ?length_reverse; apply le_bytes_length.
Qed.




End asmFacts.

(** C3: decoding the little-endian stream
    [18 01 00 00 FF FF FF 7F 00 00 00 00 FF FF FF FF] gives exactly one
    logical instruction and its constant is [-2^31 - 1]: the low half
    [0x7FFFFFFF] and the high half [0xFFFFFFFF], both unsigned, make the
    64-bit word [0xFFFFFFFF7FFFFFFF], read as signed. *)
Theorem decode_64bit_immediate :
  exists ins,
    asm.loadInstructions asm.LittleEndian prog_64bit_immediate
      = (Some [ins], 16, None) /\
    asm.Constant ins = - 2 ^ 31 - 1 /\
    asm.Constant ins
      = int64 (Z.lor (uint32 0x7FFFFFFF) (Z.shiftl (uint32 0xFFFFFFFF) 32)) /\
    asm.OpCode ins = asm.LdImmDW /\ asm.Dst ins = 1.
Proof.
  eexists. split; [vm_compute; reflexivity|].
  repeat split.
Qed.

(** The encoder gives the stream back. *)
Lemma marshal_64bit_immediate :
  asm.Marshal asm.LittleEndian
    [{| asm.OpCode := asm.LdImmDW; asm.Dst := 1; asm.Src := 0; asm.Offset := 0;
        asm.Constant := - 2 ^ 31 - 1; asm.Reference := ""; asm.Symbol := "" |}]
  = inr prog_64bit_immediate.
Proof. vm_compute. reflexivity. Qed.

(** ** The load system call *)

Lemma is_errno_errno_error e x :
  is_errno (errno_error e) x = true <-> e = x /\ e <> 0.
Proof.
  unfold is_errno, errno_error.
  destruct (Z.eqb_spec e 0) as [->|Hne].
  - split; [discriminate|]. intros [_ H]. now contradict H.
  - rewrite Z.eqb_eq. tauto.
Qed.

Lemma not_interrupted_returns r :
  ~ interrupted r -> negb (is_errno (errno_error (errNo r)) EAGAIN) = true.
Proof.
  intros H. apply negb_true_iff, not_true_is_false.
  rewrite is_errno_errno_error. intros [E _]. now apply H.
Qed.

Lemma interrupted_retries r :
  interrupted r -> negb (is_errno (errno_error (errNo r)) EAGAIN) = false.
Proof.
  intros H. apply negb_false_iff, is_errno_errno_error.
  rewrite H. split; [reflexivity|discriminate].
Qed.

Lemma submissions_length attr rs : length (submissions attr rs) = length rs.
Proof.
  revert attr. induction rs as [|r rs IH]; intros attr; simpl; auto.
Qed.

Lemma kernel_writes_no_log r attr :
  logBuf attr = None -> kernel_writes r attr = attr.
Proof. unfold kernel_writes. now intros ->. Qed.

Lemma after_writes_no_log attr rs :
  logBuf attr = None -> after_writes attr rs = attr.
Proof.
  intros H. unfold after_writes.
  induction rs as [|r rs IH]; simpl; [reflexivity|].
  now rewrite kernel_writes_no_log.
Qed.

Lemma submissions_no_log attr rs :
  logBuf attr = None ->
  submissions attr rs = replicate (length rs) (SysProgLoad attr).
Proof.
  intros H. induction rs as [|r rs IH]; simpl; [reflexivity|].
  now rewrite kernel_writes_no_log, IH.
Qed.

(** The loop goes through the interrupted answers one by one and stops at
    the first other answer. *)
Lemma bpfProgLoad_rounds_run interrupts : forall n attr w r rest,
  kernel w = interrupts ++ r :: rest ->
  Forall interrupted interrupts ->
  ~ interrupted r ->
  (length interrupts < n)%nat ->
  bpfProgLoad_rounds n attr w =
    Returns ((after_writes attr (interrupts ++ [r]),
              (r1 r, errno_error (errNo r))),
             {| kernel := rest;
                calls := calls w ++ submissions attr (interrupts ++ [r]);
                haveObjName_memo := haveObjName_memo w |}).
Proof.
  induction interrupts as [|i interrupts IH]; intros n attr w r rest K F R L;
    (destruct n as [|n]; [simpl in L; lia|]);
    cbn [bpfProgLoad_rounds]; unfold bind at 1, bpfCall; rewrite K;
    cbn [app].
  - rewrite not_interrupted_returns by assumption. reflexivity.
  - inversion F as [|? ? Hi F']; subst.
    rewrite interrupted_retries by assumption.
    erewrite IH; [|reflexivity|assumption|assumption|simpl in L; lia].
    cbn [kernel calls haveObjName_memo submissions app after_writes foldl].
    now rewrite <- app_assoc.
Qed.

Lemma bpfProgLoad_run attr w interrupts r rest :
  kernel w = interrupts ++ r :: rest ->
  Forall interrupted interrupts ->
  ~ interrupted r ->
  bpfProgLoad attr w =
    Returns ((after_writes attr (interrupts ++ [r]),
              (r1 r, errno_error (errNo r))),
             {| kernel := rest;
                calls := calls w ++ submissions attr (interrupts ++ [r]);
                haveObjName_memo := haveObjName_memo w |}).
Proof.
  intros K F R. unfold bpfProgLoad.
  apply bpfProgLoad_rounds_run; try assumption.
  rewrite K, length_app. simpl. lia.
Qed.

(** As long as the kernel only reports interruptions the loop goes on:
    with nothing but such answers it never returns. *)
Lemma bpfProgLoad_rounds_interrupted n : forall attr w,
  Forall interrupted (kernel w) ->
  bpfProgLoad_rounds n attr w = Blocks.
Proof.
  induction n as [|n IH]; intros attr w F; [reflexivity|].
  cbn [bpfProgLoad_rounds]. unfold bind at 1, bpfCall.
  destruct (kernel w) as [|r rest] eqn:K; [reflexivity|].
  inversion F; subst.
  rewrite interrupted_retries by assumption.
  now apply IH.
Qed.

Lemma bpfProgLoad_interrupted attr w :
  Forall interrupted (kernel w) -> bpfProgLoad attr w = Blocks.
Proof. apply bpfProgLoad_rounds_interrupted. Qed.

(** C5: [bpfProgLoad] submits the load again for every answer [EAGAIN] and
    returns the first answer that is anything else, success included: after
    [n] interruptions it has made [n + 1] system calls, all of them loads of
    the attribute it was given, it returns the result and the error of
    answer [n + 1], and the answers after that one are left for later
    calls. *)
Theorem bpfProgLoad_retries_only_EAGAIN attr w interrupts r rest :
  kernel w = interrupts ++ r :: rest ->
  Forall (fun i => errNo i = EAGAIN) interrupts ->
  errNo r <> EAGAIN ->
  exists attr' w',
    bpfProgLoad attr w = Returns ((attr', (r1 r, errno_error (errNo r))), w') /\
    kernel w' = rest /\
    calls w' = calls w ++ submissions attr (interrupts ++ [r]) /\
    length (submissions attr (interrupts ++ [r])) = S (length interrupts) /\
    (logBuf attr = None ->
     attr' = attr /\
     calls w' = calls w ++ replicate (S (length interrupts)) (SysProgLoad attr)).
Proof.
  intros K F R.
  eexists _, _. split; [apply (bpfProgLoad_run attr w interrupts r rest K F R)|].
  cbn [kernel calls].
  assert (L : length (interrupts ++ [r]) = S (length interrupts))
    by (rewrite length_app; simpl; lia).
  repeat split.
  - now rewrite submissions_length.
  - now apply after_writes_no_log.
  - rewrite submissions_no_log, L by assumption. reflexivity.
Qed.

Lemma bpfProgLoad_retries_only_EAGAIN_witness :
  let w := world_of [answer_interrupted; answer_interrupted; answer_loaded] in
  exists attr' w',
    bpfProgLoad attr_return0 w = Returns ((attr', (7, None)), w') /\
    kernel w' = [] /\
    calls w' = calls w ++ submissions attr_return0
                            ([answer_interrupted; answer_interrupted]
                               ++ [answer_loaded]) /\
    length (submissions attr_return0
              ([answer_interrupted; answer_interrupted] ++ [answer_loaded]))
      = 3%nat /\
    (logBuf attr_return0 = None ->
     attr' = attr_return0 /\
     calls w' = calls w ++ replicate 3 (SysProgLoad attr_return0)).
Proof.
  apply (bpfProgLoad_retries_only_EAGAIN attr_return0 _
           [answer_interrupted; answer_interrupted] answer_loaded []).
  - reflexivity.
  - repeat constructor.
  - simpl. unfold EAGAIN. lia.
Defined.

(** ** Building the attribute and loading *)

Lemma ptr_to_first_nonempty (b : list byte) :
  b <> [] -> ptr_to_first b = Returns (Some b).
Proof. destruct b; [congruence|reflexivity]. Qed.

Lemma make_bytes_length n : 0 <= n -> Z.of_nat (length (make_bytes n)) = n.
Proof. intros H. unfold make_bytes. rewrite length_replicate. lia. Qed.

Lemma make_bytes_nonempty n : 0 < n -> make_bytes n <> [].
Proof.
  intros H E. apply (f_equal (fun l => Z.of_nat (length l))) in E.
  rewrite make_bytes_length in E by lia. simpl in E. lia.
Qed.

(** What [convertProgramSpec] returns when it returns an attribute. *)
Lemma convertProgramSpec_attr bo spec includeName attr :
  convertProgramSpec bo spec includeName = Returns (Some attr, None) ->
  exists bytecode name,
    asm.Marshal bo (Instructions spec) = inr bytecode /\
    newBPFObjName (Name spec) = (name, None) /\
    insCount attr = uint32 (Z.of_nat (length bytecode) / asm.InstructionSize) /\
    instructions attr = Some bytecode /\
    license attr = Some (bytes_of_string (License spec)) /\
    progType attr = Type_ spec /\
    progName attr = (if includeName then name else bpfObjName_zero) /\
    logLevel attr = 0 /\ logSize attr = 0 /\ logBuf attr = None.
Proof.
  unfold convertProgramSpec.
  destruct (asm.Marshal bo (Instructions spec)) as [e|bytecode]; [discriminate|].
  destruct bytecode as [|b0 bytecode]; [discriminate|].
  cbn [ptr_to_first].
  destruct (bytes_of_string (License spec)) as [|l0 lic] eqn:L; [discriminate|].
  cbn [ptr_to_first].
  destruct (newBPFObjName (Name spec)) as [name [e|]]; [discriminate|].
  intros [= <-]. exists (b0 :: bytecode), name.
  destruct includeName; repeat split.
Qed.








(** The count is not the number of logical instructions: [r0 = 0; exit]
    has two instructions and three wire slots. *)
Lemma insCount_return0 :
  convertProgramSpec asm.LittleEndian spec_return0 false
    = Returns (Some attr_return0, None) /\
  insCount attr_return0 = 3 /\ length (Instructions spec_return0) = 2%nat.
Proof. repeat split. Qed.

Lemma bind_returns {A B} (c : M A) (k : A -> M B) w a w' :
  c w = Returns (a, w') -> bind c k w = k a w'.
Proof. unfold bind. now intros ->. Qed.

Lemma logs_pointer :
  ptr_to_first (make_bytes DefaultVerifierLogSize)
    = Returns (Some (make_bytes DefaultVerifierLogSize)).
Proof.
  apply ptr_to_first_nonempty, make_bytes_nonempty. reflexivity.
Qed.

Lemma logs_size :
  uint32 (Z.of_nat (length (make_bytes DefaultVerifierLogSize)))
    = DefaultVerifierLogSize.
Proof. rewrite make_bytes_length; [reflexivity|discriminate]. Qed.

(** A load that fails: the first [bpfProgLoad] ends with an error, the load
    runs once more with the verifier log switched on, and what comes back
    depends on the error of that second run. *)
Lemma NewProgram_failed_load bo spec w0 b w1 attr interrupts1 r interrupts2 r' rest :
  Instructions spec <> [] ->
  haveObjName_Result w0 = Returns (b, w1) ->
  convertProgramSpec bo spec b = Returns (Some attr, None) ->
  kernel w1 = interrupts1 ++ r :: interrupts2 ++ r' :: rest ->
  Forall interrupted interrupts1 ->
  Forall interrupted interrupts2 ->
  errNo r <> EAGAIN -> errNo r <> 0 ->
  errNo r' <> EAGAIN ->
  NewProgram bo spec w0 =
    Returns
      ((None,
        if errNo r' =? ENOSPC
        then Some (ErrWrap (ErrErrno (errNo r)) "no debug since LogSize too small")
        else Some (ErrLoad (errno_error (errNo r'))
                     (convertCString
                        (default [] (logBuf (after_writes (logging_attr attr)
                                                          (interrupts2 ++ [r']))))))),
       {| kernel := rest;
          calls := calls w1 ++ submissions attr (interrupts1 ++ [r])
                     ++ submissions (logging_attr attr) (interrupts2 ++ [r']);
          haveObjName_memo := haveObjName_memo w1 |}).
Proof.
  intros Hne Hft Hconv K F1 F2 R1 Z1 R2.
  pose proof (convertProgramSpec_attr _ _ _ _ Hconv)
    as (_ & _ & _ & _ & _ & _ & _ & _ & _ & _ & _ & Hbuf).
  unfold NewProgram.
  destruct (Instructions spec) as [|i0 insns] eqn:I; [congruence|].
  cbn [length Nat.eqb]. clear I.
  rewrite (bind_returns _ _ _ _ _ Hft).
  unfold lift at 1, bind at 1. rewrite Hconv.
  rewrite (bind_returns _ _ _ _ _
             (bpfProgLoad_run attr w1 interrupts1 r _ K F1 R1)).
  rewrite (after_writes_no_log attr _ Hbuf).
  assert (E1 : errno_error (errNo r) = Some (ErrErrno (errNo r))).
  { unfold errno_error. now destruct (Z.eqb_spec (errNo r) 0). }
  rewrite E1.
  unfold lift at 1, bind at 1. rewrite logs_pointer, logs_size.
  fold (logging_attr attr).
  erewrite bind_returns; [|apply (bpfProgLoad_run _ _ interrupts2 r' rest);
                           [reflexivity|assumption|assumption]].
  cbn [kernel calls haveObjName_memo Wrap].
  rewrite <- app_assoc.
  unfold ret. destruct (Z.eqb_spec (errNo r') 0) as [E0|N0].
  - rewrite E0. reflexivity.
  - assert (E2 : errno_error (errNo r') = Some (ErrErrno (errNo r'))).
    { unfold errno_error. now destruct (Z.eqb_spec (errNo r') 0). }
    rewrite E2. cbn [Cause Cause_of is_errno].
    now destruct (errNo r' =? ENOSPC).
Qed.

(** C4, as stated, fails when the second load ends with [ENOSPC]: the
    error that [NewProgram] returns is the first error wrapped in a message
    and carries no verifier log. *)
Lemma NewProgram_log_too_small_drops_log :
  exists e w',
    NewProgram asm.LittleEndian spec_return0
               (world_of [answer_rejected; answer_log_too_small])
      = Returns ((None, Some e), w') /\
    e = ErrWrap (ErrErrno EINVAL) "no debug since LogSize too small" /\
    verifier_log e = None.
Proof.
  eexists _, _. split; [|split; reflexivity].
  rewrite (NewProgram_failed_load asm.LittleEndian spec_return0 _ false
             (world_of [answer_rejected; answer_log_too_small]) attr_return0
             [] answer_rejected [] answer_log_too_small []);
    try reflexivity; try (repeat constructor); try discriminate.
Qed.

(** C4 (amended): when the first load fails with an error other than
    [EAGAIN], [NewProgram] runs [bpfProgLoad] exactly once more, with log
    level 1 and a buffer of [DefaultVerifierLogSize] = 64 KiB zero bytes of
    its own, and returns no program.  If that second load fails with
    [ENOSPC] the error is the first error wrapped in the message "no debug
    since LogSize too small"; if it fails with any other error, the error
    returned has that error as its cause and carries, as the verifier log,
    the bytes of the buffer before its first NUL. *)
Theorem NewProgram_retries_once_with_log
        bo spec w0 b w1 attr interrupts1 r interrupts2 r' rest :
  Instructions spec <> [] ->
  haveObjName_Result w0 = Returns (b, w1) ->
  convertProgramSpec bo spec b = Returns (Some attr, None) ->
  kernel w1 = interrupts1 ++ r :: interrupts2 ++ r' :: rest ->
  Forall (fun i => errNo i = EAGAIN) interrupts1 ->
  Forall (fun i => errNo i = EAGAIN) interrupts2 ->
  errNo r <> EAGAIN -> errNo r <> 0 ->
  errNo r' <> EAGAIN -> errNo r' <> 0 ->
  exists e w2,
    NewProgram bo spec w0 = Returns ((None, Some e), w2) /\
    kernel w2 = rest /\
    calls w2 = calls w1 ++ submissions attr (interrupts1 ++ [r])
                 ++ submissions (logging_attr attr) (interrupts2 ++ [r']) /\
    logLevel (logging_attr attr) = 1 /\
    logSize (logging_attr attr) = 64 * 1024 /\
    logBuf (logging_attr attr) = Some (make_bytes (64 * 1024)) /\
    (errNo r' = ENOSPC ->
     e = ErrWrap (ErrErrno (errNo r)) "no debug since LogSize too small") /\
    (errNo r' <> ENOSPC ->
     e = ErrLoad (Some (ErrErrno (errNo r')))
                 (convertCString (final_logs attr (interrupts2 ++ [r']))) /\
     verifier_log e
       = Some (convertCString (final_logs attr (interrupts2 ++ [r']))) /\
     Cause (Some e) = Some (ErrErrno (errNo r'))).
Proof.
  intros Hne Hft Hconv K F1 F2 R1 Z1 R2 Z2.
  pose proof (NewProgram_failed_load bo spec w0 b w1 attr interrupts1 r
                interrupts2 r' rest Hne Hft Hconv K F1 F2 R1 Z1 R2) as H.
  assert (E2 : errno_error (errNo r') = Some (ErrErrno (errNo r'))).
  { unfold errno_error. now destruct (Z.eqb_spec (errNo r') 0). }
  rewrite E2 in H. fold (final_logs attr (interrupts2 ++ [r'])) in H.
  destruct (Z.eqb_spec (errNo r') ENOSPC) as [E|N];
    eexists _, _; (split; [exact H|]); cbn [kernel calls];
    repeat split; intros; congruence.
Qed.

Lemma NewProgram_retries_once_with_log_witness :
  exists e w2,
    NewProgram asm.LittleEndian spec_return0
               (world_of [answer_interrupted; answer_rejected;
                          answer_interrupted; answer_rejected_with_log])
      = Returns ((None, Some e), w2) /\
    kernel w2 = [] /\
    calls w2 =
      calls (world_of [answer_interrupted; answer_rejected;
                       answer_interrupted; answer_rejected_with_log])
        ++ submissions attr_return0 ([answer_interrupted] ++ [answer_rejected])
        ++ submissions (logging_attr attr_return0)
             ([answer_interrupted] ++ [answer_rejected_with_log]) /\
    logLevel (logging_attr attr_return0) = 1 /\
    logSize (logging_attr attr_return0) = 64 * 1024 /\
    logBuf (logging_attr attr_return0) = Some (make_bytes (64 * 1024)) /\
    (errNo answer_rejected_with_log = ENOSPC ->
     e = ErrWrap (ErrErrno (errNo answer_rejected))
                 "no debug since LogSize too small") /\
    (errNo answer_rejected_with_log <> ENOSPC ->
     e = ErrLoad (Some (ErrErrno (errNo answer_rejected_with_log)))
                 (convertCString
                    (final_logs attr_return0
                       ([answer_interrupted] ++ [answer_rejected_with_log]))) /\
     verifier_log e
       = Some (convertCString
                 (final_logs attr_return0
                    ([answer_interrupted] ++ [answer_rejected_with_log]))) /\
     Cause (Some e) = Some (ErrErrno (errNo answer_rejected_with_log))).
Proof.
  apply (NewProgram_retries_once_with_log asm.LittleEndian spec_return0
           (world_of [answer_interrupted; answer_rejected;
                      answer_interrupted; answer_rejected_with_log])
           false _ attr_return0).
  - simpl. discriminate.
  - reflexivity.
  - reflexivity.
  - reflexivity.
  - repeat constructor.
  - repeat constructor.
  - simpl. unfold EINVAL, EAGAIN. lia.
  - simpl. unfold EINVAL. lia.
  - simpl. unfold EINVAL, EAGAIN. lia.
  - simpl. unfold EINVAL. lia.
Defined.

(** C10: for a specification without instructions [NewProgram] returns the
    error "instructions cannot be empty" and no program, and the state of
    the process and of the kernel is what it was: no system call was made,
    no answer of the kernel was consumed, not even the feature test has
    run.  The attribute is not built either: building it for such a
    specification panics. *)
Theorem NewProgram_empty_instructions bo spec w :
  Instructions spec = [] ->
  NewProgram bo spec w
    = Returns ((None, Some (ErrMsg "instructions cannot be empty")), w) /\
  (forall includeName,
      convertProgramSpec bo spec includeName = Panics "index out of range").
Proof.
  intros H. split.
  - unfold NewProgram. rewrite H. reflexivity.
  - intros includeName. unfold convertProgramSpec. rewrite H. reflexivity.
Qed.

Lemma NewProgram_empty_instructions_witness :
  let w := {| kernel := [answer_loaded]; calls := [];
              haveObjName_memo := None |} in
  NewProgram asm.LittleEndian spec_empty w
    = Returns ((None, Some (ErrMsg "instructions cannot be empty")), w) /\
  (forall includeName,
      convertProgramSpec asm.LittleEndian spec_empty includeName
        = Panics "index out of range").
Proof.
  apply (NewProgram_empty_instructions asm.LittleEndian spec_empty).
  reflexivity.
Defined.

(** *** The text of the verifier log *)

Lemma index_from_NUL text : forall i rest,
  x00 ∉ text ->
  GoBytes.index_from i (text ++ x00 :: rest) x00 = i + Z.of_nat (length text).
Proof.
  induction text as [|c text IH]; intros i rest Hnot; cbn [app GoBytes.index_from].
  - cbn [Byte.eqb length]. simpl. lia.
  - apply not_elem_of_cons in Hnot as [Hc Ht].
    destruct (Byte.eqb c x00) eqn:E; [apply byte_dec_bl in E; congruence|].
    rewrite IH by assumption. cbn [length]. lia.
Qed.

(** [convertCString] returns the text that stands before the first NUL. *)
Lemma convertCString_text text rest :
  x00 ∉ text ->
  convertCString (text ++ x00 :: rest) = string_of_bytes text.
Proof.
  intros Hnot. unfold convertCString, GoBytes.IndexByte.
  rewrite index_from_NUL by assumption.
  destruct (Z.eqb_spec (0 + Z.of_nat (length text)) (-1)); [lia|].
  replace (Z.to_nat (0 + Z.of_nat (length text))) with (length text) by lia.
  now rewrite take_app_length.
Qed.

(** Without a NUL in the buffer it returns the empty string. *)
Lemma convertCString_no_NUL b :
  x00 ∉ b -> convertCString b = ""%string.
Proof.
  intros Hnot. unfold convertCString, GoBytes.IndexByte.
  assert (H : forall i, GoBytes.index_from i b x00 = -1).
  { induction b as [|c b IH]; intros i; [reflexivity|].
    apply not_elem_of_cons in Hnot as [Hc Hb].
    cbn [GoBytes.index_from].
    destruct (Byte.eqb c x00) eqn:E; [apply byte_dec_bl in E; congruence|].
    now apply IH. }
  now rewrite H.
Qed.

(** The buffer after a second load that the kernel answers at once. *)
Lemma final_logs_single attr r :
  final_logs attr [r] = copy (make_bytes DefaultVerifierLogSize) (klog r).
Proof.
  unfold final_logs, after_writes, logging_attr. cbn [foldl].
  unfold kernel_writes. cbn [logBuf logSize logLevel with_log default].
  rewrite firstn_all2, skipn_all2, app_nil_r;
    [reflexivity| |];
    unfold make_bytes; rewrite length_replicate; lia.
Qed.

Lemma copy_text_into_zeros (n : nat) (text more : list byte) :
  (length text < n)%nat ->
  exists rest, copy (replicate n x00) (text ++ x00 :: more) = text ++ x00 :: rest.
Proof.
  intros Hlen. unfold copy.
  rewrite length_replicate, take_app, take_ge by lia.
  destruct (n - length text)%nat as [|k] eqn:E; [lia|].
  cbn [take]. rewrite <- app_assoc. eexists. reflexivity.
Qed.

(** When the kernel stores a text that has no NUL in it, followed by a NUL,
    and the text is shorter than the buffer, the verifier log of the error
    is that text. *)
Lemma final_logs_text attr r text more :
  klog r = text ++ x00 :: more ->
  x00 ∉ text ->
  Z.of_nat (length text) < DefaultVerifierLogSize ->
  convertCString (final_logs attr [r]) = string_of_bytes text.
Proof.
  intros K Hnot Hlen.
  rewrite final_logs_single, K. unfold make_bytes.
  destruct (copy_text_into_zeros (Z.to_nat DefaultVerifierLogSize) text more)
    as [rest ->]; [lia|].
  now apply convertCString_text.
Qed.

Lemma verifier_log_example :
  convertCString (final_logs attr_return0 [answer_rejected_with_log])
    = "R0 !read_ok"%string.
Proof.
  rewrite (final_logs_text _ _ (bytes_of_string "R0 !read_ok") []).
  - reflexivity.
  - reflexivity.
  - vm_compute. intros H. repeat (apply elem_of_cons in H as [H|H]; [discriminate|]).
    inversion H.
  - vm_compute. reflexivity.
Qed.

(** A load that the kernel accepts gives a program with the descriptor it
    returned. *)
Lemma NewProgram_loads :
  NewProgram asm.LittleEndian spec_return0
             (world_of [answer_interrupted; answer_loaded])
    = Returns ((Some {| fd := 7; name := "";
                        abi := {| abi_Type := SocketFilter |} |}, None),
               {| kernel := [];
                  calls := [SysProgLoad attr_return0; SysProgLoad attr_return0];
                  haveObjName_memo := Some false |}).
Proof. reflexivity. Qed.

(** The first load of a process runs the feature test first: one map is
    created and closed. *)
Lemma NewProgram_runs_feature_test :
  exists probe,
    NewProgram asm.LittleEndian spec_return0
               {| kernel := [answer_loaded; answer_loaded]; calls := [];
                  haveObjName_memo := None |}
    = Returns ((Some {| fd := 7; name := "";
                        abi := {| abi_Type := SocketFilter |} |}, None),
               {| kernel := [];
                  calls := [SysMapCreate probe; SysClose 7;
                            SysProgLoad (with_progName attr_return0 bpfObjName_zero)];
                  haveObjName_memo := Some true |}) /\
    mapName probe = bytes_of_string "feature_test" ++ [x00; x00; x00; x00].
Proof. eexists. split; reflexivity. Qed.

(** ** Linking *)

Lemma link_example :
  editor.Link link_primary link_library
  = [asm.CallImm asm.R0 asm.R1 1; asm.Return;
     asm.Sym (asm.LoadImm64 asm.R0 1337) "my_func"; asm.Return].
Proof. vm_compute. reflexivity. Qed.

Module editorFacts.
Import asm editor.

Lemma resolve_slots ins k m : slots (resolve ins k m) = slots ins.
Proof. reflexivity. Qed.







Lemma same_slots_take a b n :
  Forall2 (fun x y => slots x = slots y) a b ->
  Forall2 (fun x y => slots x = slots y) (take n a) (take n b).
Proof. apply Forall2_take. Qed.

End editorFacts.



(** In [TestEditorLink] the call is at wire slot 0, the copy of [my_func]
    starts at wire slot 2 and the immediate becomes 1. *)
Lemma Link_test_offsets :
  editor.Link_offsets link_primary link_library !! "my_func" = Some 2 /\
  asm.Constant <$> editor.Link link_primary link_library !! 0%nat = Some 1.
Proof. split; vm_compute; reflexivity. Qed.

(** ** Map specifications *)


Module loaderFacts.
Import loader.







End loaderFacts.


(** ** The ring reader *)

Lemma int64_small z : - 2 ^ 63 <= z < 2 ^ 63 -> int64 z = z.
Proof.
  intros H. unfold int64, signed.
  destruct (Z.le_gt_cases 0 z) as [Hz|Hz].
  - rewrite Z.mod_small by lia.
    destruct (Z.ltb_spec z (2 ^ (64 - 1))); [reflexivity|].
    change (2 ^ (64 - 1)) with (2 ^ 63) in *. lia.
  - replace (z mod 2 ^ 64) with (z + 2 ^ 64).
    + destruct (Z.ltb_spec (z + 2 ^ 64) (2 ^ (64 - 1))); [|lia].
      change (2 ^ (64 - 1)) with (2 ^ 63) in *. lia.
    + apply Z.mod_unique_pos with (q := -1); lia.
Qed.

Lemma uint64_small z : 0 <= z < 2 ^ 64 -> uint64 z = z.
Proof. intros H. unfold uint64. now apply Z.mod_small. Qed.

Lemma slice_Some {A} (b : list A) lo hi :
  0 <= lo <= hi -> hi <= len b ->
  slice b lo hi = Some (take (Z.to_nat (hi - lo)) (drop (Z.to_nat lo) b)).
Proof.
  intros H1 H2. unfold slice.
  destruct (Z.leb_spec 0 lo); [|lia].
  destruct (Z.leb_spec lo hi); [|lia].
  destruct (Z.leb_spec hi (len b)); [|lia].
  reflexivity.
Qed.

Section RingReader.

Variable rb : ringReader.
Hypothesis ok : ring_ok rb.

Local Abbreviation cap := (len (ring rb)).
Local Abbreviation start := (ring_start rb).

Lemma cap_pos : 1 <= cap.
Proof.
  destruct (ring_cap rb ok) as (k & Hk & E). rewrite E.
  pose proof (Z.pow_pos_nonneg 2 k). lia.
Qed.

Lemma start_range : 0 <= start < cap.
Proof. apply Z.mod_pos_bound. pose proof cap_pos. lia. Qed.

Lemma land_mask : Z.land (tail rb) (mask rb) = start.
Proof.
  destruct (ring_cap rb ok) as (k & Hk & E).
  unfold ring_start. rewrite (ring_mask rb ok), E.
  replace (2 ^ k - 1) with (Z.pred (2 ^ k)) by lia.
  rewrite <- Z.ones_equiv. apply Z.land_ones. lia.
Qed.

Lemma taken_range p :
  0 <= taken rb p /\ taken rb p <= len p /\
  taken rb p <= cap - start /\ taken rb p <= head rb - tail rb.
Proof.
  unfold taken, len. pose proof start_range. pose proof (ring_tail rb ok).
  unfold len in *. lia.
Qed.

Lemma advanced_ok n : 0 <= n <= head rb - tail rb -> ring_ok (advanced rb n).
Proof.
  intros Hn. destruct ok as [C Ci M T H U].
  constructor; cbn; try assumption; lia.
Qed.

Lemma unread_length : len (unread rb) = head rb - tail rb.
Proof.
  unfold unread, len. rewrite length_fmap, length_seq.
  pose proof (ring_tail rb ok). lia.
Qed.

Lemma unread_lookup (j : nat) :
  Z.of_nat j < head rb - tail rb ->
  unread rb !! j = Some (ring_at (ring rb) (tail rb + Z.of_nat j)).
Proof.
  intros Hj. unfold unread.
  rewrite list_lookup_fmap, lookup_seq_lt by lia. reflexivity.
Qed.

Lemma unread_advanced n :
  0 <= n <= head rb - tail rb ->
  unread (advanced rb n) = drop (Z.to_nat n) (unread rb).
Proof.
  intros Hn. apply list_eq. intros j.
  rewrite lookup_drop.
  destruct (Z.lt_ge_cases (Z.of_nat j) (head rb - tail rb - n)) as [Hj|Hj].
  - rewrite unread_lookup by lia.
    unfold unread at 1. cbn [head tail ring advanced].
    rewrite list_lookup_fmap, lookup_seq_lt by lia. cbn.
    do 2 f_equal. lia.
  - rewrite !lookup_ge_None_2; [reflexivity| |].
    + pose proof unread_length as L. unfold len in L. lia.
    + unfold unread. rewrite length_fmap, length_seq. cbn. lia.
Qed.

(** The bytes that a [Read] copies are the first unread bytes. *)
Lemma ring_block n :
  0 <= n -> n <= cap - start -> n <= head rb - tail rb ->
  take (Z.to_nat n) (drop (Z.to_nat start) (ring rb))
  = take (Z.to_nat n) (unread rb).
Proof.
  intros H0 H1 H2. pose proof start_range as Hs. pose proof cap_pos as Hc.
  apply list_eq. intros j.
  destruct (Z.lt_ge_cases (Z.of_nat j) n) as [Hj|Hj].
  - rewrite !lookup_take_lt by lia.
    rewrite lookup_drop, unread_lookup by lia.
    unfold ring_at.
    replace ((tail rb + Z.of_nat j) mod cap) with (start + Z.of_nat j).
    + replace (Z.to_nat start + j)%nat with (Z.to_nat (start + Z.of_nat j)) by lia.
      destruct (ring rb !! Z.to_nat (start + Z.of_nat j)) eqn:E; [reflexivity|].
      apply lookup_ge_None_1 in E. unfold len in *. lia.
    + symmetry. rewrite <- Z.add_mod_idemp_l by lia.
      apply Z.mod_small. fold start. lia.
  - rewrite !lookup_take_ge by lia. reflexivity.
Qed.

(** One [Read]: it never panics; it copies the first unread bytes, as many
    as fit into [p], into the rest of the ring before its end and into the
    unread data; it advances the tail by that number; and it reports
    [io.EOF] exactly when the tail has reached the head. *)
Lemma ringReader_Read_ok p :
  let n := taken rb p in
  ringReader_Read rb p =
    Returns (n,
             (if tail rb + n =? head rb then Some io.EOF else None),
             take (Z.to_nat n) (unread rb) ++ drop (Z.to_nat n) p,
             advanced rb n).
Proof.
  intros n. pose proof (taken_range p) as (N0 & N1 & N2 & N3).
  fold n in N0, N1, N2, N3.
  pose proof start_range as Hs. pose proof cap_pos as Hc.
  destruct ok as [C Ci M T H U].
  unfold ringReader_Read. rewrite land_mask.
  rewrite (int64_small start) by lia.
  rewrite (int64_small (cap - start)) by lia.
  rewrite (uint64_small (head rb - tail rb)) by lia.
  rewrite (int64_small (head rb - tail rb)) by lia.
  assert (E : (if (if len p >? cap - start then cap - start else len p)
                    >? head rb - tail rb
               then head rb - tail rb
               else if len p >? cap - start then cap - start else len p) = n).
  { unfold n, taken.
    destruct (Z.gtb_spec (len p) (cap - start));
      destruct (Z.gtb_spec (cap - start) (head rb - tail rb));
      destruct (Z.gtb_spec (len p) (head rb - tail rb)); lia. }
  rewrite E. rewrite (int64_small (start + n)) by lia.
  rewrite slice_Some by lia.
  replace (start + n - start) with n by lia.
  rewrite ring_block by lia.
  rewrite (uint64_small n) by lia.
  rewrite (uint64_small (tail rb + n)) by lia.
  cbn [tail head].
  assert (Hcopy : copy p (take (Z.to_nat n) (unread rb))
                  = take (Z.to_nat n) (unread rb) ++ drop (Z.to_nat n) p).
  { unfold copy. pose proof unread_length as L. unfold len in *.
    rewrite length_take. rewrite take_ge by (rewrite length_take; lia).
    do 2 f_equal. lia. }
  rewrite Hcopy. fold (advanced rb n).
  now destruct (tail rb + n =? head rb).
Qed.

End RingReader.

Lemma advanced_0 rb : advanced rb 0 = rb.
Proof. destruct rb. unfold advanced. cbn. f_equal. lia. Qed.

Lemma advanced_advanced rb a b : advanced (advanced rb a) b = advanced rb (a + b).
Proof. unfold advanced. cbn. f_equal. lia. Qed.

(** With data to read and room to put it, a [Read] gets at least one
    byte. *)
Lemma taken_progress rb p :
  ring_ok rb -> 0 < len p -> 0 < head rb - tail rb -> 0 < taken rb p.
Proof.
  intros ok Hp Hu. unfold taken. pose proof (start_range rb ok). lia.
Qed.

(** The loop of [io.ReadAtLeast] over a ring reader, from [n] bytes on:
    it fills the buffer with unread bytes as long as there are any. *)
Lemma ReadAtLeast_loop_ring rounds : forall rb buf n,
  ring_ok rb ->
  0 <= n <= len buf ->
  len buf - n <= Z.of_nat rounds ->
  let m := Z.min (len buf - n) (len (unread rb)) in
  io.ReadAtLeast_loop rounds rb buf (len buf) n None
  = Returns (n + m,
             (if (n <? len buf) && (len (unread rb) <=? len buf - n)
              then Some io.EOF else None),
             take (Z.to_nat n) buf ++ take (Z.to_nat m) (unread rb)
               ++ drop (Z.to_nat (n + m)) buf,
             advanced rb m).
Proof.
  induction rounds as [|rounds IH]; intros rb buf n ok Hn Hr m;
    pose proof (unread_length rb ok) as HU;
    pose proof (ring_tail rb ok) as HT.
  - (* no round left: nothing is missing *)
    assert (n = len buf) as E by lia.
    assert (m = 0) as -> by (unfold m; lia).
    cbn [io.ReadAtLeast_loop].
    destruct (Z.ltb_spec n (len buf)); [lia|].
    rewrite advanced_0, Z.add_0_r. change (Z.to_nat 0) with 0%nat.
    rewrite take_0. cbn [andb app]. now rewrite take_drop.
  - cbn [io.ReadAtLeast_loop].
    destruct (Z.ltb_spec n (len buf)) as [Hlt|Hge].
    + destruct (Z.ltb_spec n 0); [lia|].
      destruct (Z.ltb_spec (len buf) n); [lia|]. cbn [orb andb].
      change (io.Read rb (drop (Z.to_nat n) buf))
        with (ringReader_Read rb (drop (Z.to_nat n) buf)).
      rewrite ringReader_Read_ok by assumption.
      set (p := drop (Z.to_nat n) buf).
      assert (Hp : len p = len buf - n)
        by (unfold p, len; rewrite length_drop; unfold len in *; lia).
      pose proof (taken_range rb ok p) as (T0 & T1 & T2 & T3).
      set (t := taken rb p) in *.
      cbn [mbind outcome_bind].
      assert (Hbuf : len (take (Z.to_nat n) buf
                            ++ take (Z.to_nat t) (unread rb) ++ drop (Z.to_nat t) p)
                     = len buf).
      { unfold len in *. rewrite !length_app, !length_take, length_drop. lia. }
      destruct (Z.eqb_spec (tail rb + t) (head rb)) as [Eeof|Nfull].
      * (* the read reached the head: the loop ends with EOF *)
        assert (Em : m = t) by (unfold m; lia).
        destruct rounds; cbn [io.ReadAtLeast_loop];
          (destruct (Z.leb_spec (len (unread rb)) (len buf - n)); [|lia]);
          rewrite Em; unfold p; rewrite drop_drop;
          now replace (Z.to_nat n + Z.to_nat t)%nat with (Z.to_nat (n + t)) by lia.
      * (* more to read *)
        assert (0 < t).
        { apply taken_progress; [assumption|lia|lia]. }
        rewrite <- Hbuf at 1.
        rewrite IH;
          [|apply advanced_ok; [assumption|lia]|lia|lia].
        rewrite unread_advanced by (try assumption; lia).
        rewrite advanced_advanced, Hbuf.
        assert (LU : len (drop (Z.to_nat t) (unread rb)) = len (unread rb) - t)
          by (unfold len in *; rewrite length_drop; lia).
        rewrite LU.
        assert (Em : Z.min (len buf - (n + t)) (len (unread rb) - t) = m - t)
          by (unfold m; lia).
        rewrite Em.
        replace (n + t + (m - t)) with (n + m) by lia.
        replace (t + (m - t)) with m by lia.
        assert (t <= m) by (unfold m; lia).
        assert (E1 : ((n + t <? len buf)
                        && (len (unread rb) - t <=? len buf - (n + t)))
                     = (len (unread rb) <=? len buf - n)).
        { destruct (Z.ltb_spec (n + t) (len buf));
            destruct (Z.leb_spec (len (unread rb) - t) (len buf - (n + t)));
            destruct (Z.leb_spec (len (unread rb)) (len buf - n));
            cbn; try reflexivity; lia. }
        rewrite E1. do 3 f_equal.
        (* the buffer *)
        unfold len in *.
        rewrite take_app_ge by (rewrite length_take; lia).
        rewrite length_take.
        replace (Z.to_nat (n + t) - Z.to_nat n `min` length buf)%nat
          with (Z.to_nat t) by lia.
        rewrite take_app_ge by (rewrite length_take; lia).
        rewrite length_take.
        replace (Z.to_nat t - Z.to_nat t `min` length (unread rb))%nat
          with 0%nat by lia.
        rewrite take_0, app_nil_r, <- !app_assoc.
        f_equal.
        rewrite <- (take_drop (Z.to_nat t) (take (Z.to_nat m) (unread rb))).
        rewrite take_take.
        replace (Z.to_nat t `min` Z.to_nat m)%nat with (Z.to_nat t) by lia.
        rewrite <- app_assoc. f_equal.
        rewrite take_drop_commute.
        replace (Z.to_nat t + Z.to_nat (m - t))%nat with (Z.to_nat m) by lia.
        f_equal.
        rewrite !drop_app_ge by (rewrite ?length_take, ?length_drop; lia).
        rewrite !length_take. unfold p. rewrite !drop_drop. f_equal. lia.
    + assert (m = 0) as -> by (unfold m; lia).
      rewrite advanced_0, Z.add_0_r. change (Z.to_nat 0) with 0%nat.
      rewrite take_0. cbn [andb app]. now rewrite take_drop.
Qed.

(** [io.ReadFull] over a ring reader, whatever the buffer and the data. *)
Lemma ReadFull_ring_cases rounds rb buf :
  ring_ok rb ->
  (length buf <= rounds)%nat ->
  let u := unread rb in
  io.ReadFull rounds rb buf =
    if len buf <=? len u
    then Returns (len buf, None, take (length buf) u, advanced rb (len buf))
    else Returns (len u,
                  Some (if len u =? 0 then io.EOF else io.ErrUnexpectedEOF),
                  u ++ drop (length u) buf,
                  advanced rb (len u)).
Proof.
  intros ok Hr u. unfold io.ReadFull, io.ReadAtLeast.
  rewrite Z.ltb_irrefl.
  rewrite ReadAtLeast_loop_ring by (try assumption; unfold len; lia).
  cbn [mbind outcome_bind]. rewrite Z.sub_0_r, Z.add_0_l. fold u.
  change (Z.to_nat 0) with 0%nat. rewrite take_0. cbn [app].
  assert (0 <= len u) by (unfold len; lia).
  destruct (Z.leb_spec (len buf) (len u)) as [Hfit|Hshort].
  - rewrite Z.min_l by lia.
    destruct (Z.geb_spec (len buf) (len buf)); [|lia].
    unfold len. rewrite Nat2Z.id, drop_all, app_nil_r. reflexivity.
  - rewrite Z.min_r by lia.
    destruct (Z.geb_spec (len u) (len buf)); [lia|].
    destruct (Z.ltb_spec 0 (len buf)); [|lia].
    destruct (Z.leb_spec (len u) (len buf)); [|lia].
    cbn [andb].
    replace (Z.to_nat (len u)) with (length u) by (unfold len; lia).
    rewrite take_ge by lia.
    destruct (Z.eqb_spec (len u) 0) as [E|E].
    + rewrite E. reflexivity.
    + destruct (Z.gtb_spec (len u) 0); [|lia]. reflexivity.
Qed.

(** ** Byte order *)

Lemma byte_val_range b : 0 <= byte_val b < 256.
Proof. unfold byte_val. pose proof (Byte.to_N_bounded b). lia. Qed.

Lemma byte_val_of_Z z : byte_val (byte_of_Z z) = z mod 256.
Proof.
  unfold byte_of_Z, byte_val.
  pose proof (Z.mod_pos_bound z 256 ltac:(lia)) as B.
  destruct (Byte.of_N (Z.to_N (z mod 256))) as [b|] eqn:E.
  - apply Byte.to_of_N in E. rewrite E. lia.
  - apply Byte.of_N_None_iff in E. lia.
Qed.

Lemma byte_of_Z_val b : byte_of_Z (byte_val b) = b.
Proof.
  unfold byte_of_Z. pose proof (byte_val_range b).
  rewrite Z.mod_small by assumption. unfold byte_val.
  now rewrite N2Z.id, Byte.of_to_N.
Qed.

Lemma le_val_range bs : 0 <= asm.le_val bs < 256 ^ len bs.
Proof.
  induction bs as [|b bs IH]; [change (0 <= 0 < 1); lia|].
  unfold len in *. cbn [asm.le_val length]. rewrite Nat2Z.inj_succ, Z.pow_succ_r by lia.
  pose proof (byte_val_range b). lia.
Qed.

(** Writing a number in [n] bytes and reading it back gives its low [n]
    bytes. *)
Lemma le_val_le_bytes n : forall z,
  asm.le_val (asm.le_bytes n z) = z mod 256 ^ Z.of_nat n.
Proof.
  induction n as [|n IH]; intros z.
  - cbn. now rewrite Z.mod_1_r.
  - cbn [asm.le_bytes asm.le_val]. rewrite byte_val_of_Z, IH.
    rewrite Nat2Z.inj_succ, Z.pow_succ_r by lia.
    rewrite Z.rem_mul_r by lia. lia.
Qed.

Lemma le_bytes_le_val bs : asm.le_bytes (length bs) (asm.le_val bs) = bs.
Proof.
  induction bs as [|b bs IH]; [reflexivity|].
  cbn [length asm.le_bytes asm.le_val]. pose proof (byte_val_range b).
  f_equal.
  - rewrite <- (byte_of_Z_val b) at 2. unfold byte_of_Z.
    replace ((byte_val b + 256 * asm.le_val bs) mod 256)
      with (byte_val b mod 256); [reflexivity|].
    rewrite (Z.mul_comm 256), Z.mod_add by lia. reflexivity.
  - replace ((byte_val b + 256 * asm.le_val bs) / 256) with (asm.le_val bs);
      [exact IH|].
    rewrite (Z.mul_comm 256), Z.div_add by lia.
    rewrite Z.div_small by lia. reflexivity.
Qed.

Lemma get_put_uint bo n z :
  asm.get_uint bo (asm.put_uint bo n z) = z mod 256 ^ Z.of_nat n.
Proof.
  unfold asm.get_uint, asm.put_uint, asm.order. destruct bo.
  - apply le_val_le_bytes.
  - rewrite reverse_involutive. apply le_val_le_bytes.
Qed.

Lemma put_get_uint bo bs :
  asm.put_uint bo (length bs) (asm.get_uint bo bs) = bs.
Proof.
  unfold asm.get_uint, asm.put_uint, asm.order. destruct bo.
  - apply le_bytes_le_val.
  - rewrite <- (length_reverse bs), le_bytes_le_val. apply reverse_involutive.
Qed.

Lemma get_put_small bo n z :
  0 <= z < 256 ^ Z.of_nat n -> asm.get_uint bo (asm.put_uint bo n z) = z.
Proof. intros H. rewrite get_put_uint. now apply Z.mod_small. Qed.

(** ** Records of the ring *)

Lemma holds_advanced rb a rest :
  holds rb (a ++ rest) -> holds (advanced rb (len a)) rest.
Proof.
  intros [ok E].
  pose proof (unread_length rb ok) as L. rewrite E in L.
  unfold len in *. rewrite length_app in L.
  split.
  - apply advanced_ok; [assumption|lia].
  - rewrite unread_advanced by (try assumption; lia).
    rewrite E, Nat2Z.id. apply drop_app_length.
Qed.

Lemma holds_ReadFull rounds rb a rest buf :
  holds rb (a ++ rest) ->
  length buf = length a ->
  (length a <= rounds)%nat ->
  io.ReadFull rounds rb buf = Returns (len a, None, a, advanced rb (len a)).
Proof.
  intros [ok E] Hb Hr.
  rewrite ReadFull_ring_cases by (try assumption; lia).
  rewrite E. unfold len. rewrite Hb, length_app.
  destruct (Z.leb_spec (Z.of_nat (length a)) (Z.of_nat (length a + length rest)));
    [|lia].
  now rewrite take_app_length.
Qed.

Lemma holds_binary_Read rounds rb a rest :
  holds rb (a ++ rest) ->
  (length a <= rounds)%nat ->
  binary.Read rounds rb (length a) = Returns (None, a, advanced rb (len a)).
Proof.
  intros Hh Hr. unfold binary.Read.
  rewrite (holds_ReadFull rounds rb a rest); try assumption.
  - reflexivity.
  - apply length_replicate.
Qed.

(** With fewer bytes left than asked for, the read ends with [io.EOF] when
    nothing is left and with [io.ErrUnexpectedEOF] otherwise; the reader
    is empty afterwards. *)
Lemma holds_binary_Read_short rounds rb s size :
  holds rb s ->
  (length s < size)%nat ->
  (size <= rounds)%nat ->
  binary.Read rounds rb size =
    Returns (Some (if len s =? 0 then io.EOF else io.ErrUnexpectedEOF),
             s ++ replicate (size - length s) x00,
             advanced rb (len s)).
Proof.
  intros [ok E] Hs Hr. unfold binary.Read.
  rewrite ReadFull_ring_cases by (try assumption; rewrite length_replicate; lia).
  rewrite E. unfold len. rewrite length_replicate.
  destruct (Z.leb_spec (Z.of_nat size) (Z.of_nat (length s))); [lia|].
  cbn [mbind outcome_bind]. now rewrite drop_replicate.
Qed.

Lemma header_bytes_length bo type misc size :
  length (header_bytes bo type misc size) = 8%nat.
Proof.
  unfold header_bytes. now rewrite !length_app, !asmFacts.put_uint_length.
Qed.

Lemma decode_header_bytes bo type misc size :
  decode_header bo (header_bytes bo type misc size)
  = {| hdr_Type := type mod 2 ^ 32; hdr_Misc := misc mod 2 ^ 16;
       hdr_Size := size mod 2 ^ 16 |}.
Proof.
  unfold decode_header, header_bytes.
  rewrite take_app_length' by now rewrite asmFacts.put_uint_length.
  rewrite drop_app_length' by now rewrite asmFacts.put_uint_length.
  rewrite take_app_length' by now rewrite asmFacts.put_uint_length.
  replace 6%nat with (4 + 2)%nat by reflexivity.
  rewrite <- drop_drop.
  rewrite drop_app_length' by now rewrite asmFacts.put_uint_length.
  rewrite drop_app_length' by now rewrite asmFacts.put_uint_length.
  rewrite take_ge by now rewrite asmFacts.put_uint_length.
  now rewrite !get_put_uint.
Qed.

Lemma header_bytes_len bo type misc size : len (header_bytes bo type misc size) = 8.
Proof. unfold len. now rewrite header_bytes_length. Qed.

Lemma put_uint_len bo n z : len (asm.put_uint bo n z) = Z.of_nat n.
Proof. unfold len. now rewrite asmFacts.put_uint_length. Qed.

Section ReadRecord.

Variable bo : asm.ByteOrder.
Variable rounds : nat.
Variable rb : ringReader.

(** An empty ring: no record, no error, and nothing is consumed. *)
Lemma readRecord_empty :
  holds rb [] ->
  (8 <= rounds)%nat ->
  readRecord bo rounds rb = Returns (None, 0, None, rb).
Proof.
  intros Hh Hr. unfold readRecord.
  rewrite (holds_binary_Read_short rounds rb [] 8) by (try assumption; cbn; lia).
  cbn [mbind outcome_bind]. cbn. now rewrite advanced_0.
Qed.

(** A lost record: its count comes back and its 24 bytes are consumed. *)
Lemma readRecord_lost misc size id lost rest :
  holds rb (record_bytes bo (LostRecord misc size id lost) ++ rest) ->
  0 <= lost < 2 ^ 64 ->
  (16 <= rounds)%nat ->
  readRecord bo rounds rb = Returns (None, lost, None, advanced rb 24)
  /\ holds (advanced rb 24) rest.
Proof.
  intros Hh Hl Hr. cbn [record_bytes] in Hh.
  rewrite <- !app_assoc in Hh.
  pose proof (holds_advanced _ _ _ Hh) as Hh1.
  unfold len in Hh1. rewrite header_bytes_length in Hh1.
  rewrite (app_assoc (asm.put_uint bo 8 id)) in Hh1.
  pose proof (holds_advanced _ _ _ Hh1) as Hh2.
  unfold len in Hh2. rewrite length_app, !asmFacts.put_uint_length in Hh2.
  rewrite advanced_advanced in Hh2.
  change (Z.of_nat 8 + Z.of_nat (8 + 8)) with 24 in Hh2.
  split; [|exact Hh2].
  unfold readRecord.
  rewrite <- (header_bytes_length bo perfRecordLost misc size).
  rewrite (holds_binary_Read rounds rb _ _ Hh)
    by (rewrite header_bytes_length; lia).
  cbn [mbind outcome_bind io.is_EOF].
  rewrite decode_header_bytes. cbn [hdr_Type].
  change (perfRecordLost mod 2 ^ 32 =? perfRecordLost) with true. cbn match.
  unfold readLostRecords.
  replace 16%nat with (length (asm.put_uint bo 8 id ++ asm.put_uint bo 8 lost))
    by now rewrite length_app, !asmFacts.put_uint_length.
  unfold len. rewrite header_bytes_length.
  rewrite (holds_binary_Read rounds _ _ _ Hh1)
    by (rewrite length_app, !asmFacts.put_uint_length; lia).
  cbn [mbind outcome_bind].
  rewrite drop_app_length' by now rewrite asmFacts.put_uint_length.
  rewrite take_ge by now rewrite asmFacts.put_uint_length.
  rewrite get_put_small by (change (256 ^ Z.of_nat 8) with (2 ^ 64); lia).
  rewrite advanced_advanced. unfold len.
  rewrite length_app, !asmFacts.put_uint_length. reflexivity.
Qed.

(** A sample record: its data come back, whatever the header says about
    the size of the record, and [12 + len data] bytes are consumed. *)
Lemma readRecord_sample misc size data rest :
  holds rb (record_bytes bo (SampleRecord misc size data) ++ rest) ->
  len data < 2 ^ 32 ->
  (8 <= rounds)%nat -> (length data <= rounds)%nat ->
  readRecord bo rounds rb
    = Returns (Some {| Data := data |}, 0, None, advanced rb (12 + len data))
  /\ holds (advanced rb (12 + len data)) rest.
Proof.
  intros Hh Hl Hr Hr'. cbn [record_bytes] in Hh.
  rewrite <- !app_assoc in Hh.
  pose proof (holds_advanced _ _ _ Hh) as Hh1.
  rewrite header_bytes_len in Hh1.
  pose proof (holds_advanced _ _ _ Hh1) as Hh2.
  rewrite put_uint_len, advanced_advanced in Hh2.
  change (8 + Z.of_nat 4) with 12 in Hh2.
  pose proof (holds_advanced _ _ _ Hh2) as Hh3.
  rewrite advanced_advanced in Hh3.
  split; [|exact Hh3].
  unfold readRecord.
  rewrite <- (header_bytes_length bo perfRecordSample misc size).
  rewrite (holds_binary_Read rounds rb _ _ Hh)
    by (rewrite header_bytes_length; lia).
  cbn [mbind outcome_bind io.is_EOF].
  rewrite decode_header_bytes, header_bytes_len. cbn [hdr_Type].
  change (perfRecordSample mod 2 ^ 32 =? perfRecordLost) with false.
  change (perfRecordSample mod 2 ^ 32 =? perfRecordSample) with true. cbn match.
  unfold readSample.
  rewrite <- (asmFacts.put_uint_length bo 4 (len data)).
  rewrite (holds_binary_Read rounds _ _ _ Hh1)
    by (rewrite asmFacts.put_uint_length; lia).
  cbn [mbind outcome_bind].
  rewrite get_put_small
    by (change (256 ^ Z.of_nat 4) with (2 ^ 32); unfold len in *; lia).
  rewrite put_uint_len, advanced_advanced. change (8 + Z.of_nat 4) with 12.
  rewrite (holds_ReadFull rounds _ data rest); try assumption.
  - cbn [mbind outcome_bind Wrap]. now rewrite advanced_advanced.
  - unfold make_bytes, len. now rewrite length_replicate, Nat2Z.id.
Qed.

(** A header of another type than lost or sample: its 8 bytes are
    consumed and the error names the type. *)
Lemma readRecord_unknown type misc size rest :
  holds rb (header_bytes bo type misc size ++ rest) ->
  0 <= type < 2 ^ 32 ->
  type <> perfRecordLost -> type <> perfRecordSample ->
  (8 <= rounds)%nat ->
  readRecord bo rounds rb
    = Returns (None, 0, Some (ErrMsg ("unknown event type " ++ pretty type)),
               advanced rb 8).
Proof.
  intros Hh Ht Hl Hs Hr. unfold readRecord.
  rewrite <- (header_bytes_length bo type misc size).
  rewrite (holds_binary_Read rounds rb _ _ Hh)
    by (rewrite header_bytes_length; lia).
  cbn [mbind outcome_bind io.is_EOF].
  rewrite decode_header_bytes, header_bytes_len. cbn [hdr_Type].
  rewrite (Z.mod_small type) by lia.
  destruct (Z.eqb_spec type perfRecordLost); [contradiction|].
  destruct (Z.eqb_spec type perfRecordSample); [contradiction|].
  reflexivity.
Qed.

(** Less than a header is left: the bytes are consumed and the error is
    [io.ErrUnexpectedEOF], wrapped. *)
Lemma readRecord_short_header s :
  holds rb s ->
  (0 < length s < 8)%nat ->
  (8 <= rounds)%nat ->
  readRecord bo rounds rb
    = Returns (None, 0, Some (ErrWrap io.ErrUnexpectedEOF "can't read event header"),
               advanced rb (len s)).
Proof.
  intros Hh Hs Hr. unfold readRecord.
  rewrite (holds_binary_Read_short rounds rb s 8) by (try assumption; lia).
  cbn [mbind outcome_bind].
  destruct (Z.eqb_spec (len s) 0) as [E|E]; [unfold len in E; lia|].
  reflexivity.
Qed.

(** A sample whose size field promises more bytes than the ring holds: no
    sample comes back, the ring is consumed to its end, and the error is
    [io.EOF] when no byte of the data was there, [io.ErrUnexpectedEOF]
    otherwise, wrapped. *)
Lemma readRecord_short_sample misc size n data :
  holds rb (header_bytes bo perfRecordSample misc size
              ++ asm.put_uint bo 4 n ++ data) ->
  len data < n < 2 ^ 32 ->
  (8 <= rounds)%nat -> (Z.to_nat n <= rounds)%nat ->
  readRecord bo rounds rb
    = Returns (None, 0,
               Some (ErrWrap (if len data =? 0 then io.EOF else io.ErrUnexpectedEOF)
                             "can't read sample"),
               advanced rb (12 + len data)).
Proof.
  intros Hh Hn Hr Hr'.
  pose proof (holds_advanced _ _ _ Hh) as Hh1.
  rewrite header_bytes_len in Hh1.
  pose proof (holds_advanced _ _ _ Hh1) as Hh2.
  rewrite put_uint_len, advanced_advanced in Hh2.
  change (8 + Z.of_nat 4) with 12 in Hh2.
  unfold readRecord.
  rewrite <- (header_bytes_length bo perfRecordSample misc size).
  rewrite (holds_binary_Read rounds rb _ _ Hh)
    by (rewrite header_bytes_length; lia).
  cbn [mbind outcome_bind io.is_EOF].
  rewrite decode_header_bytes, header_bytes_len. cbn [hdr_Type].
  change (perfRecordSample mod 2 ^ 32 =? perfRecordLost) with false.
  change (perfRecordSample mod 2 ^ 32 =? perfRecordSample) with true. cbn match.
  unfold readSample.
  rewrite <- (asmFacts.put_uint_length bo 4 n).
  rewrite (holds_binary_Read rounds _ _ _ Hh1)
    by (rewrite asmFacts.put_uint_length; lia).
  cbn [mbind outcome_bind].
  assert (0 <= len data) by (unfold len; lia).
  rewrite get_put_small by (change (256 ^ Z.of_nat 4) with (2 ^ 32); lia).
  rewrite put_uint_len, advanced_advanced. change (8 + Z.of_nat 4) with 12.
  destruct Hh2 as [ok2 E2].
  rewrite ReadFull_ring_cases
    by (try assumption; unfold make_bytes; rewrite length_replicate; lia).
  rewrite E2.
  replace (len (make_bytes n)) with n
    by (unfold make_bytes, len; rewrite length_replicate; lia).
  destruct (Z.leb_spec n (len data)); [lia|].
  cbn [mbind outcome_bind Wrap]. now rewrite advanced_advanced.
Qed.

End ReadRecord.

(** ** Flushing a ring *)

Lemma uint64_add_l a b : uint64 (uint64 a + b) = uint64 (a + b).
Proof. unfold uint64. apply Z.add_mod_idemp_l. lia. Qed.

Lemma record_bytes_length bo r :
  length (record_bytes bo r)
  = match r with
    | LostRecord _ _ _ _ => 24%nat
    | SampleRecord _ _ data => (12 + length data)%nat
    end.
Proof.
  destruct r; cbn [record_bytes];
    rewrite !length_app, header_bytes_length, !asmFacts.put_uint_length; lia.
Qed.

Lemma stream_app bo rs1 rs2 : stream bo (rs1 ++ rs2) = stream bo rs1 ++ stream bo rs2.
Proof. induction rs1 as [|r rs1 IH]; cbn; [reflexivity|]. now rewrite IH, app_assoc. Qed.

Lemma total_lost_app rs1 rs2 : total_lost (rs1 ++ rs2) = total_lost rs1 + total_lost rs2.
Proof. induction rs1 as [|r rs1 IH]; cbn; lia. Qed.

Lemma total_lost_nonneg rs : Forall record_ok rs -> 0 <= total_lost rs.
Proof.
  induction 1 as [|r rs Hr _ IH]; cbn; [lia|].
  destruct r; cbn in *; lia.
Qed.

Section FlushLoop.

Variable bo : asm.ByteOrder.
Variable rounds : nat.
Hypothesis rounds_header : (16 <= rounds)%nat.

(** The loop goes through well-formed records one by one: it adds up the
    lost counts and sends the samples for which the send is the case that
    runs. *)
Lemma flushRing_loop_records rs : forall n rd rest totalLost ready sent,
  holds rd (stream bo rs ++ rest) ->
  Forall record_ok rs ->
  (length (stream bo rs) <= rounds)%nat ->
  (sample_count rs <= length ready)%nat ->
  0 <= totalLost < 2 ^ 64 ->
  flushRing_loop bo rounds (length rs + n) rd totalLost ready sent
  = flushRing_loop bo rounds n
      (advanced rd (len (stream bo rs)))
      (uint64 (totalLost + total_lost rs))
      (drop (sample_count rs) ready)
      (sent ++ samples_sent rs ready).
Proof.
  induction rs as [|r rs IH]; intros n rd rest totalLost ready sent Hh Hok Hlen Hrdy Ht.
  - cbn. now rewrite advanced_0, Z.add_0_r, uint64_small, app_nil_r.
  - apply Forall_cons in Hok as [Hr Hok].
    cbn [stream] in Hh, Hlen. rewrite <- app_assoc in Hh.
    rewrite length_app, record_bytes_length in Hlen.
    cbn [length Nat.add flushRing_loop stream total_lost].
    assert (len (record_bytes bo r ++ stream bo rs)
            = len (record_bytes bo r) + len (stream bo rs)) as El
        by (unfold len; rewrite length_app; lia).
    rewrite El. unfold len at 1. rewrite record_bytes_length.
    destruct r as [misc size id lost|misc size data]; cbn [record_ok lost_of] in *.
    + destruct (readRecord_lost bo rounds rd misc size id lost _ Hh) as [E Hh'];
        [lia|lia|].
      rewrite E. cbn [mbind outcome_bind].
      replace (lost >? 0) with true by (symmetry; apply Z.gtb_lt; lia).
      rewrite (IH n _ rest) by (try assumption; try lia; apply Z.mod_pos_bound; lia).
      rewrite advanced_advanced, uint64_add_l, Z.add_assoc. reflexivity.
    + destruct (readRecord_sample bo rounds rd misc size data _ Hh) as [E Hh'];
        [lia|lia|lia|].
      rewrite E. cbn [mbind outcome_bind Z.gtb Z.compare].
      cbn [sample_count] in Hrdy.
      replace (Z.of_nat (12 + length data)) with (12 + len data) by (unfold len; lia).
      destruct ready as [|[] ready]; cbn [length] in Hrdy; [lia| |].
      * rewrite (IH n _ rest) by (try assumption; lia).
        cbn [samples_sent sample_count drop].
        rewrite advanced_advanced, <- app_assoc. reflexivity.
      * rewrite (IH n _ rest) by (try assumption; lia).
        cbn [samples_sent sample_count drop].
        rewrite advanced_advanced. reflexivity.
Qed.

Lemma flushRing_loop_start rs n rd rest ready :
  holds rd (stream bo rs ++ rest) ->
  Forall record_ok rs ->
  (length (stream bo rs) <= rounds)%nat ->
  (sample_count rs <= length ready)%nat ->
  (length rs + n = rounds)%nat ->
  flushRing_loop bo rounds rounds rd 0 ready []
  = flushRing_loop bo rounds n
      (advanced rd (len (stream bo rs)))
      (uint64 (total_lost rs))
      (drop (sample_count rs) ready)
      (samples_sent rs ready).
Proof.
  intros Hh Hok Hlen Hrdy Hn.
  rewrite <- Hn at 2.
  rewrite (flushRing_loop_records rs n rd rest 0 ready []) by (try assumption; lia).
  reflexivity.
Qed.

End FlushLoop.

Lemma stream_records_length bo rs : (12 * length rs <= length (stream bo rs))%nat.
Proof.
  induction rs as [|r rs IH]; cbn [stream length]; [lia|].
  rewrite length_app, record_bytes_length. destruct r; lia.
Qed.

(** The counter after a flush that gathered [total]. *)
Lemma lostSamples_added lostSamples total :
  0 <= lostSamples < 2 ^ 64 ->
  (if uint64 total >? 0 then uint64 (lostSamples + uint64 total) else lostSamples)
  = uint64 (lostSamples + total).
Proof.
  intros H. unfold uint64.
  pose proof (Z.mod_pos_bound total (2 ^ 64) ltac:(lia)).
  destruct (Z.gtb_spec (total mod 2 ^ 64) 0) as [G|G].
  - apply Z.add_mod_idemp_r. lia.
  - assert (E : total mod 2 ^ 64 = 0) by lia.
    rewrite <- Z.add_mod_idemp_r, E, Z.add_0_r by lia.
    symmetry. now apply Z.mod_small.
Qed.

Lemma holds_length rb s : holds rb s -> len s = head rb - tail rb.
Proof.
  intros [ok E]. rewrite <- E. apply (unread_length rb ok).
Qed.

(** What [flushRing] makes of the end of its loop. *)
Lemma flushRing_returns bo rounds lostSamples meta ring ready rd total ready' sent :
  flushRing_loop bo rounds rounds (newRingReader meta ring) 0 ready []
    = Returns (None, rd, uint64 total, ready', sent) ->
  0 <= lostSamples < 2 ^ 64 ->
  flushRing bo rounds lostSamples meta ring ready
    = Returns {| fl_err := None; fl_meta := ringReader_Close rd;
                 fl_lostSamples := uint64 (lostSamples + total);
                 fl_ready := ready'; fl_sent := sent |}.
Proof.
  intros E H. unfold flushRing. rewrite E. cbn [mbind outcome_bind].
  now rewrite lostSamples_added.
Qed.

Lemma flushRing_loop_drains bo rounds rd rs ready :
  holds rd (stream bo rs) ->
  Forall record_ok rs ->
  (16 + length (stream bo rs) <= rounds)%nat ->
  (sample_count rs <= length ready)%nat ->
  flushRing_loop bo rounds rounds rd 0 ready []
    = Returns (None, advanced rd (head rd - tail rd), uint64 (total_lost rs),
               drop (sample_count rs) ready, samples_sent rs ready).
Proof.
  intros Hh Hok Hr Hrdy.
  pose proof (stream_records_length bo rs) as Hl.
  pose proof (holds_length _ _ Hh) as L.
  rewrite <- (app_nil_r (stream bo rs)) in Hh.
  rewrite (flushRing_loop_start bo rounds ltac:(lia) rs (rounds - length rs) rd []
             ready Hh Hok) by lia.
  apply holds_advanced in Hh.
  destruct (rounds - length rs)%nat as [|n] eqn:En; [lia|].
  cbn [flushRing_loop].
  rewrite (readRecord_empty bo rounds _ Hh) by lia.
  cbn [mbind outcome_bind]. now rewrite L.
Qed.

Lemma samples_sent_all rs : forall ready,
  samples_sent rs (replicate (sample_count rs) true ++ ready) = samples_of rs.
Proof.
  induction rs as [|[misc size id lost|misc size data] rs IH]; intros ready;
    cbn [samples_sent sample_count samples_of replicate app]; [reflexivity|apply IH|].
  now rewrite IH.
Qed.

Lemma samples_sent_none rs : forall ready,
  samples_sent rs (replicate (sample_count rs) false ++ ready) = [].
Proof.
  induction rs as [|[misc size id lost|misc size data] rs IH]; intros ready;
    cbn [samples_sent sample_count replicate app]; [reflexivity|apply IH|apply IH].
Qed.

Lemma ringReader_Close_advanced meta ring n :
  ringReader_Close (advanced (newRingReader meta ring) n)
  = with_dataTail meta (dataTail meta + n).
Proof. reflexivity. Qed.

(** * Further properties of the code *)

(** Discharges [holds rb s] for a concrete reader over a ring of 64 bytes. *)
Ltac concrete_ring :=
  split;
  [ constructor;
    [ exists 6; split; [lia | reflexivity]
    | reflexivity
    | reflexivity
    | vm_compute; split; discriminate
    | reflexivity
    | reflexivity ]
  | vm_compute; reflexivity ].

(** ** The ring reader *)



(** X2: filling a buffer with [io.ReadFull], as [readRecord] does, gives
    the next unread bytes in the order in which they were written, also
    when they lie across the end of the ring, and no error, also when the
    last unread byte is taken.  When fewer bytes are unread than the buffer
    has room for, all of them are taken, the rest of the buffer is left
    alone and the error is [io.EOF] if nothing was unread and
    [io.ErrUnexpectedEOF] otherwise. *)
Theorem ReadFull_ring rounds rb buf s :
  holds rb s ->
  (length buf <= rounds)%nat ->
  io.ReadFull rounds rb buf =
    if len buf <=? len s
    then Returns (len buf, None, take (length buf) s, advanced rb (len buf))
    else Returns (len s,
                  Some (if len s =? 0 then io.EOF else io.ErrUnexpectedEOF),
                  s ++ drop (length s) buf,
                  advanced rb (len s)).
Proof.
  intros [ok E] Hr. rewrite <- E. now apply ReadFull_ring_cases.
Qed.

Lemma ReadFull_ring_witness :
  holds (newRingReader example_meta example_ring) example_stream /\
  (length (replicate 20 xff) <= 20)%nat /\
  io.ReadFull 20 (newRingReader example_meta example_ring) (replicate 20 xff)
  = Returns (20, None, take 20 example_stream,
             advanced (newRingReader example_meta example_ring) 20).
Proof.
  assert (H : holds (newRingReader example_meta example_ring) example_stream)
    by concrete_ring.
  assert (L : (length (replicate 20 xff) <= 20)%nat) by (vm_compute; lia).
  split; [exact H|]. split; [exact L|].
  exact (ReadFull_ring 20 (newRingReader example_meta example_ring)
           (replicate 20 xff) example_stream H L).
Defined.

(** X3: a reader whose head is behind its tail, by up to [2^63], panics in
    every [Read], whatever the buffer: the number of bytes to take becomes
    negative and the slice expression is out of range. *)
Theorem ringReader_Read_head_behind rb p k :
  0 <= k -> len (ring rb) = 2 ^ k -> len (ring rb) < 2 ^ 63 ->
  mask rb = len (ring rb) - 1 ->
  0 <= head rb < tail rb -> tail rb < 2 ^ 64 ->
  tail rb - head rb <= 2 ^ 63 ->
  ringReader_Read rb p = Panics "slice bounds out of range".
Proof.
  intros Hk Hcap Hint Hmask Hh Ht Hd.
  assert (Hc : 0 < len (ring rb)) by (rewrite Hcap; apply Z.pow_pos_nonneg; lia).
  assert (Hland : Z.land (tail rb) (mask rb) = tail rb mod len (ring rb)).
  { rewrite Hmask, Hcap.
    replace (2 ^ k - 1) with (Z.pred (2 ^ k)) by lia.
    rewrite <- Z.ones_equiv. apply Z.land_ones. lia. }
  pose proof (Z.mod_pos_bound (tail rb) (len (ring rb)) Hc) as Hs.
  unfold ringReader_Read. rewrite Hland.
  set (start := tail rb mod len (ring rb)) in *.
  rewrite (int64_small start) by lia.
  rewrite (int64_small (len (ring rb) - start)) by lia.
  assert (Hrem : int64 (uint64 (head rb - tail rb)) = head rb - tail rb).
  { unfold int64, signed, uint64.
    rewrite Z.mod_mod by lia.
    replace ((head rb - tail rb) mod 2 ^ 64) with (head rb - tail rb + 2 ^ 64).
    - change (2 ^ (64 - 1)) with (2 ^ 63).
      destruct (Z.ltb_spec (head rb - tail rb + 2 ^ 64) (2 ^ 63)); lia.
    - symmetry. rewrite <- (Z.mod_add _ 1) by lia.
      apply Z.mod_small. lia. }
  rewrite Hrem.
  assert (Hp : 0 <= len p) by (unfold len; lia).
  set (n1 := if len p >? len (ring rb) - start then len (ring rb) - start else len p).
  assert (Hn1 : 0 <= n1).
  { unfold n1. destruct (Z.gtb_spec (len p) (len (ring rb) - start)); lia. }
  destruct (Z.gtb_spec n1 (head rb - tail rb)); [|lia].
  rewrite (int64_small (start + (head rb - tail rb))) by lia.
  unfold slice.
  destruct (Z.leb_spec 0 start); [|lia].
  destruct (Z.leb_spec start (start + (head rb - tail rb))); [lia|].
  reflexivity.
Qed.

Lemma ringReader_Read_head_behind_witness :
  ringReader_Read
    {| rr_meta := example_meta; head := 40; tail := 48; mask := 63;
       ring := example_ring |} [x00; x00]
  = Panics "slice bounds out of range".
Proof.
  apply (ringReader_Read_head_behind
           {| rr_meta := example_meta; head := 40; tail := 48; mask := 63;
              ring := example_ring |} [x00; x00] 6).
  - lia.
  - reflexivity.
  - reflexivity.
  - reflexivity.
  - simpl. lia.
  - simpl. lia.
  - simpl. lia.
Defined.

(** ** Reading records *)

(** X4: a record as the kernel writes it is read back by [readRecord]: a
    lost record gives its count and no sample, a sample record gives its
    data and the count zero; there is no error; exactly the bytes of the
    record are consumed and what follows it stays unread.  The fields
    [Misc] and [Size] of the header play no part: the length of a sample
    is its own size field. *)
Theorem readRecord_reads_record bo rounds rb r rest :
  holds rb (record_bytes bo r ++ rest) ->
  record_fits r ->
  (16 <= rounds)%nat ->
  (length (record_bytes bo r) <= rounds)%nat ->
  readRecord bo rounds rb
    = Returns (sample_of r, lost_of r, None,
               advanced rb (len (record_bytes bo r)))
  /\ holds (advanced rb (len (record_bytes bo r))) rest.
Proof.
  intros Hh Hf Hr Hl. unfold len. rewrite record_bytes_length in *.
  destruct r as [misc size id lost|misc size data]; cbn [record_fits] in Hf.
  - apply (readRecord_lost bo rounds rb misc size id lost rest Hh Hf). lia.
  - replace (Z.of_nat (12 + length data)) with (12 + len data) by (unfold len; lia).
    apply (readRecord_sample bo rounds rb misc size data rest Hh Hf); lia.
Qed.

Lemma readRecord_reads_record_witness :
  holds (newRingReader example_meta example_ring)
        (record_bytes asm.LittleEndian (LostRecord 0 24 1 3)
           ++ record_bytes asm.LittleEndian (SampleRecord 0 16 [x01; x02; x03; x04])) /\
  readRecord asm.LittleEndian 32 (newRingReader example_meta example_ring)
    = Returns (None, 3, None, advanced (newRingReader example_meta example_ring) 24)
  /\ holds (advanced (newRingReader example_meta example_ring) 24)
           (record_bytes asm.LittleEndian (SampleRecord 0 16 [x01; x02; x03; x04])).
Proof.
  assert (H : holds (newRingReader example_meta example_ring)
                (record_bytes asm.LittleEndian (LostRecord 0 24 1 3)
                   ++ record_bytes asm.LittleEndian
                        (SampleRecord 0 16 [x01; x02; x03; x04])))
    by concrete_ring.
  split; [exact H|].
  apply (readRecord_reads_record asm.LittleEndian 32
           (newRingReader example_meta example_ring) (LostRecord 0 24 1 3) _ H).
  - simpl. lia.
  - lia.
  - vm_compute. lia.
Defined.

(** X5: on a ring without unread bytes [readRecord] gives no sample, the
    count zero and no error, and the reader stays as it is. *)
Theorem readRecord_nothing_unread bo rounds rb :
  holds rb [] ->
  (8 <= rounds)%nat ->
  readRecord bo rounds rb = Returns (None, 0, None, rb).
Proof. apply readRecord_empty. Qed.

Lemma readRecord_nothing_unread_witness :
  readRecord asm.LittleEndian 8
             (newRingReader (with_dataTail example_meta 88) example_ring)
  = Returns (None, 0, None, newRingReader (with_dataTail example_meta 88) example_ring).
Proof.
  apply (readRecord_nothing_unread asm.LittleEndian 8
           (newRingReader (with_dataTail example_meta 88) example_ring)).
  - concrete_ring.
  - lia.
Defined.

(** X6: a header whose type is neither 2 (lost) nor 9 (sample) makes
    [readRecord] return the error "unknown event type" with the type in
    decimal; the eight bytes of the header are consumed, the body of the
    record is not. *)
Theorem readRecord_unknown_type bo rounds rb type misc size rest :
  holds rb (header_bytes bo type misc size ++ rest) ->
  0 <= type < 2 ^ 32 ->
  type <> perfRecordLost -> type <> perfRecordSample ->
  (8 <= rounds)%nat ->
  readRecord bo rounds rb
    = Returns (None, 0, Some (ErrMsg ("unknown event type " ++ pretty type)),
               advanced rb 8)
  /\ holds (advanced rb 8) rest.
Proof.
  intros Hh Ht Hl Hs Hr. split.
  - now apply (readRecord_unknown bo rounds rb type misc size rest).
  - apply holds_advanced in Hh. now rewrite header_bytes_len in Hh.
Qed.

Lemma readRecord_unknown_type_witness :
  readRecord asm.LittleEndian 8
             (newRingReader (meta_with (header_bytes asm.LittleEndian 7 0 8))
                            (ring_with (header_bytes asm.LittleEndian 7 0 8)))
    = Returns (None, 0, Some (ErrMsg "unknown event type 7"),
               advanced (newRingReader (meta_with (header_bytes asm.LittleEndian 7 0 8))
                                       (ring_with (header_bytes asm.LittleEndian 7 0 8))) 8)
  /\ holds (advanced (newRingReader (meta_with (header_bytes asm.LittleEndian 7 0 8))
                                    (ring_with (header_bytes asm.LittleEndian 7 0 8))) 8)
           [].
Proof.
  apply (readRecord_unknown_type asm.LittleEndian 8
           (newRingReader (meta_with (header_bytes asm.LittleEndian 7 0 8))
                          (ring_with (header_bytes asm.LittleEndian 7 0 8)))
           7 0 8 []).
  - concrete_ring.
  - lia.
  - discriminate.
  - discriminate.
  - lia.
Defined.

(** X7: when the ring holds some bytes but fewer than the eight of a
    header, [readRecord] consumes them and returns [io.ErrUnexpectedEOF]
    wrapped with "can't read event header". *)
Theorem readRecord_truncated_header bo rounds rb s :
  holds rb s ->
  (0 < length s < 8)%nat ->
  (8 <= rounds)%nat ->
  readRecord bo rounds rb
    = Returns (None, 0,
               Some (ErrWrap io.ErrUnexpectedEOF "can't read event header"),
               advanced rb (len s))
  /\ holds (advanced rb (len s)) [].
Proof.
  intros Hh Hs Hr. split.
  - now apply readRecord_short_header.
  - rewrite <- (app_nil_r s) in Hh. now apply holds_advanced in Hh.
Qed.

Lemma readRecord_truncated_header_witness :
  readRecord asm.LittleEndian 8
             (newRingReader (meta_with [x09; x00; x00]) (ring_with [x09; x00; x00]))
    = Returns (None, 0,
               Some (ErrWrap io.ErrUnexpectedEOF "can't read event header"),
               advanced (newRingReader (meta_with [x09; x00; x00])
                                       (ring_with [x09; x00; x00]))
                        (len [x09; x00; x00]))
  /\ holds (advanced (newRingReader (meta_with [x09; x00; x00])
                                    (ring_with [x09; x00; x00]))
                     (len [x09; x00; x00])) [].
Proof.
  apply (readRecord_truncated_header asm.LittleEndian 8
           (newRingReader (meta_with [x09; x00; x00]) (ring_with [x09; x00; x00]))
           [x09; x00; x00]).
  - concrete_ring.
  - simpl. lia.
  - lia.
Defined.

(** X8: a sample record whose size field announces more bytes than the
    ring holds after it gives no sample: [readRecord] consumes the ring to
    its end and returns an error wrapped with "can't read sample", which
    is [io.EOF] when not one byte of the data was there and
    [io.ErrUnexpectedEOF] otherwise. *)
Theorem readRecord_truncated_sample bo rounds rb misc size n data :
  holds rb (header_bytes bo perfRecordSample misc size
              ++ asm.put_uint bo 4 n ++ data) ->
  len data < n < 2 ^ 32 ->
  (8 <= rounds)%nat -> (Z.to_nat n <= rounds)%nat ->
  readRecord bo rounds rb
    = Returns (None, 0,
               Some (ErrWrap (if len data =? 0 then io.EOF else io.ErrUnexpectedEOF)
                             "can't read sample"),
               advanced rb (12 + len data))
  /\ tail (advanced rb (12 + len data)) = head rb.
Proof.
  intros Hh Hn Hr Hr'. split.
  - now apply (readRecord_short_sample bo rounds rb misc size n data).
  - apply holds_length in Hh. unfold len in *.
    rewrite !length_app, header_bytes_length, asmFacts.put_uint_length in Hh.
    cbn [tail advanced]. lia.
Qed.

Lemma readRecord_truncated_sample_witness :
  readRecord asm.LittleEndian 8
             (newRingReader (meta_with stream_short_sample)
                            (ring_with stream_short_sample))
    = Returns (None, 0,
               Some (ErrWrap (if len [x01; x02] =? 0
                              then io.EOF else io.ErrUnexpectedEOF)
                             "can't read sample"),
               advanced (newRingReader (meta_with stream_short_sample)
                                       (ring_with stream_short_sample))
                        (12 + len [x01; x02]))
  /\ tail (advanced (newRingReader (meta_with stream_short_sample)
                                   (ring_with stream_short_sample))
                    (12 + len [x01; x02]))
     = head (newRingReader (meta_with stream_short_sample)
                           (ring_with stream_short_sample)).
Proof.
  apply (readRecord_truncated_sample asm.LittleEndian 8
           (newRingReader (meta_with stream_short_sample)
                          (ring_with stream_short_sample))
           0 20 8 [x01; x02]).
  - concrete_ring.
  - vm_compute. split; reflexivity.
  - lia.
  - simpl. lia.
Defined.

(** ** Flushing a ring *)

(** X9: when the unread part of a ring is a sequence of whole records, each
    a lost record with a count of at least one or a sample, [flushRing]
    returns no error and consumes all of them: the tail that it commits is
    the head.  The counter of lost samples grows by the sum of the lost
    counts, modulo [2^64].  Each sample takes one [select]; the samples
    sent are those whose [select] ran the send, in the order of the
    ring. *)
Theorem flushRing_drains bo rounds lostSamples meta ring rs ready :
  holds (newRingReader meta ring) (stream bo rs) ->
  Forall record_ok rs ->
  (16 + length (stream bo rs) <= rounds)%nat ->
  (sample_count rs <= length ready)%nat ->
  0 <= lostSamples < 2 ^ 64 ->
  flushRing bo rounds lostSamples meta ring ready
    = Returns {| fl_err := None;
                 fl_meta := with_dataTail meta (dataHead meta);
                 fl_lostSamples := uint64 (lostSamples + total_lost rs);
                 fl_ready := drop (sample_count rs) ready;
                 fl_sent := samples_sent rs ready |}.
Proof.
  intros Hh Hok Hr Hrdy Hl.
  rewrite (flushRing_returns _ _ _ _ _ _ _ _ _ _
             (flushRing_loop_drains bo rounds _ rs ready Hh Hok Hr Hrdy) Hl).
  rewrite ringReader_Close_advanced. cbn [head tail newRingReader].
  now rewrite Z.add_comm, Z.sub_add.
Qed.

Lemma flushRing_drains_witness :
  flushRing asm.LittleEndian 64 5 example_meta example_ring [true]
    = Returns {| fl_err := None;
                 fl_meta := with_dataTail example_meta (dataHead example_meta);
                 fl_lostSamples := uint64 (5 + total_lost example_records);
                 fl_ready := drop (sample_count example_records) [true];
                 fl_sent := samples_sent example_records [true] |}.
Proof.
  apply (flushRing_drains asm.LittleEndian 64 5 example_meta example_ring
           example_records [true]).
  - concrete_ring.
  - repeat constructor; vm_compute; reflexivity.
  - vm_compute. lia.
  - simpl. lia.
  - lia.
Defined.

(** X10: when the consumer takes every sample, that is, every [select]
    runs the send, [flushRing] sends all the samples of the ring, in the
    order in which the kernel wrote them, and nothing else. *)
Theorem flushRing_sends_all bo rounds lostSamples meta ring rs ready :
  holds (newRingReader meta ring) (stream bo rs) ->
  Forall record_ok rs ->
  (16 + length (stream bo rs) <= rounds)%nat ->
  0 <= lostSamples < 2 ^ 64 ->
  exists f,
    flushRing bo rounds lostSamples meta ring
              (replicate (sample_count rs) true ++ ready) = Returns f /\
    fl_err f = None /\
    fl_sent f = samples_of rs /\
    fl_ready f = ready.
Proof.
  intros Hh Hok Hr Hl.
  assert (Hrdy : (sample_count rs
                  <= length (replicate (sample_count rs) true ++ ready))%nat)
    by (rewrite length_app, length_replicate; lia).
  eexists. split.
  - apply (flushRing_returns _ _ _ _ _ _ _ _ _ _
             (flushRing_loop_drains bo rounds _ rs _ Hh Hok Hr Hrdy) Hl).
  - cbn [fl_err fl_sent fl_ready]. split; [reflexivity|]. split.
    + apply samples_sent_all.
    + rewrite drop_app_length'; [reflexivity|now rewrite length_replicate].
Qed.

Lemma flushRing_sends_all_witness :
  exists f,
    flushRing asm.LittleEndian 64 5 example_meta example_ring
              (replicate (sample_count example_records) true ++ [false]) = Returns f /\
    fl_err f = None /\
    fl_sent f = samples_of example_records /\
    fl_ready f = [false].
Proof.
  apply (flushRing_sends_all asm.LittleEndian 64 5 example_meta example_ring
           example_records [false]).
  - concrete_ring.
  - repeat constructor; vm_compute; reflexivity.
  - vm_compute. lia.
  - lia.
Defined.

(** X11: once the reader is being stopped, so that every [select] runs the
    receive on [stopWriter], the loop of [flushRing] goes on: it sends no
    sample, yet it consumes every record and commits the head as the new
    tail.  The samples left in the ring are dropped, and they are not
    counted as lost: the counter grows by the lost counts of the lost
    records only. *)
Theorem flushRing_stopped_drops_samples bo rounds lostSamples meta ring rs ready :
  holds (newRingReader meta ring) (stream bo rs) ->
  Forall record_ok rs ->
  (16 + length (stream bo rs) <= rounds)%nat ->
  0 <= lostSamples < 2 ^ 64 ->
  flushRing bo rounds lostSamples meta ring
            (replicate (sample_count rs) false ++ ready)
    = Returns {| fl_err := None;
                 fl_meta := with_dataTail meta (dataHead meta);
                 fl_lostSamples := uint64 (lostSamples + total_lost rs);
                 fl_ready := ready;
                 fl_sent := [] |}.
Proof.
  intros Hh Hok Hr Hl.
  assert (Hrdy : (sample_count rs
                  <= length (replicate (sample_count rs) false ++ ready))%nat)
    by (rewrite length_app, length_replicate; lia).
  rewrite (flushRing_returns _ _ _ _ _ _ _ _ _ _
             (flushRing_loop_drains bo rounds _ rs _ Hh Hok Hr Hrdy) Hl).
  rewrite ringReader_Close_advanced, samples_sent_none.
  rewrite drop_app_length' by now rewrite length_replicate.
  cbn [head tail newRingReader]. now rewrite Z.add_comm, Z.sub_add.
Qed.

Lemma flushRing_stopped_drops_samples_witness :
  flushRing asm.LittleEndian 64 5 example_meta example_ring
            (replicate (sample_count example_records) false ++ [])
    = Returns {| fl_err := None;
                 fl_meta := with_dataTail example_meta (dataHead example_meta);
                 fl_lostSamples := uint64 (5 + total_lost example_records);
                 fl_ready := [];
                 fl_sent := [] |}.
Proof.
  apply (flushRing_stopped_drops_samples asm.LittleEndian 64 5 example_meta
           example_ring example_records []).
  - concrete_ring.
  - repeat constructor; vm_compute; reflexivity.
  - vm_compute. lia.
  - lia.
Defined.

(** X12: a lost record whose count is zero ends the flush: [flushRing]
    returns no error, the tail that it commits stands right after that
    record, and the records behind it stay in the ring, unread.  What was
    gathered before it is kept. *)
Theorem flushRing_zero_lost_stops bo rounds lostSamples meta ring rs
        misc size id rest ready :
  holds (newRingReader meta ring)
        (stream bo rs ++ record_bytes bo (LostRecord misc size id 0) ++ rest) ->
  Forall record_ok rs ->
  (16 + length (stream bo rs) <= rounds)%nat ->
  (sample_count rs <= length ready)%nat ->
  0 <= lostSamples < 2 ^ 64 ->
  flushRing bo rounds lostSamples meta ring ready
    = Returns {| fl_err := None;
                 fl_meta := with_dataTail meta
                              (dataTail meta + len (stream bo rs) + 24);
                 fl_lostSamples := uint64 (lostSamples + total_lost rs);
                 fl_ready := drop (sample_count rs) ready;
                 fl_sent := samples_sent rs ready |}
  /\ dataHead meta = dataTail meta + len (stream bo rs) + 24 + len rest.
Proof.
  intros Hh Hok Hr Hrdy Hl.
  pose proof (stream_records_length bo rs) as Hn.
  pose proof (holds_length _ _ Hh) as L.
  split.
  - rewrite <- (Z.add_assoc (dataTail meta)), <- (ringReader_Close_advanced meta ring).
    apply flushRing_returns; [|assumption].
    rewrite (flushRing_loop_start bo rounds ltac:(lia) rs (rounds - length rs) _ _
               ready Hh Hok) by lia.
    apply holds_advanced in Hh.
    destruct (rounds - length rs)%nat as [|n] eqn:En; [lia|].
    cbn [flushRing_loop].
    destruct (readRecord_lost bo rounds _ misc size id 0 rest Hh) as [E _];
      [lia|lia|].
    rewrite E. cbn [mbind outcome_bind Z.gtb Z.compare].
    now rewrite advanced_advanced.
  - cbn [head tail newRingReader] in L. unfold len in *.
    rewrite !length_app, record_bytes_length in L. lia.
Qed.

Lemma flushRing_zero_lost_stops_witness :
  flushRing asm.LittleEndian 64 5 (meta_with stream_zero_lost)
            (ring_with stream_zero_lost) []
    = Returns {| fl_err := None;
                 fl_meta :=
                   with_dataTail (meta_with stream_zero_lost)
                     (dataTail (meta_with stream_zero_lost)
                      + len (stream asm.LittleEndian [LostRecord 0 24 1 3]) + 24);
                 fl_lostSamples := uint64 (5 + total_lost [LostRecord 0 24 1 3]);
                 fl_ready := drop (sample_count [LostRecord 0 24 1 3]) [];
                 fl_sent := samples_sent [LostRecord 0 24 1 3] [] |}
  /\ dataHead (meta_with stream_zero_lost)
     = dataTail (meta_with stream_zero_lost)
       + len (stream asm.LittleEndian [LostRecord 0 24 1 3]) + 24
       + len (record_bytes asm.LittleEndian (SampleRecord 0 16 [x01; x02; x03; x04])).
Proof.
  apply (flushRing_zero_lost_stops asm.LittleEndian 64 5
           (meta_with stream_zero_lost) (ring_with stream_zero_lost)
           [LostRecord 0 24 1 3] 0 24 1
           (record_bytes asm.LittleEndian (SampleRecord 0 16 [x01; x02; x03; x04]))
           []).
  - concrete_ring.
  - repeat constructor; vm_compute; reflexivity.
  - vm_compute. lia.
  - simpl. lia.
  - lia.
Defined.

(** X13: when a record of an unknown type follows well-formed records,
    [flushRing] returns the error of [readRecord], and the counter of lost
    samples is what it was: the counts of the lost records read before the
    error are not added, although those records are consumed, for the tail
    is committed on this path too, right after the header that was
    refused.  The samples read before were sent. *)
Theorem flushRing_error_drops_lost_count bo rounds lostSamples meta ring rs
        type misc size rest ready :
  holds (newRingReader meta ring)
        (stream bo rs ++ header_bytes bo type misc size ++ rest) ->
  Forall record_ok rs ->
  0 <= type < 2 ^ 32 ->
  type <> perfRecordLost -> type <> perfRecordSample ->
  (16 + length (stream bo rs) <= rounds)%nat ->
  (sample_count rs <= length ready)%nat ->
  flushRing bo rounds lostSamples meta ring ready
    = Returns {| fl_err := Some (ErrMsg ("unknown event type " ++ pretty type));
                 fl_meta := with_dataTail meta
                              (dataTail meta + len (stream bo rs) + 8);
                 fl_lostSamples := lostSamples;
                 fl_ready := drop (sample_count rs) ready;
                 fl_sent := samples_sent rs ready |}.
Proof.
  intros Hh Hok Ht Hl Hs Hr Hrdy.
  pose proof (stream_records_length bo rs) as Hn.
  unfold flushRing.
  rewrite (flushRing_loop_start bo rounds ltac:(lia) rs (rounds - length rs) _ _
             ready Hh Hok) by lia.
  apply holds_advanced in Hh.
  destruct (rounds - length rs)%nat as [|n] eqn:En; [lia|].
  cbn [flushRing_loop].
  rewrite (readRecord_unknown bo rounds _ type misc size rest Hh) by (assumption || lia).
  cbn [mbind outcome_bind].
  rewrite advanced_advanced, ringReader_Close_advanced.
  now rewrite Z.add_assoc.
Qed.

Lemma flushRing_error_drops_lost_count_witness :
  flushRing asm.LittleEndian 64 5 (meta_with stream_unknown)
            (ring_with stream_unknown) []
    = Returns {| fl_err := Some (ErrMsg ("unknown event type " ++ pretty 7));
                 fl_meta :=
                   with_dataTail (meta_with stream_unknown)
                     (dataTail (meta_with stream_unknown)
                      + len (stream asm.LittleEndian [LostRecord 0 24 1 3]) + 8);
                 fl_lostSamples := 5;
                 fl_ready := drop (sample_count [LostRecord 0 24 1 3]) [];
                 fl_sent := samples_sent [LostRecord 0 24 1 3] [] |}.
Proof.
  apply (flushRing_error_drops_lost_count asm.LittleEndian 64 5
           (meta_with stream_unknown) (ring_with stream_unknown)
           [LostRecord 0 24 1 3] 7 0 8
           (record_bytes asm.LittleEndian (SampleRecord 0 16 [x01; x02; x03; x04]))
           []).
  - concrete_ring.
  - repeat constructor; vm_compute; reflexivity.
  - lia.
  - discriminate.
  - discriminate.
  - vm_compute. lia.
  - simpl. lia.
Defined.

(** ** Names and C strings *)

Lemma valid_bytes_no_NUL s : forall i, 0 <= i ->
  first_invalid_byte i s = -1 -> x00 ∉ bytes_of_string s.
Proof.
  induction s as [|c s IH]; intros i Hi H.
  - apply not_elem_of_nil.
  - cbn [first_invalid_byte] in H.
    destruct (invalidBPFObjNameChar (char_val c)) eqn:E; [lia|].
    change (bytes_of_string (String c s))
      with (byte_of_ascii c :: bytes_of_string s).
    apply not_elem_of_cons. split.
    + intros Hc. apply (f_equal ascii_of_byte) in Hc.
      rewrite ascii_of_byte_of_ascii in Hc. subst c. discriminate.
    + apply (IH (i + 1)); [lia|assumption].
Qed.

(** X14: [convertCString] returns the text that stands before the first
    NUL of the buffer, whatever follows it; for the same text without a
    NUL after it, it returns the empty string and not the text. *)
Theorem convertCString_cuts_at_NUL text rest :
  x00 ∉ text ->
  convertCString (text ++ x00 :: rest) = string_of_bytes text /\
  convertCString text = ""%string.
Proof.
  intros H. split.
  - now apply convertCString_text.
  - now apply convertCString_no_NUL.
Qed.

Lemma convertCString_cuts_at_NUL_witness :
  convertCString ([x52; x30] ++ x00 :: [x41; x00]) = string_of_bytes [x52; x30] /\
  convertCString [x52; x30] = ""%string.
Proof.
  apply (convertCString_cuts_at_NUL [x52; x30] [x41; x00]).
  intros H. repeat (apply elem_of_cons in H as [H|H]; [discriminate|]).
  inversion H.
Defined.

(** X15: the object name that [newBPFObjName] makes of a name whose
    characters are all in [A-Za-z0-9_] reads back, with [convertCString],
    as the first 15 bytes of that name: as the name itself when it has at
    most 15 bytes. *)
Theorem newBPFObjName_reads_back name :
  valid_name name ->
  convertCString (newBPFObjName name).1
    = string_of_bytes (take 15 (bytes_of_string name)) /\
  ((String.length name <= 15)%nat ->
   convertCString (newBPFObjName name).1 = name).
Proof.
  intros Hv.
  apply valid_name_iff in Hv. rewrite IndexFunc_first_invalid_byte in Hv.
  pose proof (valid_bytes_no_NUL name 0 ltac:(lia) Hv) as Hn.
  assert (E : convertCString (newBPFObjName name).1
              = string_of_bytes (take 15 (bytes_of_string name))).
  { rewrite newBPFObjName_cases, Hv. cbn [Z.eqb fst].
    assert (L' : (length (take 15 (bytes_of_string name)) <= 15)%nat)
      by (rewrite length_take; lia).
    destruct (16 - length (take 15 (bytes_of_string name)))%nat as [|k] eqn:K; [lia|].
    cbn [replicate]. apply convertCString_text.
    intros Hin. apply Hn. apply elem_of_take in Hin as (i & Hi & _).
    eapply list_elem_of_lookup_2. exact Hi. }
  split; [exact E|].
  intros Hl. rewrite E, take_ge by (rewrite bytes_of_string_length; lia).
  apply string_of_list_byte_of_string.
Qed.

Lemma newBPFObjName_reads_back_witness :
  convertCString (newBPFObjName "feature_test").1
    = string_of_bytes (take 15 (bytes_of_string "feature_test")) /\
  ((String.length "feature_test" <= 15)%nat ->
   convertCString (newBPFObjName "feature_test").1 = "feature_test"%string).
Proof.
  apply (newBPFObjName_reads_back "feature_test").
  apply valid_name_iff. reflexivity.
Defined.

(** ** Loading a program *)

(** X16: when the kernel accepts the program, after being interrupted any
    number of times, [NewProgram] returns the program with the descriptor
    of that answer, the name and the type of the specification, and no
    error.  It has made one load call per answer, all with the same
    attribute, which asks for no verifier log. *)
Theorem NewProgram_first_load_accepted bo spec w0 b w1 attr interrupts r rest :
  Instructions spec <> [] ->
  haveObjName_Result w0 = Returns (b, w1) ->
  convertProgramSpec bo spec b = Returns (Some attr, None) ->
  kernel w1 = interrupts ++ r :: rest ->
  Forall interrupted interrupts ->
  errNo r = 0 ->
  NewProgram bo spec w0 =
    Returns
      ((Some {| fd := uint32 (r1 r); name := Name spec;
                abi := {| abi_Type := Type_ spec |} |}, None),
       {| kernel := rest;
          calls := calls w1
                     ++ replicate (S (length interrupts)) (SysProgLoad attr);
          haveObjName_memo := haveObjName_memo w1 |})
  /\ logLevel attr = 0 /\ logBuf attr = None.
Proof.
  intros Hne Hft Hconv K F R.
  pose proof (convertProgramSpec_attr _ _ _ _ Hconv)
    as (_ & _ & _ & _ & _ & _ & _ & _ & _ & Hlevel & _ & Hbuf).
  split; [|split; assumption].
  unfold NewProgram.
  destruct (Instructions spec) as [|i0 insns] eqn:I; [congruence|].
  cbn [length Nat.eqb]. clear I.
  rewrite (bind_returns _ _ _ _ _ Hft).
  unfold lift at 1, bind at 1. rewrite Hconv.
  assert (NI : ~ interrupted r) by (unfold interrupted; rewrite R; discriminate).
  rewrite (bind_returns _ _ _ _ _
             (bpfProgLoad_run attr w1 interrupts r _ K F NI)).
  rewrite R. cbn [errno_error Z.eqb]. unfold ret.
  rewrite (submissions_no_log attr _ Hbuf), length_app. cbn [length].
  now rewrite Nat.add_1_r.
Qed.

Lemma NewProgram_first_load_accepted_witness :
  NewProgram asm.LittleEndian spec_return0
             (world_of [answer_interrupted; answer_loaded]) =
    Returns
      ((Some {| fd := uint32 (r1 answer_loaded); name := Name spec_return0;
                abi := {| abi_Type := Type_ spec_return0 |} |}, None),
       {| kernel := [];
          calls := calls (world_of [answer_interrupted; answer_loaded])
                     ++ replicate (S (length [answer_interrupted]))
                                  (SysProgLoad attr_return0);
          haveObjName_memo :=
            haveObjName_memo (world_of [answer_interrupted; answer_loaded]) |})
  /\ logLevel attr_return0 = 0 /\ logBuf attr_return0 = None.
Proof.
  apply (NewProgram_first_load_accepted asm.LittleEndian spec_return0
           (world_of [answer_interrupted; answer_loaded]) false
           (world_of [answer_interrupted; answer_loaded])
           attr_return0 [answer_interrupted] answer_loaded []).
  - simpl. discriminate.
  - reflexivity.
  - reflexivity.
  - reflexivity.
  - repeat constructor.
  - reflexivity.
Defined.

(** X17: when the first load is refused and the second load, the one that
    asks for the verifier log, is accepted, [NewProgram] still returns no
    program and an error: a load error whose cause is nil.  The program
    that the kernel has loaded by then is not closed: no call follows the
    second load. *)
Theorem NewProgram_second_load_accepted bo spec w0 b w1 attr r r' rest :
  Instructions spec <> [] ->
  haveObjName_Result w0 = Returns (b, w1) ->
  convertProgramSpec bo spec b = Returns (Some attr, None) ->
  kernel w1 = r :: r' :: rest ->
  errNo r <> EAGAIN -> errNo r <> 0 ->
  errNo r' = 0 ->
  exists log,
    NewProgram bo spec w0 =
      Returns
        ((None, Some (ErrLoad None log)),
         {| kernel := rest;
            calls := calls w1 ++ [SysProgLoad attr; SysProgLoad (logging_attr attr)];
            haveObjName_memo := haveObjName_memo w1 |})
    /\ Cause (Some (ErrLoad None log)) = None.
Proof.
  intros Hne Hft Hconv K R1 Z1 R2.
  eexists. split; [|reflexivity].
  rewrite (NewProgram_failed_load bo spec w0 b w1 attr [] r [] r' rest);
    try assumption; try constructor.
  - rewrite R2. reflexivity.
  - rewrite R2. discriminate.
Qed.

Lemma NewProgram_second_load_accepted_witness :
  exists log,
    NewProgram asm.LittleEndian spec_return0
               (world_of [answer_rejected; answer_loaded]) =
      Returns
        ((None, Some (ErrLoad None log)),
         {| kernel := [];
            calls := calls (world_of [answer_rejected; answer_loaded])
                       ++ [SysProgLoad attr_return0;
                           SysProgLoad (logging_attr attr_return0)];
            haveObjName_memo :=
              haveObjName_memo (world_of [answer_rejected; answer_loaded]) |})
    /\ Cause (Some (ErrLoad None log)) = None.
Proof.
  apply (NewProgram_second_load_accepted asm.LittleEndian spec_return0
           (world_of [answer_rejected; answer_loaded]) false
           (world_of [answer_rejected; answer_loaded])
           attr_return0 answer_rejected answer_loaded []).
  - simpl. discriminate.
  - reflexivity.
  - reflexivity.
  - reflexivity.
  - simpl. unfold EINVAL, EAGAIN. lia.
  - simpl. unfold EINVAL. lia.
  - reflexivity.
Defined.

(** X18: a name with a character outside [A-Za-z0-9_] is refused before
    anything is loaded, and whether or not the kernel knows object names:
    [NewProgram] returns the error of [newBPFObjName] and makes no call
    after the feature test. *)
Theorem NewProgram_invalid_name_not_loaded bo spec w0 b w1 bytecode :
  Instructions spec <> [] ->
  asm.Marshal bo (Instructions spec) = inr bytecode ->
  bytecode <> [] ->
  License spec <> ""%string ->
  ~ valid_name (Name spec) ->
  haveObjName_Result w0 = Returns (b, w1) ->
  NewProgram bo spec w0 = Returns ((None, (newBPFObjName (Name spec)).2), w1)
  /\ (newBPFObjName (Name spec)).2 <> None.
Proof.
  intros Hne Hm Hb Hl Hn Hft.
  assert (Herr : (newBPFObjName (Name spec)).2 <> None)
    by (intros E; now apply Hn, newBPFObjName_accepts_iff).
  split; [|exact Herr].
  unfold NewProgram.
  destruct (Instructions spec) as [|i0 insns] eqn:I; [congruence|].
  cbn [length Nat.eqb].
  rewrite (bind_returns _ _ _ _ _ Hft).
  unfold lift at 1, bind at 1, convertProgramSpec. rewrite I, Hm.
  rewrite (ptr_to_first_nonempty bytecode Hb).
  rewrite ptr_to_first_nonempty
    by (destruct (License spec); [congruence|discriminate]).
  destruct (newBPFObjName (Name spec)) as [nm [e|]]; [reflexivity|].
  now contradict Herr.
Qed.

Lemma NewProgram_invalid_name_not_loaded_witness :
  NewProgram asm.LittleEndian spec_bad_name (world_of [answer_loaded])
    = Returns ((None, (newBPFObjName (Name spec_bad_name)).2),
               world_of [answer_loaded])
  /\ (newBPFObjName (Name spec_bad_name)).2 <> None.
Proof.
  apply (NewProgram_invalid_name_not_loaded asm.LittleEndian spec_bad_name
           (world_of [answer_loaded]) false (world_of [answer_loaded])
           [x18; x00; x00; x00; x00; x00; x00; x00;
            x00; x00; x00; x00; x00; x00; x00; x00;
            x95; x00; x00; x00; x00; x00; x00; x00]).
  - simpl. discriminate.
  - reflexivity.
  - discriminate.
  - simpl. discriminate.
  - intros H. apply newBPFObjName_accepts_iff in H. vm_compute in H. discriminate.
  - reflexivity.
Defined.

(** X19: a specification with an empty license makes [NewProgram] panic
    while it builds the attribute, also when its name would be refused:
    the address of the first byte of the license is taken before the name
    is looked at.  Nothing is loaded. *)
Theorem NewProgram_empty_license_panics bo spec w0 b w1 bytecode :
  Instructions spec <> [] ->
  asm.Marshal bo (Instructions spec) = inr bytecode ->
  bytecode <> [] ->
  License spec = ""%string ->
  haveObjName_Result w0 = Returns (b, w1) ->
  NewProgram bo spec w0 = Panics "index out of range".
Proof.
  intros Hne Hm Hb Hl Hft.
  unfold NewProgram.
  destruct (Instructions spec) as [|i0 insns] eqn:I; [congruence|].
  cbn [length Nat.eqb].
  rewrite (bind_returns _ _ _ _ _ Hft).
  unfold lift at 1, bind at 1, convertProgramSpec. rewrite I, Hm, Hl.
  now rewrite (ptr_to_first_nonempty bytecode Hb).
Qed.

Lemma NewProgram_empty_license_panics_witness :
  NewProgram asm.LittleEndian spec_no_license (world_of [answer_loaded])
    = Panics "index out of range".
Proof.
  apply (NewProgram_empty_license_panics asm.LittleEndian spec_no_license
           (world_of [answer_loaded]) false (world_of [answer_loaded])
           [x18; x00; x00; x00; x00; x00; x00; x00;
            x00; x00; x00; x00; x00; x00; x00; x00;
            x95; x00; x00; x00; x00; x00; x00; x00]).
  - simpl. discriminate.
  - reflexivity.
  - discriminate.
  - reflexivity.
  - reflexivity.
Defined.

(** X20: the kernel version of a specification plays no part in
    [NewProgram]: with any other version the result, the calls made and
    the attributes they carry are the same, and the attribute that is
    loaded has the kernel version zero. *)
Theorem NewProgram_ignores_KernelVersion bo spec v w :
  NewProgram bo (with_KernelVersion spec v) w = NewProgram bo spec w /\
  forall includeName attr,
    convertProgramSpec bo (with_KernelVersion spec v) includeName
      = Returns (Some attr, None) ->
    kernelVersion attr = 0.
Proof.
  split; [reflexivity|].
  intros includeName attr. unfold convertProgramSpec.
  cbn [with_KernelVersion Instructions License Name Type_].
  destruct (asm.Marshal bo (Instructions spec)) as [e|bytecode]; [discriminate|].
  destruct (ptr_to_first bytecode); try discriminate.
  destruct (ptr_to_first (bytes_of_string (License spec))); try discriminate.
  destruct (newBPFObjName (Name spec)) as [nm [e|]]; [discriminate|].
  intros [= <-]. now destruct includeName.
Qed.

Lemma NewProgram_ignores_KernelVersion_witness :
  NewProgram asm.LittleEndian (with_KernelVersion spec_return0 5)
             (world_of [answer_loaded])
    = NewProgram asm.LittleEndian spec_return0 (world_of [answer_loaded]) /\
  kernelVersion attr_return0 = 0.
Proof.
  destruct (NewProgram_ignores_KernelVersion asm.LittleEndian spec_return0 5
              (world_of [answer_loaded])) as [H1 H2].
  split; [exact H1|].
  apply (H2 false attr_return0). reflexivity.
Defined.

(** X21: the feature test [haveObjName] makes one map creation call, for
    an array map of one entry with keys and values of four bytes under the
    name "feature_test".  It reports [true] exactly when the kernel accepts
    the call, and then closes the descriptor that the kernel returned;
    when the kernel refuses, nothing is closed.  (The descriptor is one
    that fits an [int].) *)
Theorem haveObjName_Fn_probe w r rest :
  kernel w = r :: rest ->
  0 <= r1 r < 2 ^ 63 ->
  haveObjName_Fn w =
    Returns (errNo r =? 0,
             {| kernel := rest;
                calls := calls w ++ SysMapCreate haveObjName_attr
                           :: (if errNo r =? 0 then [SysClose (r1 r)] else []);
                haveObjName_memo := haveObjName_memo w |}).
Proof.
  intros K _. unfold haveObjName_Fn.
  change (newBPFObjName "feature_test") with (mapName haveObjName_attr, @None error).
  cbv beta iota. fold haveObjName_attr.
  unfold bpfMapCreate, bind, bpfCall. rewrite K.
  unfold ret, errno_error.
  destruct (errNo r =? 0); cbn [kernel calls haveObjName_memo syscall_Close].
  - now rewrite <- app_assoc.
  - reflexivity.
Qed.

Lemma haveObjName_Fn_probe_witness :
  haveObjName_Fn {| kernel := [answer_loaded]; calls := [];
                    haveObjName_memo := None |} =
    Returns (errNo answer_loaded =? 0,
             {| kernel := [];
                calls := [] ++ SysMapCreate haveObjName_attr
                           :: (if errNo answer_loaded =? 0
                               then [SysClose (r1 answer_loaded)] else []);
                haveObjName_memo := None |}).
Proof.
  apply (haveObjName_Fn_probe
           {| kernel := [answer_loaded]; calls := []; haveObjName_memo := None |}
           answer_loaded []).
  - reflexivity.
  - simpl. lia.
Defined.

(** ** Running a program in the kernel *)

Lemma uint32_fits z : 0 <= z < 2 ^ 32 -> uint32 z = z.
Proof. intros H. unfold uint32. now apply Z.mod_small. Qed.

Lemma copy_length {A} (dst src : list A) : length (copy dst src) = length dst.
Proof. unfold copy. rewrite length_app, length_take, length_drop. lia. Qed.

Lemma test_attr_pointers (in_ : list byte) :
  in_ <> [] ->
  ptr_to_first in_ = Returns (Some in_) /\
  ptr_to_first (make_bytes (len in_ + outputPad))
    = Returns (Some (make_bytes (len in_ + outputPad))).
Proof.
  intros H. split; [now apply ptr_to_first_nonempty|].
  apply ptr_to_first_nonempty, make_bytes_nonempty.
  unfold len, outputPad. lia.
Qed.

(** X22: [testRun] refuses a repeat count that is negative or above
    [2^32 - 1] with "repeat is too high", and otherwise an empty input
    with "missing input".  In both cases nothing else happens: no feature
    test, no system call. *)
Theorem testRun_refuses_arguments bo bpf in_ repeat w :
  - 2 ^ 63 <= repeat < 2 ^ 63 ->
  repeat < 0 \/ MaxUint32 < repeat \/ in_ = [] ->
  testRun bo bpf in_ repeat w
    = Returns ((0, None, 0,
                Some (ErrMsg (if (repeat <? 0) || (MaxUint32 <? repeat)
                              then "repeat is too high" else "missing input"))),
               w).
Proof.
  intros Hr Hbad. unfold testRun, uint64, MaxUint32 in *.
  destruct (Z.ltb_spec repeat 0) as [Hneg|Hpos]; cbn [orb].
  - replace (repeat mod 2 ^ 64) with (repeat + 2 ^ 64).
    + destruct (Z.gtb_spec (repeat + 2 ^ 64) (2 ^ 32 - 1)); [reflexivity|lia].
    + symmetry. rewrite <- (Z.mod_add _ 1) by lia. apply Z.mod_small. lia.
  - rewrite (Z.mod_small repeat) by lia.
    destruct (Z.ltb_spec (2 ^ 32 - 1) repeat) as [Hhigh|Hlow].
    + destruct (Z.gtb_spec repeat (2 ^ 32 - 1)); [reflexivity|lia].
    + destruct (Z.gtb_spec repeat (2 ^ 32 - 1)); [lia|].
      destruct Hbad as [?|[?| ->]]; [lia|lia|]. reflexivity.
Qed.

Lemma testRun_refuses_arguments_witness :
  testRun asm.LittleEndian prog7 [x01] (-1) (test_world [answer_ran])
    = Returns ((0, None, 0,
                Some (ErrMsg (if (-1 <? 0) || (MaxUint32 <? -1)
                              then "repeat is too high" else "missing input"))),
               test_world [answer_ran]).
Proof.
  apply (testRun_refuses_arguments asm.LittleEndian prog7 [x01] (-1)
           (test_world [answer_ran])).
  - lia.
  - left. lia.
Defined.

(** X23: a test run with acceptable arguments, in a process that knows
    that the kernel runs tests, makes one call: for the descriptor of the
    program, the input, the repeat count and an output buffer of
    [len(in) + 258] zero bytes.  If the kernel reports an error, that error
    comes back wrapped with "can't run test", without output.  If not, and
    the size of the output that the kernel reports is more than the
    buffer has, [testRun] panics; else it returns the return value, the
    first bytes of the buffer up to the reported size, the duration, and
    no error. *)
Theorem testRun_runs bo bpf in_ repeat w r rest :
  0 <= repeat <= MaxUint32 ->
  in_ <> [] -> len in_ <= MaxUint32 ->
  noProgTestRun_memo w = Some false ->
  test_kernel w = r :: rest ->
  let attr :=
    {| tr_fd := fd bpf; tr_retval := 0;
       tr_dataSizeIn := len in_;
       tr_dataSizeOut := uint32 (len in_ + outputPad);
       tr_dataIn := Some in_;
       tr_dataOut := Some (make_bytes (len in_ + outputPad));
       tr_repeat := repeat; tr_duration := 0 |} in
  let w' :=
    {| base := base w; test_kernel := rest;
       test_calls := test_calls w ++ [attr];
       noProgTestRun_memo := noProgTestRun_memo w |} in
  testRun bo bpf in_ repeat w =
    if t_errNo r =? 0 then
      if uint32 (t_dataSizeOut r) >? len in_ + outputPad then
        Panics "kernel wrote past end of output buffer"
      else
        Returns ((uint32 (t_retval r),
                  Some (take (Z.to_nat (uint32 (t_dataSizeOut r)))
                             (copy (make_bytes (len in_ + outputPad)) (t_data r))),
                  uint32 (t_duration r), None), w')
    else
      Returns ((0, None, 0,
                Some (ErrWrap (ErrErrno (t_errNo r)) "can't run test")), w').
Proof.
  intros Hr Hin Hlen Hmemo K attr w'.
  assert (Hl : 0 < len in_).
  { unfold len. destruct in_; [congruence|cbn [length]; lia]. }
  destruct (test_attr_pointers in_ Hin) as [P1 P2].
  unfold testRun, uint64, MaxUint32 in *.
  rewrite (Z.mod_small repeat), (Z.mod_small (len in_)) by lia.
  destruct (Z.gtb_spec repeat (2 ^ 32 - 1)); [lia|].
  destruct (Z.eqb_spec (len in_) 0); [lia|].
  destruct (Z.gtb_spec (len in_) (2 ^ 32 - 1)); [lia|].
  unfold mbind at 1, TM_bind at 1, noProgTestRun_Result. rewrite Hmemo.
  unfold mbind at 1, TM_bind at 1, tlift at 1. rewrite P1.
  unfold mbind at 1, TM_bind at 1, tlift at 1. rewrite P2.
  unfold mbind at 1, TM_bind at 1, bpfCall_ProgTestRun. rewrite K.
  assert (Elen : len (make_bytes (len in_ + outputPad)) = len in_ + outputPad).
  { unfold len at 1. apply make_bytes_length. unfold outputPad. lia. }
  rewrite Elen.
  rewrite (uint32_fits repeat), (uint32_fits (len in_)) by lia.
  fold attr. fold w'.
  unfold errno_error.
  destruct (Z.eqb_spec (t_errNo r) 0) as [E0|N0]; [|reflexivity].
  cbn [test_writes tr_dataOut tr_dataSizeOut tr_retval tr_duration attr default].
  assert (Ecopy : len (copy (make_bytes (len in_ + outputPad)) (t_data r))
                  = len in_ + outputPad).
  { unfold len at 1. rewrite copy_length. exact Elen. }
  unfold id. rewrite Ecopy.
  pose proof (Z.mod_pos_bound (t_dataSizeOut r) (2 ^ 32) ltac:(lia)) as Hs.
  fold (uint32 (t_dataSizeOut r)) in Hs.
  destruct (Z.gtb_spec (uint32 (t_dataSizeOut r)) (len in_ + outputPad));
    [reflexivity|].
  rewrite slice_Some by lia.
  rewrite Z.sub_0_r. change (Z.to_nat 0) with 0%nat. rewrite drop_0.
  pose proof (Z.mod_pos_bound (t_duration r) (2 ^ 32) ltac:(lia)) as Hd.
  fold (uint32 (t_duration r)) in Hd.
  rewrite int64_small by lia. reflexivity.
Qed.

Lemma testRun_runs_witness :
  testRun asm.LittleEndian prog7 [x01; x02] 3 (test_world [answer_ran])
  = Returns ((2, Some [x0a; x0b; x0c; x0d], 150, None),
             {| base := world_of []; test_kernel := [];
                test_calls :=
                  [{| tr_fd := 7; tr_retval := 0; tr_dataSizeIn := 2;
                      tr_dataSizeOut := 260;
                      tr_dataIn := Some [x01; x02];
                      tr_dataOut := Some (make_bytes 260);
                      tr_repeat := 3; tr_duration := 0 |}];
                noProgTestRun_memo := Some false |}).
Proof.
  apply (testRun_runs asm.LittleEndian prog7 [x01; x02] 3
           (test_world [answer_ran]) answer_ran []).
  - unfold MaxUint32. lia.
  - discriminate.
  - vm_compute. discriminate.
  - reflexivity.
  - reflexivity.
Defined.

(** X24: the feature test [noProgTestRun], once its probe program is
    loaded, makes one test run of that program with 14 zero bytes of input
    and no output buffer, reports [true] (tests are not supported) exactly
    when the kernel answers [EINVAL], and closes the probe program
    whatever the answer. *)
Theorem noProgTestRun_Fn_closes_probe bo w prog wb r rest :
  NewProgram bo spec_return0 (base w) = Returns ((Some prog, None), wb) ->
  test_kernel w = r :: rest ->
  noProgTestRun_Fn bo w =
    Returns (t_errNo r =? EINVAL,
             {| base := {| kernel := kernel wb;
                           calls := calls wb ++ [SysClose (fd prog)];
                           haveObjName_memo := haveObjName_memo wb |};
                test_kernel := rest;
                test_calls :=
                  test_calls w
                    ++ [{| tr_fd := fd prog; tr_retval := 0;
                           tr_dataSizeIn := 14; tr_dataSizeOut := 0;
                           tr_dataIn := Some (make_bytes 14); tr_dataOut := None;
                           tr_repeat := 0; tr_duration := 0 |}];
                noProgTestRun_memo := noProgTestRun_memo w |}).
Proof.
  intros Hload K. unfold noProgTestRun_Fn.
  unfold mbind at 1, TM_bind at 1, on_base at 1.
  fold spec_return0. rewrite Hload.
  cbn [base test_kernel test_calls noProgTestRun_memo].
  unfold mbind at 1, TM_bind at 1, tlift at 1.
  change (ptr_to_first (make_bytes 14)) with (Returns (Some (make_bytes 14))).
  unfold mbind at 1, TM_bind at 1, bpfCall_ProgTestRun.
  cbn [base test_kernel test_calls noProgTestRun_memo]. rewrite K.
  unfold mbind at 1, TM_bind at 1, on_base, Program_Close, syscall_Close.
  cbn [base test_kernel test_calls noProgTestRun_memo].
  unfold mret, TM_ret. do 2 f_equal.
  unfold errno_error.
  destruct (Z.eqb_spec (t_errNo r) 0) as [E|E].
  - rewrite E. reflexivity.
  - reflexivity.
Qed.

Lemma noProgTestRun_Fn_closes_probe_witness :
  noProgTestRun_Fn asm.LittleEndian
    {| base := world_of [answer_loaded];
       test_kernel := [answer_ran]; test_calls := [];
       noProgTestRun_memo := None |} =
    Returns (t_errNo answer_ran =? EINVAL,
             {| base := {| kernel := [];
                           calls := [SysProgLoad attr_return0] ++ [SysClose 7];
                           haveObjName_memo := Some false |};
                test_kernel := [];
                test_calls :=
                  [] ++ [{| tr_fd := 7; tr_retval := 0;
                            tr_dataSizeIn := 14; tr_dataSizeOut := 0;
                            tr_dataIn := Some (make_bytes 14); tr_dataOut := None;
                            tr_repeat := 0; tr_duration := 0 |}];
                noProgTestRun_memo := None |}).
Proof.
  apply (noProgTestRun_Fn_closes_probe asm.LittleEndian
           {| base := world_of [answer_loaded];
              test_kernel := [answer_ran]; test_calls := [];
              noProgTestRun_memo := None |}
           {| fd := 7; name := ""; abi := {| abi_Type := SocketFilter |} |}
           {| kernel := []; calls := [SysProgLoad attr_return0];
              haveObjName_memo := Some false |}
           answer_ran []).
  - reflexivity.
  - reflexivity.
Defined.

(** ** Perf events and epoll *)

(** X25: [perfEventOpen] makes one call, with the size field of the
    attribute overwritten by the size of the structure and with the
    close-on-exec flag added to the flags it was given.  It returns no
    error exactly when the error number of the kernel is zero; for every
    other error number, with a message of its own or without, the cause of
    the error it returns is that error number. *)
Theorem perfEventOpen_cause attr pid cpu groupFd flags w efd errNo rest :
  perf_kernel w = (efd, errNo) :: rest ->
  exists err,
    perfEventOpen attr pid cpu groupFd flags w
      = Returns ((int64 efd, err, with_size attr perfEventAttr_Sizeof),
                 {| perf_kernel := rest;
                    perf_calls :=
                      perf_calls w
                        ++ [SysPerfEventOpen (with_size attr perfEventAttr_Sizeof)
                              (uint64 pid) (uint64 cpu) (uint64 groupFd)
                              (uint64 (Z.lor flags 8))];
                  perf_memory := perf_memory w |}) /\
    Z.testbit (Z.lor flags 8) 3 = true /\
    (errNo = 0 -> err = None) /\
    (errNo <> 0 -> exists e, err = Some e /\ open_Cause e = errNo).
Proof.
  intros K. unfold perfEventOpen.
  unfold mbind at 1, PM_bind at 1, perf_syscall. rewrite K.
  eexists. split; [reflexivity|]. split.
  - rewrite Z.lor_spec. change (Z.testbit 8 3) with true. apply orb_true_r.
  - split.
    + intros ->. reflexivity.
    + intros Hne.
      destruct (Z.eqb_spec errNo 0) as [E|_]; [contradiction|].
      repeat match goal with
             | |- context [errNo =? ?c] =>
               destruct (Z.eqb_spec errNo c) as [E|_];
               [eexists; split; [reflexivity|symmetry; exact E]|]
             end.
      eexists. split; reflexivity.
Qed.

Lemma perfEventOpen_cause_witness :
  exists err,
    perfEventOpen attr_bpf_output (-1) 2 (-1) 0
                  {| perf_kernel := [(2 ^ 64 - 1, EACCES)]; perf_calls := [];
                  perf_memory := no_memory |}
      = Returns ((int64 (2 ^ 64 - 1), err,
                  with_size attr_bpf_output perfEventAttr_Sizeof),
                 {| perf_kernel := [];
                    perf_calls :=
                      [] ++ [SysPerfEventOpen
                               (with_size attr_bpf_output perfEventAttr_Sizeof)
                               (uint64 (-1)) (uint64 2) (uint64 (-1))
                               (uint64 (Z.lor 0 8))];
                  perf_memory := no_memory |}) /\
    Z.testbit (Z.lor 0 8) 3 = true /\
    (EACCES = 0 -> err = None) /\
    (EACCES <> 0 -> exists e, err = Some e /\ open_Cause e = EACCES).
Proof.
  apply (perfEventOpen_cause attr_bpf_output (-1) 2 (-1) 0
           {| perf_kernel := [(2 ^ 64 - 1, EACCES)]; perf_calls := [];
                  perf_memory := no_memory |}
           (2 ^ 64 - 1) EACCES []).
  reflexivity.
Defined.

Lemma newEpollFd_loop_adds epollfd fds : forall w answers rest,
  perf_kernel w = answers ++ rest ->
  length answers = length fds ->
  Forall (fun a : Z * Errno => a.2 = 0) answers ->
  newEpollFd_loop epollfd fds w
    = Returns ((epollfd, None),
               {| perf_kernel := rest;
                  perf_calls := perf_calls w ++ epoll_adds epollfd fds;
                  perf_memory := perf_memory w |}).
Proof.
  induction fds as [|fd fds IH]; intros w answers rest K L F.
  - destruct answers; [|discriminate]. cbn in *. subst rest.
    rewrite app_nil_r. now destruct w.
  - destruct answers as [|[r e] answers]; [discriminate|].
    apply Forall_cons in F as [E F]. cbn in E. subst e.
    cbn [newEpollFd_loop]. unfold mbind at 1, PM_bind at 1, EpollCtl.
    unfold mbind at 1, PM_bind at 1, perf_syscall. rewrite K. cbn [app].
    unfold mret at 1, PM_ret at 1. cbn [errno_error Z.eqb].
    rewrite (IH _ answers rest); [|reflexivity|now injection L|assumption].
    cbn [perf_calls perf_kernel]. rewrite <- app_assoc. reflexivity.
Qed.

(** X26: when the kernel accepts every call, [newEpollFd] returns the
    descriptor of the new epoll instance, created with the close-on-exec
    flag, after adding every descriptor it was given, in their order, for
    input events; it closes nothing. *)
Theorem newEpollFd_adds_all fds w r0 answers rest :
  perf_kernel w = (r0, 0) :: answers ++ rest ->
  length answers = length fds ->
  Forall (fun a : Z * Errno => a.2 = 0) answers ->
  newEpollFd fds w
    = Returns ((int64 r0, None),
               {| perf_kernel := rest;
                  perf_calls :=
                    perf_calls w
                      ++ SysEpollCreate1 EPOLL_CLOEXEC
                      :: epoll_adds (int64 r0) fds;
                  perf_memory := perf_memory w |}).
Proof.
  intros K L F. unfold newEpollFd.
  unfold mbind at 1, PM_bind at 1, EpollCreate1.
  unfold mbind at 1, PM_bind at 1, perf_syscall. rewrite K.
  unfold mret at 1, PM_ret at 1. cbn [errno_error Z.eqb].
  rewrite (newEpollFd_loop_adds _ fds _ answers rest);
    [|reflexivity|assumption|assumption].
  cbn [perf_calls]. rewrite <- app_assoc. reflexivity.
Qed.

Lemma newEpollFd_adds_all_witness :
  newEpollFd [3; 4] {| perf_kernel := [(5, 0); (0, 0); (0, 0)]; perf_calls := [];
                  perf_memory := no_memory |}
    = Returns ((int64 5, None),
               {| perf_kernel := [];
                  perf_calls :=
                    [] ++ SysEpollCreate1 EPOLL_CLOEXEC
                       :: epoll_adds (int64 5) [3; 4];
                  perf_memory := no_memory |}).
Proof.
  apply (newEpollFd_adds_all [3; 4]
           {| perf_kernel := [(5, 0); (0, 0); (0, 0)]; perf_calls := [];
                  perf_memory := no_memory |}
           5 [(0, 0); (0, 0)] []).
  - reflexivity.
  - reflexivity.
  - repeat constructor.
Defined.

(** X27: when the kernel refuses to add one of the descriptors,
    [newEpollFd] closes the epoll instance it has created, adds none of
    the descriptors that follow, and returns [-1] and the error of the
    kernel wrapped with "can't add fd to epoll". *)
Theorem newEpollFd_failure_closes fds1 fd fds2 w r0 oks r e c rest :
  perf_kernel w = (r0, 0) :: oks ++ (r, e) :: c :: rest ->
  length oks = length fds1 ->
  Forall (fun a : Z * Errno => a.2 = 0) oks ->
  e <> 0 ->
  newEpollFd (fds1 ++ fd :: fds2) w
    = Returns ((-1, Some (ErrWrap (ErrErrno e) "can't add fd to epoll")),
               {| perf_kernel := rest;
                  perf_calls :=
                    perf_calls w
                      ++ SysEpollCreate1 EPOLL_CLOEXEC
                      :: epoll_adds (int64 r0) (fds1 ++ [fd])
                      ++ [SysClosePerf (int64 r0)];
                  perf_memory := perf_memory w |}).
Proof.
  intros K L F Hne. unfold newEpollFd.
  unfold mbind at 1, PM_bind at 1, EpollCreate1.
  unfold mbind at 1, PM_bind at 1, perf_syscall. rewrite K.
  unfold mret at 1, PM_ret at 1. cbn [errno_error Z.eqb].
  set (w1 := {| perf_kernel := oks ++ (r, e) :: c :: rest;
                perf_calls := perf_calls w ++ [SysEpollCreate1 EPOLL_CLOEXEC];
                  perf_memory := perf_memory w |}).
  assert (G : forall fds1 oks w1,
             perf_kernel w1 = oks ++ (r, e) :: c :: rest ->
             length oks = length fds1 ->
             Forall (fun a : Z * Errno => a.2 = 0) oks ->
             newEpollFd_loop (int64 r0) (fds1 ++ fd :: fds2) w1
             = Returns ((-1, Some (ErrWrap (ErrErrno e) "can't add fd to epoll")),
                        {| perf_kernel := rest;
                           perf_calls :=
                             perf_calls w1
                               ++ epoll_adds (int64 r0) (fds1 ++ [fd])
                               ++ [SysClosePerf (int64 r0)];
                  perf_memory := perf_memory w1 |})).
  { clear - Hne. induction fds1 as [|f fds1 IH]; intros oks w1 K L F.
    - destruct oks; [|discriminate]. cbn [app] in *.
      cbn [newEpollFd_loop]. unfold mbind at 1, PM_bind at 1, EpollCtl.
      unfold mbind at 1, PM_bind at 1, perf_syscall. rewrite K.
      unfold mret at 1, PM_ret at 1. unfold errno_error.
      destruct (Z.eqb_spec e 0); [contradiction|].
      unfold mbind at 1, PM_bind at 1, Close_fd.
      unfold mbind at 1, PM_bind at 1, perf_syscall.
      cbn [perf_kernel perf_calls].
      destruct c as [rc ec].
      unfold mret, PM_ret. cbn [Wrap]. rewrite <- app_assoc. reflexivity.
    - destruct oks as [|[r' e'] oks]; [discriminate|].
      apply Forall_cons in F as [E F]. cbn in E. subst e'.
      cbn [app newEpollFd_loop]. unfold mbind at 1, PM_bind at 1, EpollCtl.
      unfold mbind at 1, PM_bind at 1, perf_syscall. rewrite K. cbn [app].
      unfold mret at 1, PM_ret at 1. cbn [errno_error Z.eqb].
      rewrite (IH oks); [|reflexivity|now injection L|assumption].
      cbn [perf_calls perf_kernel]. rewrite <- app_assoc. reflexivity. }
  rewrite (G fds1 oks w1); [|reflexivity|assumption|assumption].
  cbn [perf_calls w1]. rewrite <- app_assoc. reflexivity.
Qed.

Lemma newEpollFd_failure_closes_witness :
  newEpollFd ([3] ++ 4 :: [6])
             {| perf_kernel := [(5, 0); (0, 0); (2 ^ 64 - 1, EPERM); (0, 0)];
                perf_calls := [];
                  perf_memory := no_memory |}
    = Returns ((-1, Some (ErrWrap (ErrErrno EPERM) "can't add fd to epoll")),
               {| perf_kernel := [];
                  perf_calls :=
                    [] ++ SysEpollCreate1 EPOLL_CLOEXEC
                       :: epoll_adds (int64 5) ([3] ++ [4])
                       ++ [SysClosePerf (int64 5)];
                  perf_memory := no_memory |}).
Proof.
  apply (newEpollFd_failure_closes [3] 4 [6]
           {| perf_kernel := [(5, 0); (0, 0); (2 ^ 64 - 1, EPERM); (0, 0)];
              perf_calls := [];
                  perf_memory := no_memory |}
           5 [(0, 0)] (2 ^ 64 - 1) EPERM (0, 0) []).
  - reflexivity.
  - reflexivity.
  - repeat constructor.
  - discriminate.
Defined.

(** *** The ring of one CPU *)

Lemma mapping_size_rounds pageSize perCPUBuffer :
  0 < pageSize -> 0 <= perCPUBuffer ->
  perCPUBuffer + 2 * pageSize < 2 ^ 63 ->
  mapping_size pageSize perCPUBuffer mod pageSize = 0 /\
  perCPUBuffer + pageSize <= mapping_size pageSize perCPUBuffer
    < perCPUBuffer + 2 * pageSize.
Proof.
  intros Hp Hb Hs. unfold mapping_size, ring_pages.
  rewrite (int64_small (perCPUBuffer + pageSize)) by lia.
  rewrite (int64_small (perCPUBuffer + pageSize - 1)) by lia.
  rewrite Z.quot_div_nonneg by lia.
  pose proof (Z.div_mod (perCPUBuffer + pageSize - 1) pageSize ltac:(lia)) as D.
  pose proof (Z.mod_pos_bound (perCPUBuffer + pageSize - 1) pageSize Hp) as M.
  set (q := (perCPUBuffer + pageSize - 1) / pageSize) in *.
  set (r := (perCPUBuffer + pageSize - 1) mod pageSize) in *.
  assert (Hq : 0 <= q) by (apply Z.div_pos; lia).
  assert (E : (1 + q) * pageSize = pageSize + pageSize * q) by lia.
  rewrite (int64_small q) by nia.
  rewrite (int64_small (1 + q)) by nia.
  rewrite E. rewrite int64_small by lia.
  split; [|lia].
  replace (pageSize + pageSize * q) with ((1 + q) * pageSize) by lia.
  apply Z.mod_mul. lia.
Qed.

Lemma nonempty_case {A B} (l : list A) (a b : B) :
  l <> [] -> match l with [] => a | _ :: _ => b end = b.
Proof. now destruct l. Qed.

Lemma perfEventOpen_opens attr pid cpu groupFd flags w efd rest :
  perf_kernel w = (efd, 0) :: rest ->
  perfEventOpen attr pid cpu groupFd flags w
    = Returns ((int64 efd, None, with_size attr perfEventAttr_Sizeof),
               {| perf_kernel := rest;
                  perf_calls :=
                    perf_calls w
                      ++ [SysPerfEventOpen (with_size attr perfEventAttr_Sizeof)
                            (uint64 pid) (uint64 cpu) (uint64 groupFd)
                            (uint64 (Z.lor flags 8))];
                  perf_memory := perf_memory w |}).
Proof.
  intros K. unfold perfEventOpen.
  unfold mbind at 1, PM_bind at 1, perf_syscall. rewrite K. reflexivity.
Qed.

(** X28: when the event of the ring has been opened and a later step
    fails, making the descriptor non-blocking or mapping the ring,
    [newPerfEventRing] closes the descriptor of the event before it
    returns the error of that step, and returns no ring. *)
Theorem newPerfEventRing_failure_closes bo pageSize cpu opts w
        efd r1 e1 addr e2 c rest more :
  Watermark opts < PerCPUBuffer opts ->
  0 < mapping_size pageSize (PerCPUBuffer opts) ->
  perf_kernel w = (efd, 0) :: (r1, e1) :: more ->
  (e1 <> 0 /\ more = c :: rest) \/
  (e1 = 0 /\ e2 <> 0 /\ more = (addr, e2) :: c :: rest) ->
  newPerfEventRing bo pageSize cpu opts w
    = Returns
        ((None, Some (RingErrno (if e1 =? 0 then e2 else e1))),
         {| perf_kernel := rest;
            perf_calls :=
              perf_calls w
                ++ [SysPerfEventOpen
                      (with_size (ring_attr (Watermark opts)) perfEventAttr_Sizeof)
                      (uint64 (-1)) (uint64 cpu) (uint64 (-1)) (uint64 (Z.lor 0 8));
                    SysSetNonblock (int64 efd) true]
                ++ (if e1 =? 0
                    then [SysMmap (int64 efd) 0
                                  (uint64 (mapping_size pageSize (PerCPUBuffer opts)))
                                  (Z.lor PROT_READ PROT_WRITE) MAP_SHARED]
                    else [])
                ++ [SysClosePerf (int64 efd)];
            perf_memory := perf_memory w |}).
Proof.
  intros Hw Hsize K Hcase. unfold newPerfEventRing.
  destruct (Z.geb_spec (Watermark opts) (PerCPUBuffer opts)); [lia|].
  unfold mbind at 1, PM_bind at 1.
  rewrite (perfEventOpen_opens _ _ _ _ _ w efd _ K).
  unfold mbind at 1, PM_bind at 1, SetNonblock.
  unfold mbind at 1, PM_bind at 1, perf_syscall. cbn [perf_kernel perf_calls perf_memory].
  unfold mret at 1, PM_ret at 1.
  destruct Hcase as [[Hne ->]|(-> & Hne & ->)].
  - destruct (Z.eqb_spec e1 0); [contradiction|].
    unfold mbind at 1, PM_bind at 1, Close_fd.
    unfold mbind at 1, PM_bind at 1, perf_syscall. cbn [perf_kernel perf_calls perf_memory].
    destruct c as [rc ec]. unfold mret, PM_ret.
    rewrite <- !app_assoc. reflexivity.
  - cbn [Z.eqb].
    unfold mbind at 1, PM_bind at 1, Mmap.
    destruct (Z.leb_spec (mapping_size pageSize (PerCPUBuffer opts)) 0); [lia|].
    unfold mbind at 1, PM_bind at 1, perf_syscall. cbn [perf_kernel perf_calls perf_memory].
    destruct (Z.eqb_spec e2 0); [contradiction|].
    unfold mret at 1, PM_ret at 1.
    unfold mbind at 1, PM_bind at 1, Close_fd.
    unfold mbind at 1, PM_bind at 1, perf_syscall. cbn [perf_kernel perf_calls perf_memory].
    destruct c as [rc ec]. unfold mret, PM_ret.
    rewrite <- !app_assoc. reflexivity.
Qed.

Lemma newPerfEventRing_failure_closes_witness :
  newPerfEventRing asm.LittleEndian 4096 0
      {| PerCPUBuffer := 4096; Watermark := 1024 |}
      {| perf_kernel := [(9, 0); (0, 0); (2 ^ 64 - 1, EPERM); (0, 0)];
         perf_calls := []; perf_memory := no_memory |}
    = Returns
        ((None, Some (RingErrno (if 0 =? 0 then EPERM else 0))),
         {| perf_kernel := [];
            perf_calls :=
              [] ++ [SysPerfEventOpen
                       (with_size (ring_attr 1024) perfEventAttr_Sizeof)
                       (uint64 (-1)) (uint64 0) (uint64 (-1)) (uint64 (Z.lor 0 8));
                     SysSetNonblock (int64 9) true]
                ++ (if 0 =? 0
                    then [SysMmap (int64 9) 0
                                  (uint64 (mapping_size 4096 4096))
                                  (Z.lor PROT_READ PROT_WRITE) MAP_SHARED]
                    else [])
                ++ [SysClosePerf (int64 9)];
            perf_memory := no_memory |}).
Proof.
  apply (newPerfEventRing_failure_closes asm.LittleEndian 4096 0
           {| PerCPUBuffer := 4096; Watermark := 1024 |}
           {| perf_kernel := [(9, 0); (0, 0); (2 ^ 64 - 1, EPERM); (0, 0)];
              perf_calls := []; perf_memory := no_memory |}
           9 0 0 (2 ^ 64 - 1) EPERM (0, 0) []
           [(2 ^ 64 - 1, EPERM); (0, 0)]).
  - simpl. lia.
  - vm_compute. reflexivity.
  - reflexivity.
  - right. split; [reflexivity|]. split; [discriminate|reflexivity].
Defined.

(** X29: with a watermark below the buffer size and a kernel that accepts
    every call, [newPerfEventRing] opens the event on the given CPU for
    every process, makes its descriptor non-blocking and maps it, shared,
    for reading and writing.  The mapping is a whole number of pages: one
    page more than the buffer size rounded up to pages.  The ring that
    comes back has the descriptor of the event, and its data are the part
    of the mapping that the metadata page gives by offset and size. *)
Theorem newPerfEventRing_maps bo pageSize cpu opts w efd r1 addr rest :
  0 < pageSize ->
  0 <= Watermark opts < PerCPUBuffer opts ->
  PerCPUBuffer opts + 2 * pageSize < 2 ^ 63 ->
  perf_kernel w = (efd, 0) :: (r1, 0) :: (addr, 0) :: rest ->
  let size := mapping_size pageSize (PerCPUBuffer opts) in
  let mmap := take (Z.to_nat size)
                   (perf_memory w addr ++ replicate (Z.to_nat size) x00) in
  let meta := meta_of bo mmap in
  dataOffset meta + dataSize meta <= size ->
  newPerfEventRing bo pageSize cpu opts w
    = Returns
        ((Some {| er_fd := int64 efd; er_meta := meta; er_mmap := mmap;
                  er_ring := take (Z.to_nat (dataSize meta))
                                  (drop (Z.to_nat (dataOffset meta)) mmap) |},
          None),
         {| perf_kernel := rest;
            perf_calls :=
              perf_calls w
                ++ [SysPerfEventOpen
                      (with_size (ring_attr (Watermark opts)) perfEventAttr_Sizeof)
                      (uint64 (-1)) (uint64 cpu) (uint64 (-1)) (uint64 (Z.lor 0 8));
                    SysSetNonblock (int64 efd) true;
                    SysMmap (int64 efd) 0 size
                            (Z.lor PROT_READ PROT_WRITE) MAP_SHARED];
            perf_memory := perf_memory w |})
  /\ size mod pageSize = 0
  /\ PerCPUBuffer opts + pageSize <= size < PerCPUBuffer opts + 2 * pageSize.
Proof.
  intros Hp Hw Hs K size mmap meta Hfit.
  destruct (mapping_size_rounds pageSize (PerCPUBuffer opts)) as [Hm Hr];
    [lia|lia|lia|]. fold size in Hm, Hr.
  split; [|split; assumption].
  unfold newPerfEventRing.
  destruct (Z.geb_spec (Watermark opts) (PerCPUBuffer opts)); [lia|].
  unfold mbind at 1, PM_bind at 1.
  rewrite (perfEventOpen_opens _ _ _ _ _ w efd _ K).
  unfold mbind at 1, PM_bind at 1, SetNonblock.
  unfold mbind at 1, PM_bind at 1, perf_syscall. cbn [perf_kernel perf_calls perf_memory].
  unfold mret at 1, PM_ret at 1. cbn [Z.eqb].
  unfold mbind at 1, PM_bind at 1, Mmap. fold size.
  destruct (Z.leb_spec size 0); [lia|].
  unfold mbind at 1, PM_bind at 1, perf_syscall. cbn [perf_kernel perf_calls perf_memory].
  cbn [Z.eqb].
  unfold mbind at 1, PM_bind at 1, mapped. cbn [perf_memory].
  unfold mret at 1, PM_ret at 1. fold mmap.
  assert (Lm : len mmap = size).
  { unfold len, mmap. rewrite length_take, length_app, length_replicate. lia. }
  assert (Hne : mmap <> []).
  { intros E. unfold len in Lm. rewrite E in Lm. cbn [length] in Lm. lia. }
  rewrite (nonempty_case mmap) by assumption. fold meta.
  assert (Ho : 0 <= dataOffset meta).
  { unfold meta, meta_of. cbn [dataOffset]. unfold asm.get_uint.
    apply le_val_range. }
  assert (Hd : 0 <= dataSize meta).
  { unfold meta, meta_of. cbn [dataSize]. unfold asm.get_uint.
    apply le_val_range. }
  rewrite (uint64_small (dataOffset meta + dataSize meta)) by lia.
  rewrite slice_Some by lia.
  replace (dataOffset meta + dataSize meta - dataOffset meta)
    with (dataSize meta) by lia.
  rewrite (uint64_small size) by lia.
  unfold mret, PM_ret. rewrite <- !app_assoc. reflexivity.
Qed.

Lemma newPerfEventRing_maps_witness :
  newPerfEventRing asm.LittleEndian 4096 0
      {| PerCPUBuffer := 4000; Watermark := 1024 |}
      {| perf_kernel := [(9, 0); (0, 0); (0x7f0000000000, 0)];
         perf_calls := []; perf_memory := example_memory |}
    = Returns
        ((Some {| er_fd := 9;
                  er_meta := {| dataHead := 40; dataTail := 0;
                                dataOffset := 4096; dataSize := 4096 |};
                  er_mmap := example_mapping;
                  er_ring := example_stream ++ replicate (4096 - 40) x00 |},
          None),
         {| perf_kernel := [];
            perf_calls :=
              [SysPerfEventOpen
                 (with_size (ring_attr 1024) perfEventAttr_Sizeof)
                 (uint64 (-1)) 0 (uint64 (-1)) 8;
               SysSetNonblock 9 true;
               SysMmap 9 0 8192 3 1];
            perf_memory := example_memory |})
  /\ 8192 mod 4096 = 0
  /\ 4000 + 4096 <= 8192 < 4000 + 2 * 4096.
Proof.
  apply (newPerfEventRing_maps asm.LittleEndian 4096 0
           {| PerCPUBuffer := 4000; Watermark := 1024 |}
           {| perf_kernel := [(9, 0); (0, 0); (0x7f0000000000, 0)];
              perf_calls := []; perf_memory := example_memory |}
           9 0 0x7f0000000000 []).
  - lia.
  - simpl. lia.
  - simpl. lia.
  - reflexivity.
  - vm_compute. discriminate.
Defined.
